(** * generative_agents: the persona cognition core, embedded in Rocq

    A shallow embedding of the Go packages [memory], [maze] and [agent] of the
    simulation server, followed by the properties proved about them.

    Conventions of the embedding.
    - Go [string] is [string] (a byte sequence); Go [int] is [Z].
    - A Go [map] is a stdpp [gmap]; reading a missing key (also from a nil
      map) yields the zero value, writing into a nil map panics.
    - A function that can panic returns [option]: [None] is the panic.
    - [float64] scores are exact rationals in canonical form, [Qc]; see the
      retrieval section. *)

From Stdlib Require Import ZArith QArith Qcanon Lia Ascii String.
From stdpp Require Import base option numbers list gmap strings sorting.

Local Open Scope Z_scope.
Local Open Scope string_scope.

(* ===================================================================== *)
(** * Go slices and integers *)
(* ===================================================================== *)

(** Indexing a slice with an [int]: out of range panics. *)
Definition index {A} (l : list A) (i : Z) : option A :=
  if decide (0 <= i) then l !! Z.to_nat i else None.

(** [len], as a Go [int]. *)
Definition len {A} (l : list A) : Z := Z.of_nat (length l).

(** [l[i] = x]: out of range panics. *)
Definition assign {A} (l : list A) (i : Z) (x : A) : option (list A) :=
  if decide (0 <= i < len l) then Some (<[Z.to_nat i := x]> l) else None.

(* ===================================================================== *)
(** * Package [memory]: hierarchical paths *)
(* ===================================================================== *)

Module memory.

(** [type PathLevel int] with its [iota] constants. *)
Definition PathLevel := Z.
Definition PathLevelInvalid : PathLevel := 0.
Definition PathLevelWorld : PathLevel := 1.
Definition PathLevelSector : PathLevel := 2.
Definition PathLevelArena : PathLevel := 3.
Definition PathLevelObject : PathLevel := 4.

Record Path := mkPath {
  world : string;
  sector : string;
  arena : string;
  object : string
}.

#[global] Instance Path_eq_dec : EqDecision Path.
Proof. solve_decision. Defined.

(** [strings.Split(s, ":")]: the pieces between the separators; a string
    without separator is returned whole, so the result is never empty. *)
Fixpoint Split (s : string) : list string :=
  match s with
  | EmptyString => [EmptyString]
  | String c rest =>
      if Ascii.eqb c ":"%char then EmptyString :: Split rest
      else match Split rest with
           | piece :: pieces => String c piece :: pieces
           | [] => [String c EmptyString]
           end
  end.

(** [ParsePath]; more than four parts is the panic. *)
Definition ParsePath (loc : string) : option Path :=
  let parts := Split loc in
  if decide (4 < length parts)%nat then None
  else
    let l := mkPath (nth 0 parts "") "" "" "" in
    let l := if decide (1 < length parts)%nat
             then mkPath (world l) (nth 1 parts "") (arena l) (object l) else l in
    let l := if decide (2 < length parts)%nat
             then mkPath (world l) (sector l) (nth 2 parts "") (object l) else l in
    let l := if decide (3 < length parts)%nat
             then mkPath (world l) (sector l) (arena l) (nth 3 parts "") else l in
    Some l.

(** [Path.ToString]. *)
Definition ToString (p : Path) : string :=
  let str := world p in
  if decide (sector p = "") then str
  else
    let str := str ++ ":" ++ sector p in
    if decide (arena p = "") then str
    else
      let str := str ++ ":" ++ arena p in
      if decide (object p = "") then str
      else str ++ ":" ++ object p.

(** [Path.Get]; an invalid level panics. *)
Definition Get (p : Path) (level : PathLevel) : option string :=
  if decide (level = PathLevelWorld) then Some (world p)
  else if decide (level = PathLevelSector) then Some (sector p)
  else if decide (level = PathLevelArena) then Some (arena p)
  else if decide (level = PathLevelObject) then Some (object p)
  else None.

(* --------------------------------------------------------------------- *)
(** ** The spatial index *)

(** [type Worlds map[string]map[string]map[string]map[string]struct{}]:
    world -> sector -> arena -> object. The innermost map is a set. *)
Abbreviation Objects := (gset string).
Abbreviation Arenas := (gmap string Objects).
Abbreviation Sectors := (gmap string Arenas).
Abbreviation Worlds := (gmap string Sectors).

Definition NewSpatial : Worlds := ∅.

(** The four blocks of [Register], one per level. Each reads through the
    chain of maps (a missing link reads as a nil map, so the key is reported
    absent) and then assigns into the map one level up: when that map is
    missing the assignment is a write into a nil map, which panics. *)
Definition registerWorld (path : Path) (worlds : Worlds) : option Worlds :=
  if decide (world path ≠ "") then
    match worlds !! world path with
    | Some _ => Some worlds
    | None => Some (<[world path := ∅]> worlds)
    end
  else Some worlds.

Definition registerSector (path : Path) (worlds : Worlds) : option Worlds :=
  if decide (sector path ≠ "") then
    match worlds !! world path with
    | None => None
    | Some sectors =>
        match sectors !! sector path with
        | Some _ => Some worlds
        | None => Some (<[world path := <[sector path := ∅]> sectors]> worlds)
        end
    end
  else Some worlds.

Definition registerArena (path : Path) (worlds : Worlds) : option Worlds :=
  if decide (arena path ≠ "") then
    match worlds !! world path with
    | None => None
    | Some sectors =>
        match sectors !! sector path with
        | None => None
        | Some arenas =>
            match arenas !! arena path with
            | Some _ => Some worlds
            | None =>
                Some (<[world path :=
                          <[sector path := <[arena path := ∅]> arenas]> sectors]>
                        worlds)
            end
        end
    end
  else Some worlds.

Definition registerObject (path : Path) (worlds : Worlds) : option Worlds :=
  if decide (object path ≠ "") then
    match worlds !! world path with
    | None => None
    | Some sectors =>
        match sectors !! sector path with
        | None => None
        | Some arenas =>
            match arenas !! arena path with
            | None => None
            | Some objects =>
                if decide (object path ∈ objects) then Some worlds
                else
                  Some (<[world path :=
                            <[sector path :=
                                <[arena path := {[object path]} ∪ objects]> arenas]>
                              sectors]>
                          worlds)
            end
        end
    end
  else Some worlds.

(** [Spatial.Register]. *)
Definition Register (path : Path) (worlds : Worlds) : option Worlds :=
  worlds ← registerWorld path worlds;
  worlds ← registerSector path worlds;
  worlds ← registerArena path worlds;
  registerObject path worlds.

(** A sequence of [Register] calls, first to last. *)
Fixpoint RegisterAll (paths : list Path) (worlds : Worlds) : option Worlds :=
  match paths with
  | [] => Some worlds
  | path :: rest => worlds ← Register path worlds; RegisterAll rest worlds
  end.

(** [keys]: the keys of a map, each once. Go ranges over a map in an
    unspecified order; the model lists them in the order of stdpp's
    [elements], and nothing below depends on that order. *)
Definition keys {V} (m : gmap string V) : list string := elements (dom m).

(** [Spatial.GetKnown].
    [path.Get] is only called with level constants, so it cannot panic. *)
Definition GetKnown (worlds : Worlds) (path : Path) (level : PathLevel)
  : list string :=
  if decide (level = PathLevelInvalid) then []
  else if decide (level <= PathLevelWorld) then keys worlds
  else
    match worlds !! world path with
    | None => []
    | Some sectors =>
        if decide (level <= PathLevelSector) then keys sectors
        else
          match sectors !! sector path with
          | None => []
          | Some arenas =>
              if decide (level <= PathLevelArena) then keys arenas
              else
                match arenas !! arena path with
                | None => []
                | Some objects => elements objects
                end
          end
    end.

(* --------------------------------------------------------------------- *)
(** ** The associative store *)

Record SPO := mkSPO {
  spoSubject : string;
  spoPredicate : string;
  spoObject : string
}.

#[global] Instance SPO_eq_dec : EqDecision SPO.
Proof. solve_decision. Defined.

Inductive NodeType :=
  | NodeTypeInvalid
  | NodeTypeThought
  | NodeTypeEvent
  | NodeTypeChat.

#[global] Instance NodeType_eq_dec : EqDecision NodeType.
Proof. solve_decision. Defined.

Record Utterance := mkUtterance {
  Speaker : string;
  Sentence : string
}.

(** [type NodeId int]. *)
Definition NodeId := Z.

(** [time.Time], as a count of nanoseconds since the Unix epoch (UTC). *)
Definition Time := Z.

Record ConceptNode := mkConceptNode {
  Id : NodeId;
  NodeCount : Z;
  TypeCount : Z;
  Type_ : NodeType;
  Depth : Z;
  Created : Time;
  LastAccessed : Time;
  Expiration : option Time;
  Subject : string;
  Predicate : string;
  Object : string;
  Description : string;
  EmbeddingKey : string;
  Importance : Z;
  Valence : Z;
  Keywords : list string;
  Evidence : list NodeId;
  Chat : list Utterance
}.

(** The zero value of [ConceptNode], the unused node at index 0. *)
Definition zeroNode : ConceptNode :=
  mkConceptNode 0 0 0 NodeTypeInvalid 0 0 0 None "" "" "" "" "" 0 0 [] [] [].

Record Associative := mkAssociative {
  nodes : list ConceptNode;
  events : list NodeId;
  thoughts : list NodeId;
  chats : list NodeId;
  kwToEvents : gmap string (list NodeId);
  kwToThoughts : gmap string (list NodeId);
  kwToChats : gmap string (list NodeId);
  kwStrengthEvents : gmap string Z;
  kwStrengthThoughts : gmap string Z;
  embeddings : gmap string (list Qc)
}.

(** [NewAssociative]: one empty node at index 0, so that ids start at 1.
    The three maps handed in are taken to be non-nil, as the loader makes
    them. *)
Definition NewAssociative (embeddings : gmap string (list Qc))
    (kwStrengthEvents kwStrengthThoughts : gmap string Z) : Associative :=
  mkAssociative [zeroNode] [] [] [] ∅ ∅ ∅
    kwStrengthEvents kwStrengthThoughts embeddings.

Definition GetNode (store : Associative) (node : NodeId) : option ConceptNode :=
  index (nodes store) node.

Definition withNodes (store : Associative) (ns : list ConceptNode) : Associative :=
  mkAssociative ns (events store) (thoughts store) (chats store)
    (kwToEvents store) (kwToThoughts store) (kwToChats store)
    (kwStrengthEvents store) (kwStrengthThoughts store) (embeddings store).

(** [UpdateNode(node, update)]: [update] applied to the node in place. *)
Definition UpdateNode (store : Associative) (node : NodeId)
    (update : ConceptNode -> ConceptNode) : option Associative :=
  c ← index (nodes store) node;
  Some (withNodes store (<[Z.to_nat node := update c]> (nodes store))).

(** [strings.ToLower] as it acts on a string of ASCII bytes: the 26 capital
    letters are lowered, byte by byte. On other strings Go maps every
    letter through the case tables of its [unicode] package, which this
    model does not hold; statements that depend on which letters are
    lowered are made for strings of ASCII bytes. *)
Definition lowerAscii (c : ascii) : ascii :=
  let n := nat_of_ascii c in
  if decide (65 <= n <= 90)%nat then ascii_of_nat (n + 32) else c.

Fixpoint ToLower (s : string) : string :=
  match s with
  | EmptyString => EmptyString
  | String c rest => String (lowerAscii c) (ToLower rest)
  end.

(** The loop [for _, kw := range keywords] that prepends the new id to each
    keyword's id list. *)
Definition indexKeywords (id : NodeId) (keywords : list string)
    (kwTo : gmap string (list NodeId)) : gmap string (list NodeId) :=
  foldl (fun m kw =>
           match m !! kw with
           | Some kws => <[kw := id :: kws]> m
           | None => <[kw := [id]]> m
           end) kwTo keywords.

(** The loop [kwStrength[kw] += 1]; a missing key counts from 0. *)
Definition strengthenKeywords (keywords : list string) (kwStrength : gmap string Z)
  : gmap string Z :=
  foldl (fun m kw => <[kw := default 0 (m !! kw) + 1]> m) kwStrength keywords.

(** [AddEvent]. The keywords are lower-cased in place after the node was
    built; the node's [Keywords] slice shares their storage, so the stored
    and the returned node carry the lower-cased keywords. *)
Definition AddEvent (store : Associative) (spo : SPO) (description : string)
    (keywords : list string) (importance valence : Z) (evidence : list NodeId)
    (created : Time) (expiration : option Time) (embeddingKey : string)
    (embedding : list Qc) : Associative * ConceptNode :=
  let nodeCount := len (nodes store) in
  let typeCount := len (events store) in
  let nodeType := NodeTypeEvent in
  let nodeId : NodeId := nodeCount in
  let depth := 0 in
  let keywords := ToLower <$> keywords in
  let node :=
    mkConceptNode nodeId nodeCount typeCount nodeType depth created created
      expiration (spoSubject spo) (spoPredicate spo) (spoObject spo)
      description embeddingKey importance valence keywords evidence [] in
  (mkAssociative
     (nodes store ++ [node])
     (Id node :: events store)
     (thoughts store)
     (chats store)
     (indexKeywords (Id node) keywords (kwToEvents store))
     (kwToThoughts store)
     (kwToChats store)
     (if decide (spoPredicate spo ≠ "is" ∧ spoObject spo ≠ "idle")
      then strengthenKeywords keywords (kwStrengthEvents store)
      else kwStrengthEvents store)
     (kwStrengthThoughts store)
     (<[embeddingKey := embedding]> (embeddings store)),
   node).

(** The loop of [AddThought] over the evidence: the largest [Depth];
    evidence that is not a node of the store panics. *)
Fixpoint maxEvidenceDepth (store : Associative) (evidence : list NodeId)
    (maxDepth : Z) : option Z :=
  match evidence with
  | [] => Some maxDepth
  | nodeId :: rest =>
      c ← index (nodes store) nodeId;
      maxEvidenceDepth store rest
        (if decide (Depth c > maxDepth) then Depth c else maxDepth)
  end.

(** [AddThought]. *)
Definition AddThought (store : Associative) (spo : SPO) (description : string)
    (keywords : list string) (importance valence : Z) (evidence : list NodeId)
    (created : Time) (expiration : option Time) (embeddingKey : string)
    (embedding : list Qc) : option (Associative * ConceptNode) :=
  let nodeCount := len (nodes store) in
  let typeCount := len (thoughts store) in
  let nodeType := NodeTypeThought in
  let nodeId : NodeId := nodeCount in
  maxDepth ← maxEvidenceDepth store evidence 0;
  let depth := 1 + maxDepth in
  let keywords := ToLower <$> keywords in
  let node :=
    mkConceptNode nodeId nodeCount typeCount nodeType depth created created
      expiration (spoSubject spo) (spoPredicate spo) (spoObject spo)
      description embeddingKey importance valence keywords evidence [] in
  Some
    (mkAssociative
       (nodes store ++ [node])
       (events store)
       (Id node :: thoughts store)
       (chats store)
       (kwToEvents store)
       (indexKeywords (Id node) keywords (kwToThoughts store))
       (kwToChats store)
       (kwStrengthEvents store)
       (if decide (spoPredicate spo ≠ "is" ∧ spoObject spo ≠ "idle")
        then strengthenKeywords keywords (kwStrengthThoughts store)
        else kwStrengthThoughts store)
       (<[embeddingKey := embedding]> (embeddings store)),
     node).

(** [AddChat]. As in the source, [typeCount] is read from [store.thoughts]. *)
Definition AddChat (store : Associative) (spo : SPO) (description : string)
    (keywords : list string) (importance valence : Z) (chat : list Utterance)
    (created : Time) (expiration : option Time) (embeddingKey : string)
    (embedding : list Qc) : Associative * ConceptNode :=
  let nodeCount := len (nodes store) in
  let typeCount := len (thoughts store) in
  let nodeType := NodeTypeChat in
  let nodeId : NodeId := nodeCount in
  let depth := 0 in
  let keywords := ToLower <$> keywords in
  let node :=
    mkConceptNode nodeId nodeCount typeCount nodeType depth created created
      expiration (spoSubject spo) (spoPredicate spo) (spoObject spo)
      description embeddingKey importance valence keywords [] chat in
  (mkAssociative
     (nodes store ++ [node])
     (events store)
     (thoughts store)
     (Id node :: chats store)
     (kwToEvents store)
     (kwToThoughts store)
     (indexKeywords (Id node) keywords (kwToChats store))
     (kwStrengthEvents store)
     (kwStrengthThoughts store)
     (<[embeddingKey := embedding]> (embeddings store)),
   node).

(** The body shared, word for word, by [RetrieveRelevantEvents] and
    [RetrieveRelevantThoughts]: for each of the three strings, the ids that
    [kwTo] lists under it, collected into a set. *)
Definition collectKeywordIds (kwTo : gmap string (list NodeId))
    (subject predicate object : string) : gset NodeId :=
  foldl (fun ret i =>
           match kwTo !! i with
           | Some ids => foldl (fun ret id => {[id]} ∪ ret) ret ids
           | None => ret
           end) ∅ [subject; predicate; object].

(** [RetrieveRelevantEvents]. As in the source, the index read is
    [store.kwToThoughts]. *)
Definition RetrieveRelevantEvents (store : Associative)
    (subject predicate object : string) : gset NodeId :=
  collectKeywordIds (kwToThoughts store) subject predicate object.

(** [RetrieveRelevantThoughts]. *)
Definition RetrieveRelevantThoughts (store : Associative)
    (subject predicate object : string) : gset NodeId :=
  collectKeywordIds (kwToThoughts store) subject predicate object.

Definition GetLatestEventIds (store : Associative) : list NodeId := events store.
Definition GetLatestThoughtIds (store : Associative) : list NodeId := thoughts store.

Definition GetEmbedding (store : Associative) (str : string) : option (list Qc) :=
  embeddings store !! str.

(** [GetEmbeddingByNodeId]; the node lookup can panic, a missing embedding
    reads as the nil slice. *)
Definition GetEmbeddingByNodeId (store : Associative) (id : NodeId)
  : option (list Qc) :=
  c ← GetNode store id;
  Some (default [] (embeddings store !! EmbeddingKey c)).

(* --------------------------------------------------------------------- *)
(** ** Paths: levels, masks and special paths *)

(** [type PathState int]: the five exported states. The two unexported
    range markers, for which [ToString] panics, are left out. *)
Inductive PathState :=
  | PathStateNormal
  | PathStateWaiting
  | PathStatePersona
  | PathStateSpawningLocation
  | PathStateRandom.

#[global] Instance PathState_eq_dec : EqDecision PathState.
Proof. solve_decision. Defined.

(** [PathState.ToString]. *)
Definition PathState_ToString (s : PathState) : string :=
  match s with
  | PathStateNormal => ""
  | PathStatePersona => "<persona>"
  | PathStateRandom => "<random>"
  | PathStateWaiting => "<waiting>"
  | PathStateSpawningLocation => "<spawn_loc>"
  end.

(** [type PathOption func] on a pointer to the path, and the four options. *)
Definition PathOption := Path -> Path.
Definition PathWithWorld (w : string) : PathOption :=
  fun p => mkPath w (sector p) (arena p) (object p).
Definition PathWithSector (s : string) : PathOption :=
  fun p => mkPath (world p) s (arena p) (object p).
Definition PathWithArena (a : string) : PathOption :=
  fun p => mkPath (world p) (sector p) a (object p).
Definition PathWithObject (o : string) : PathOption :=
  fun p => mkPath (world p) (sector p) (arena p) o.

(** [Path.Copy] and [NewPath]: the options are applied first to last. *)
Definition Copy (p : Path) (opts : list PathOption) : Path :=
  foldl (fun newPath opt => opt newPath) p opts.

Definition NewPath (opts : list PathOption) : Path :=
  Copy (mkPath "" "" "" "") opts.

(** [SpecialPath]. [fmt.Sprintf("%s %s", state.ToString(), arg)] is the
    marker, a space, and the argument. *)
Definition SpecialPath (state : PathState) (arg : string) : option Path :=
  match state with
  | PathStateNormal => ParsePath arg
  | PathStateRandom =>
      (fun p => Copy p [PathWithObject "<random>"]) <$> ParsePath arg
  | _ => ParsePath (PathState_ToString state ++ " " ++ arg)
  end.

(** [fmt.Sprintf(WaitingArgFormat, x, y)], given the decimal renderings of
    the two integers. *)
Definition formatWaitingArg (x y : string) : string :=
  "X: " ++ x ++ ", Y: " ++ y.

(** [Path.Base]: the lowest segment that is set. *)
Definition Base (p : Path) : string :=
  if decide (object p ≠ "") then object p
  else if decide (arena p ≠ "") then arena p
  else if decide (sector p ≠ "") then sector p
  else world p.

(** [Path.AtLevel]. *)
Definition AtLevel (p : Path) (level : PathLevel) : Path :=
  if decide (level = PathLevelInvalid) then p
  else
    mkPath
      (if decide (level >= PathLevelWorld) then world p else "")
      (if decide (level >= PathLevelSector) then sector p else "")
      (if decide (level >= PathLevelArena) then arena p else "")
      (if decide (level >= PathLevelObject) then object p else "").

(** [Path.Level]; the world segment is not looked at. *)
Definition Level (p : Path) : PathLevel :=
  if decide (sector p = "") then PathLevelWorld
  else if decide (arena p = "") then PathLevelSector
  else if decide (object p = "") then PathLevelArena
  else PathLevelObject.

(** [Path.Matches]: empty segments of the mask match anything. *)
Definition Matches (p mask : Path) : bool :=
  if decide (world mask ≠ "" ∧ world p ≠ world mask) then false
  else if decide (sector mask ≠ "" ∧ sector p ≠ sector mask) then false
  else if decide (arena mask ≠ "" ∧ arena p ≠ arena mask) then false
  else if decide (object mask ≠ "" ∧ object p ≠ object mask) then false
  else true.

(** [Path.IsEmpty] and [Path.IsObject]. *)
Definition IsEmpty (p : Path) : bool :=
  bool_decide (world p = "" ∧ sector p = "" ∧ arena p = "" ∧ object p = "").

Definition IsObject (p : Path) : bool := bool_decide (object p ≠ "").

(** [strings.HasPrefix] and [strings.TrimPrefix]. *)
Definition HasPrefix (s prefix : string) : bool := String.prefix prefix s.

Fixpoint dropBytes (n : nat) (s : string) : string :=
  match n, s with
  | O, _ => s
  | S n', String _ rest => dropBytes n' rest
  | S _, EmptyString => EmptyString
  end.

Definition TrimPrefix (s prefix : string) : string :=
  if HasPrefix s prefix then dropBytes (String.length prefix) s else s.

(** The string made of the given bytes. *)
Definition ofBytes (bytes : list nat) : string :=
  foldr (fun n s => String (ascii_of_nat n) s) EmptyString bytes.

(** The white space of [unicode.IsSpace], each code point in UTF-8: the
    six of ASCII (tab, line feed, vertical tab, form feed, carriage return
    and space), U+0085, U+00A0, U+1680, U+2000 to U+200A, U+2028, U+2029,
    U+202F, U+205F and U+3000. *)
Definition whiteSpace : list string :=
  ofBytes <$>
    [[9]; [10]; [11]; [12]; [13]; [32];
     [194; 133]; [194; 160];
     [225; 154; 128];
     [226; 128; 128]; [226; 128; 129]; [226; 128; 130]; [226; 128; 131];
     [226; 128; 132]; [226; 128; 133]; [226; 128; 134]; [226; 128; 135];
     [226; 128; 136]; [226; 128; 137]; [226; 128; 138];
     [226; 128; 168]; [226; 128; 169]; [226; 128; 175];
     [226; 129; 159];
     [227; 128; 128]]%nat.

(** The bytes are the encoding of one white space code point. *)
Definition isSpace (s : string) : bool := bool_decide (s ∈ whiteSpace).

(** [strings.TrimSpace] strips the white space code points at both ends of
    the string. Its decoder reads a code point at the front exactly where
    the bytes start with its encoding, and one at the back exactly where
    they end with it; bytes that encode nothing are read as U+FFFD, which
    is no white space. No encoding of [whiteSpace] starts or ends with
    another one. *)
Fixpoint trimLeft (s : string) : string :=
  match s with
  | EmptyString => EmptyString
  | String c EmptyString =>
      if isSpace (String c EmptyString) then EmptyString else s
  | String c (String d rest2 as rest) =>
      if isSpace (String c EmptyString) then trimLeft rest
      else if isSpace (String c (String d EmptyString)) then trimLeft rest2
      else
        match rest2 with
        | EmptyString => s
        | String e rest3 =>
            if isSpace (String c (String d (String e EmptyString)))
            then trimLeft rest3
            else s
        end
  end.

Fixpoint trimRight (s : string) : string :=
  match s with
  | EmptyString => EmptyString
  | String c rest =>
      let kept := String c (trimRight rest) in
      if isSpace kept then EmptyString else kept
  end.

Definition TrimSpace (s : string) : string := trimRight (trimLeft s).

(** [Path.GetArg]: the loop runs over the states between the two range
    markers, which are waiting, persona and spawning location. *)
Definition GetArg (p : Path) : string :=
  let try_ (found : option string) (i : PathState) : option string :=
    match found with
    | Some _ => found
    | None =>
        let prefix := PathState_ToString i in
        if HasPrefix (world p) prefix
        then Some (TrimSpace (TrimPrefix (world p) prefix))
        else None
    end in
  default ""
    (foldl try_ None
       [PathStateWaiting; PathStatePersona; PathStateSpawningLocation]).

(** [Path.IsSpecial]. *)
Definition IsSpecial (p : Path) (s : PathState) : bool :=
  match s with
  | PathStatePersona => HasPrefix (world p) "<persona>"
  | PathStateRandom =>
      bool_decide (Level p = PathLevelObject ∧ object p = "<random>")
  | PathStateWaiting => HasPrefix (world p) "<waiting>"
  | _ => false
  end.

(* --------------------------------------------------------------------- *)
(** ** The associative store: further accessors *)

#[global] Instance SPO_countable : Countable SPO.
Proof.
  refine (inj_countable'
            (fun spo => (spoSubject spo, spoPredicate spo, spoObject spo))
            (fun t => mkSPO t.1.1 t.1.2 t.2) _).
  by intros [].
Defined.

(** [ConceptNode.SPOSummary]. *)
Definition SPOSummary (node : ConceptNode) : SPO :=
  mkSPO (Subject node) (Predicate node) (Object node).

(** [Associative.Nodes]: all nodes but the unused one at index 0. *)
Definition Nodes (store : Associative) : option (list ConceptNode) :=
  if decide (1 <= len (nodes store)) then Some (drop 1 (nodes store)) else None.

(** [GetLatestEventSPOs]: the triples of the [n] newest events, or of all
    events when there are fewer. A negative [n] makes the slice expression
    [store.events[:n]] panic. *)
Definition GetLatestEventSPOs (store : Associative) (n : Z)
  : option (gset SPO) :=
  let n := if decide (len (events store) < n) then len (events store) else n in
  if decide (0 <= n <= len (events store)) then
    foldl (fun acc nodeId =>
             events_ ← acc;
             c ← index (nodes store) nodeId;
             Some ({[SPOSummary c]} ∪ events_))
      (Some ∅) (take (Z.to_nat n) (events store))
  else None.

(** [GetLastChat]: the first id listed under the name in the chat keyword
    index; reading [chats[0]] of an empty list would panic. *)
Definition GetLastChat (store : Associative) (name : string)
  : option (NodeId * bool) :=
  match kwToChats store !! name with
  | Some chats_ => id ← index chats_ 0; Some (id, true)
  | None => Some (0, false)
  end.


#[global] Instance Path_countable : Countable Path.
Proof.
  refine (inj_countable'
            (fun p => (world p, sector p, arena p, object p))
            (fun t => mkPath t.1.1.1 t.1.1.2 t.1.2 t.2) _).
  by intros [].
Defined.
End memory.

(* ===================================================================== *)
(** * Package [maze]: the tile grid and the wavefront path finder *)
(* ===================================================================== *)

Module maze.

Record TilePos := mkTilePos { X : Z; Y : Z }.

#[global] Instance TilePos_eq_dec : EqDecision TilePos.
Proof. solve_decision. Defined.

(** [Tile], without its transient event set, which [Pathfind] never reads. *)
Record Tile := mkTile {
  Path : memory.Path;
  SpawningLocation : string;
  Collision : bool
}.

(** [Maze]: the two height x width arrays. [New] rejects arrays of other
    shapes; [Pathfind] reads nothing else of the maze. *)
Record Maze := mkMaze {
  width : Z;
  height : Z;
  collisionInfo : list (list bool);
  tiles : list (list Tile)
}.

(** What a call can do: return, panic, or loop for ever. *)
Inductive outcome (A : Type) :=
  | Returns (a : A)
  | Panics
  | Hangs.
Arguments Returns {A} a.
Arguments Panics {A}.
Arguments Hangs {A}.

Definition ofOption {A} (o : option A) (k : A -> outcome (list TilePos))
  : outcome (list TilePos) :=
  match o with
  | Some a => k a
  | None => Panics
  end.

(** [d[i][j]] and [d[i][j] = v] on a slice of slices. *)
Definition at2 {A} (d : list (list A)) (i j : Z) : option A :=
  row ← index d i; index row j.

Definition set2 {A} (d : list (list A)) (i j : Z) (v : A)
  : option (list (list A)) :=
  row ← index d i;
  row ← assign row j v;
  assign d i row.

(** One of the four neighbour tests of [makeStep]:
    [d[i][j] == 0 && !m.collisionInfo[i][j]], then [d[i][j] = k + 1]. *)
Definition visit (m : Maze) (k i j : Z) (d : list (list Z))
  : option (list (list Z)) :=
  v ← at2 d i j;
  if decide (v = 0) then
    c ← at2 (collisionInfo m) i j;
    if negb c then set2 d i j (k + 1) else Some d
  else Some d.

(** The body of the inner loop of [makeStep] at cell [(i, j)]. The distance
    grid is updated in place, so later cells of the same scan see the marks
    set by earlier ones. *)
Definition stepCell (m : Maze) (k i j : Z) (d : list (list Z))
  : option (list (list Z)) :=
  v ← at2 d i j;
  if decide (v ≠ k) then Some d
  else
    d ← (if decide (i > 0) then visit m k (i - 1) j d else Some d);
    d ← (if decide (j > 0) then visit m k i (j - 1) d else Some d);
    d ← (if decide (i < len d - 1) then visit m k (i + 1) j d else Some d);
    row ← index d i;
    if decide (j < len row - 1) then visit m k i (j + 1) d else Some d.

(** [for x := 0; x < n; x += 1 { body }] over a state that can panic. *)
Fixpoint forUpTo {S} (n : nat) (body : Z -> S -> option S) (s : S) : option S :=
  match n with
  | O => Some s
  | S n' => s ← forUpTo n' body s; body (Z.of_nat n') s
  end.

(** [makeStep(d, k)]. *)
Definition makeStep (m : Maze) (d : list (list Z)) (k : Z)
  : option (list (list Z)) :=
  forUpTo (length d)
    (fun i d =>
       row ← index d i;
       forUpTo (length row) (fun j d => stepCell m k i j d) d)
    d.

(** The wavefront loop
    [for distMaze[end.Y][end.X] == 0 && loopMax > 0 { ... }];
    it yields the grid and [k] when the loop is left. *)
Fixpoint wavefront (m : Maze) (end_ : TilePos) (loopMax : nat)
    (distMaze : list (list Z)) (k : Z) : option (list (list Z) * Z) :=
  v ← at2 distMaze (Y end_) (X end_);
  if decide (v = 0) then
    match loopMax with
    | O => Some (distMaze, k)
    | S loopMax' =>
        let k := k + 1 in
        distMaze ← makeStep m distMaze k;
        wavefront m end_ loopMax' distMaze k
    end
  else Some (distMaze, k).

(** The loop [for k > 1 { ... }] that walks back from the end tile. Every
    turn that takes a branch lowers [k] by one, so [fuel = k] turns are
    enough; a turn that takes no branch leaves the state as it was, and the
    loop then never ends. *)
Fixpoint walkBack (fuel : nat) (distMaze : list (list Z)) (i j k : Z)
    (path : list TilePos) : outcome (list TilePos) :=
  if decide (k > 1) then
    match fuel with
    | O => Hangs
    | S fuel' =>
        let north : option bool :=
          if decide (i > 0) then
            v ← at2 distMaze (i - 1) j; Some (bool_decide (v = k - 1))
          else Some false in
        ofOption north (fun north =>
        if north then
          walkBack fuel' distMaze (i - 1) j (k - 1) (path ++ [mkTilePos j (i - 1)])
        else
        let west : option bool :=
          if decide (j > 0) then
            v ← at2 distMaze i (j - 1); Some (bool_decide (v = k - 1))
          else Some false in
        ofOption west (fun west =>
        if west then
          walkBack fuel' distMaze i (j - 1) (k - 1) (path ++ [mkTilePos (j - 1) i])
        else
        let south : option bool :=
          if decide (i < len distMaze - 1) then
            v ← at2 distMaze (i + 1) j; Some (bool_decide (v = k - 1))
          else Some false in
        ofOption south (fun south =>
        if south then
          walkBack fuel' distMaze (i + 1) j (k - 1) (path ++ [mkTilePos j (i + 1)])
        else
        let east : option bool :=
          row ← index distMaze i;
          if decide (j < len row - 1) then
            v ← at2 distMaze i (j + 1); Some (bool_decide (v = k - 1))
          else Some false in
        ofOption east (fun east =>
        if east then
          walkBack fuel' distMaze i (j + 1) (k - 1) (path ++ [mkTilePos (j + 1) i])
        else Hangs))))
    end
  else Returns path.

(** The zeroed distance grid, shaped like [m.tiles]. *)
Definition newDistMaze (m : Maze) : list (list Z) :=
  map (fun row : list Tile => replicate (length row) 0) (tiles m).

(** [Maze.Pathfind]. *)
Definition Pathfind (m : Maze) (start end_ : TilePos) : outcome (list TilePos) :=
  let distMaze := newDistMaze m in
  ofOption (set2 distMaze (Y start) (X start) 1) (fun distMaze =>
  let k := 0 in
  let loopMax := 150%nat in
  ofOption (wavefront m end_ loopMax distMaze k) (fun '(distMaze, _) =>
  let i := Y end_ in
  let j := X end_ in
  ofOption (at2 distMaze i j) (fun k =>
  let path := [end_] in
  match walkBack (Z.to_nat k) distMaze i j k path with
  | Returns path => Returns (reverse path)
  | Panics => Panics
  | Hangs => Hangs
  end))).

(** The distance grid when the wavefront loop is left. *)
Definition finalDistMaze (m : Maze) (start end_ : TilePos)
  : option (list (list Z)) :=
  distMaze ← set2 (newDistMaze m) (Y start) (X start) 1;
  r ← wavefront m end_ 150 distMaze 0;
  Some r.1.

(** The maze [New] builds from a collision array, with blank tiles. *)
Definition ofCollision (collision : list (list bool)) : Maze :=
  mkMaze (len (default [] (head collision))) (len collision) collision
    (map (map (fun c => mkTile (memory.mkPath "" "" "" "") "" c)) collision).


(* --------------------------------------------------------------------- *)
(** ** The maze: construction, tiles and vision *)

(** Arithmetic on [int] wraps around. *)
Definition wrapInt (z : Z) : Z := (z + 2 ^ 63) mod 2 ^ 64 - 2 ^ 63.

(** The addresses under which [New] files a tile: its path cut at the
    sector, the arena and the object level, as far as the path reaches. *)
Definition addressesOf (tilePath : memory.Path) : list memory.Path :=
  let level := memory.Level tilePath in
  ((if decide (level >= memory.PathLevelSector)
    then [memory.AtLevel tilePath memory.PathLevelSector] else [])
   ++ (if decide (level >= memory.PathLevelArena)
       then [memory.AtLevel tilePath memory.PathLevelArena] else [])
   ++ (if decide (level >= memory.PathLevelObject)
       then [memory.AtLevel tilePath memory.PathLevelObject] else []))%list.

(** The loop [for _, a := range addresses] for the tile at row [i] and
    column [j]. *)
Definition fileTile (i j : nat) (tile : Tile)
    (addressTiles : gmap memory.Path (list TilePos))
  : gmap memory.Path (list TilePos) :=
  foldl (fun addressTiles a =>
           <[a := (default [] (addressTiles !! a)
                   ++ [mkTilePos (Z.of_nat j) (Z.of_nat i)])%list]>
             addressTiles)
    addressTiles (addressesOf (Path tile)).

(** The two nested loops of [New] over the tiles. *)
Definition fileRow (i : nat) (row : list Tile)
    (addressTiles : gmap memory.Path (list TilePos))
  : gmap memory.Path (list TilePos) :=
  foldl (fun addressTiles '(j, tile) => fileTile i j tile addressTiles)
    addressTiles (imap (fun j tile => (j, tile)) row).

Definition fileTiles (tiles : list (list Tile))
  : gmap memory.Path (list TilePos) :=
  foldl (fun addressTiles '(i, row) => fileRow i row addressTiles)
    ∅ (imap (fun i row => (i, row)) tiles).

(** [New]: the maze and its [addressTiles] map, which is kept beside the
    maze here; arrays of the wrong shape panic. *)
Definition New (width height : Z) (collisionInfo : list (list bool))
    (tiles : list (list Tile))
  : option (Maze * gmap memory.Path (list TilePos)) :=
  if decide (len tiles ≠ height) then None
  else if decide (Exists (fun row => len row ≠ width) tiles) then None
  else if decide (len collisionInfo ≠ height) then None
  else if decide (Exists (fun row => len row ≠ width) collisionInfo) then None
  else Some (mkMaze width height collisionInfo tiles, fileTiles tiles).

(** [Maze.PathToTiles] and [Maze.Exists]. *)
Definition PathToTiles (addressTiles : gmap memory.Path (list TilePos))
    (plan : memory.Path) : list TilePos * bool :=
  match addressTiles !! plan with
  | Some t => (t, true)
  | None => ([], false)
  end.

Definition Exists_ (addressTiles : gmap memory.Path (list TilePos))
    (p : memory.Path) : bool :=
  (PathToTiles addressTiles p).2.

(** [Maze.GetTile]. *)
Definition GetTile (m : Maze) (pos : TilePos) : option Tile :=
  at2 (tiles m) (Y pos) (X pos).

(** [for x := from; x < to; x++]: the values of [x]. *)
Definition upTo (from to : Z) : list Z := seqZ from (to - from).

(** The runtime's [maxAlloc], the largest size of one allocation in
    bytes, on the 64-bit platforms the server runs on (Linux, macOS and
    Windows on amd64 and arm64). *)
Definition maxAlloc : Z := 2 ^ 48.

(** [make([]TilePos, 0, n)]: the runtime panics with "cap out of range"
    when [n] is negative or [n] elements of 16 bytes, the two [int]s of a
    [TilePos], take more than [maxAlloc]. Whether the machine has the
    memory it is asked for is not modelled. *)
Definition makeTilePos (n : Z) : option (list TilePos) :=
  if decide (n < 0 ∨ maxAlloc < 16 * n) then None else Some [].

(** [Maze.GetNearbyTiles]. The loops append to the slice [make] returned. *)
Definition GetNearbyTiles (m : Maze) (tile : TilePos) (visionRadius : Z)
  : option (list TilePos) :=
  let left := 0 in
  let right := width m in
  let top := 0 in
  let bottom := height m in
  let left :=
    if decide (wrapInt (X tile - visionRadius) > left)
    then wrapInt (X tile - visionRadius) else left in
  let right :=
    if decide (wrapInt (wrapInt (X tile + visionRadius) + 1) < right)
    then wrapInt (wrapInt (X tile + visionRadius) + 1) else right in
  let top :=
    if decide (wrapInt (Y tile - visionRadius) > top)
    then wrapInt (Y tile - visionRadius) else top in
  let bottom :=
    if decide (wrapInt (wrapInt (Y tile + visionRadius) + 1) < bottom)
    then wrapInt (wrapInt (Y tile + visionRadius) + 1) else bottom in
  let visionDiameter := wrapInt (wrapInt (2 * visionRadius) + 1) in
  nearby ← makeTilePos (wrapInt (visionDiameter * visionDiameter));
  Some (nearby
        ++ flat_map (fun x => map (fun y => mkTilePos x y) (upTo top bottom))
             (upTo left right))%list.
End maze.

(* ===================================================================== *)
(** * Package [llm]: what the cognition capability exchanges *)
(* ===================================================================== *)

Module llm.

Record Plan := mkPlan {
  Activity : string;
  Duration : Z
}.

End llm.

(* ===================================================================== *)
(** * Package [agent]: persona state, retrieval and reaction planning *)
(* ===================================================================== *)

Module agent.
Import memory llm.

(* --------------------------------------------------------------------- *)
(** ** Time *)

(** [time.Duration] is an [int64] count of nanoseconds; its arithmetic, like
    that of [int], wraps around. *)
Definition wrap64 (z : Z) : Z := (z + 2 ^ 63) mod 2 ^ 64 - 2 ^ 63.

Definition Second : Z := 1000000000.
Definition Minute : Z := 60 * Second.
Definition Hour : Z := 60 * Minute.
Definition Day : Z := 24 * Hour.

(** [time.Duration(n) * time.Minute]. *)
Definition minutes (n : Z) : Z := wrap64 (n * Minute).

(** [int(d.Minutes())]: whole minutes, rounded towards zero. *)
Definition wholeMinutes (d : Z) : Z := Z.quot d Minute.

(** [t.Sub(u)] saturates at the ends of [int64]. *)
Definition Sub (t u : Time) : Z := Z.max (- 2 ^ 63) (Z.min (2 ^ 63 - 1) (t - u)).

(** The wall clock of a [Time], read in UTC. *)
Definition clockHour (t : Time) : Z := (t / Hour) mod 24.
Definition clockMinute (t : Time) : Z := (t / Minute) mod 60.
Definition clockSecond (t : Time) : Z := (t / Second) mod 60.
Definition clockNanosecond (t : Time) : Z := t mod Second.

(** [time.Time{}], the first instant of year 1. *)
Definition zeroTime : Time := -62135596800 * Second.

(* --------------------------------------------------------------------- *)
(** ** Persona state *)

(** [State], with the fields that retrieval and reaction planning read or
    write. *)
Record State := mkState {
  CurrentTime : Time;
  RecencyDecay : Qc;
  DailySchedule : list Plan;
  OriginalDailySchedule : list Plan;
  ActivitySPO : SPO;
  ActivityDescription : string;
  ActivityPronunciato : string;
  ActivityAddress : Path;
  ActivityStartTime : Time;
  ActivityDuration : Z;
  ActivityPathSet : bool;
  ActivityObjectDescription : string;
  ActivityObjectPronunciato : string;
  ActivityObjectSPO : SPO;
  Chat : list Utterance;
  ChatEndTime : Time;
  ChattingWith : string;
  ChattingWithBuffer : gmap string Z;
  RecencyWeight : Qc;
  ImportanceWeight : Qc;
  RelevanceWeight : Qc;
  ValenceWeight : Qc
}.

(** [Persona]; the embedder capability is a function from text to vector. *)
Record Persona := mkPersona {
  name : string;
  state : State;
  associativeMemory : Associative;
  embedder : string -> list Qc
}.

Definition withMemory (p : Persona) (store : Associative) : Persona :=
  mkPersona (name p) (state p) store (embedder p).

Definition withState (p : Persona) (s : State) : Persona :=
  mkPersona (name p) s (associativeMemory p) (embedder p).

Definition withDailySchedule (s : State) (schedule : list Plan) : State :=
  mkState (CurrentTime s) (RecencyDecay s) schedule (OriginalDailySchedule s)
    (ActivitySPO s) (ActivityDescription s) (ActivityPronunciato s)
    (ActivityAddress s) (ActivityStartTime s) (ActivityDuration s)
    (ActivityPathSet s) (ActivityObjectDescription s)
    (ActivityObjectPronunciato s) (ActivityObjectSPO s) (Chat s)
    (ChatEndTime s) (ChattingWith s) (ChattingWithBuffer s)
    (RecencyWeight s) (ImportanceWeight s) (RelevanceWeight s)
    (ValenceWeight s).

(** [State.SetActivity], without its log line. *)
Definition SetActivity (s : State) (activityAddress : Path) (duration : Z)
    (activityDescription activityPronunciato : string) (activitySPO : SPO)
    (activityObjectDescription activityObjectPronunciato : string)
    (activityObjectSPO : SPO) : State :=
  mkState (CurrentTime s) (RecencyDecay s) (DailySchedule s)
    (OriginalDailySchedule s)
    activitySPO activityDescription activityPronunciato
    activityAddress (CurrentTime s) duration
    false activityObjectDescription
    activityObjectPronunciato activityObjectSPO []
    zeroTime "" (ChattingWithBuffer s)
    (RecencyWeight s) (ImportanceWeight s) (RelevanceWeight s)
    (ValenceWeight s).

(** [State.SetChatActivity], without its log line. The
    entries of [chattingWithBuffer] overwrite those of the state. *)
Definition SetChatActivity (s : State) (activityAddress : Path) (duration : Z)
    (activityDescription activityPronunciato : string) (activitySPO : SPO)
    (chattingWith : string) (chat : list Utterance)
    (chattingWithBuffer : gmap string Z) (chatEndTime : Time) : State :=
  mkState (CurrentTime s) (RecencyDecay s) (DailySchedule s)
    (OriginalDailySchedule s)
    activitySPO activityDescription activityPronunciato
    activityAddress (CurrentTime s) duration
    false ""
    "" (mkSPO "" "" "") chat
    chatEndTime chattingWith (chattingWithBuffer ∪ ChattingWithBuffer s)
    (RecencyWeight s) (ImportanceWeight s) (RelevanceWeight s)
    (ValenceWeight s).

(** [Persona.StartOfDay]: midnight of the current
    day. *)
Definition StartOfDay (p : Persona) : Time :=
  CurrentTime (state p) - CurrentTime (state p) mod Day.

(** The loop shared by [GetDailyPlanIndexInMinutes] and
    [GetOriginalDailyPlanIndexInMinutes]. *)
Fixpoint planIndexFrom (schedule : list Plan) (timeElapsedToday elapsed : Z)
    (currIndex : Z) : Z :=
  match schedule with
  | [] => currIndex
  | plan :: rest =>
      let elapsed := wrap64 (elapsed + minutes (Duration plan)) in
      if decide (timeElapsedToday < elapsed) then currIndex
      else planIndexFrom rest timeElapsedToday elapsed (currIndex + 1)
  end.

Definition timeElapsedToday (s : State) (advance : Z) : Z :=
  wrap64 (clockHour (CurrentTime s) * Hour
          + clockMinute (CurrentTime s) * Minute
          + clockSecond (CurrentTime s) * Second
          + clockNanosecond (CurrentTime s)
          + advance * Minute).

Definition GetDailyPlanIndexInMinutes (s : State) (advance : Z) : Z :=
  planIndexFrom (DailySchedule s) (timeElapsedToday s advance) 0 0.
Definition GetDailyPlanIndex (s : State) : Z := GetDailyPlanIndexInMinutes s 0.

Definition GetOriginalDailyPlanIndexInMinutes (s : State) (advance : Z) : Z :=
  planIndexFrom (OriginalDailySchedule s) (timeElapsedToday s advance) 0 0.
Definition GetOriginalDailyPlanIndex (s : State) : Z :=
  GetOriginalDailyPlanIndexInMinutes s 0.

(* --------------------------------------------------------------------- *)
(** ** Retrieval for focal points

    Scores are [float64] in the source and exact rationals here, so rounding,
    infinities and NaN are left out. [math.Sqrt] is not a rational function:
    it is a parameter of the section. *)

Local Open Scope Qc_scope.

(** [strings.Contains]. *)
Fixpoint Contains (s substr : string) : bool :=
  String.prefix substr s
  || match s with
     | EmptyString => false
     | String _ rest => Contains rest substr
     end.

(** [Persona.GetEmbedding]: the cached
    vector, or a fresh one from the embedder, which is then cached. *)
Definition personaGetEmbedding (p : Persona) (str : string)
  : Persona * list Qc :=
  match GetEmbedding (associativeMemory p) str with
  | Some embedding => (p, embedding)
  | None =>
      let embedding := embedder p str in
      let store := associativeMemory p in
      (withMemory p
         (mkAssociative (nodes store) (events store) (thoughts store)
            (chats store) (kwToEvents store) (kwToThoughts store)
            (kwToChats store) (kwStrengthEvents store)
            (kwStrengthThoughts store)
            (<[str := embedding]> (embeddings store))),
       embedding)
  end.

(** [normalizeMap] on a map of numbers: no value at all leaves [min] and
    [max] NaN, the panic. The tests of the source for values that are NaN
    are in [float64.normalizeMap] below. *)
Definition minMax (values : list Qc) : option (Qc * Qc) :=
  foldl (fun acc v =>
           match acc with
           | None => Some (v, v)
           | Some (min, max) =>
               Some (if decide (v < min) then v else min,
                     if decide (max < v) then v else max)
           end) None values.

Definition normalizeMap (m : gmap NodeId Qc) (targetMin targetMax : Qc)
  : option (gmap NodeId Qc) :=
  '(min, max) ← minMax (map_to_list m).*2;
  if decide (max = min) then
    Some ((fun _ => (targetMax - targetMin) / 2) <$> m)
  else
    let dist := max - min in
    Some ((fun val => ((val - min) * (targetMax - targetMin)) / dist + targetMin)
            <$> m).

(** The order of [cmp.Compare] on the values of key-value pairs. *)
Definition byValue : relation (NodeId * Qc) := fun a b => a.2 <= b.2.

#[global] Instance byValue_dec : RelDecision byValue.
Proof. intros a b. unfold byValue. apply _. Defined.

(** [highestNValues]. The pairs are sorted ascending by value and the first
    [n] of them are kept. [slices.SortFunc] is modelled by a stable merge
    sort on the pairs in the map's listing order; Go fixes neither the
    listing order nor the order of equal values. A negative [n] makes the
    slice expression [values[:n]] panic. *)
Definition highestNValues (m : gmap NodeId Qc) (n : Z)
  : option (gmap NodeId Qc) :=
  let values := merge_sort byValue (map_to_list m) in
  let n := if decide (n > len values)%Z then len values else n in
  if decide (n < 0)%Z then None
  else Some (list_to_map (take (Z.to_nat n) values)).

(** [clampAndFlip]. *)
Definition clampAndFlip (m : gmap NodeId Qc) (clamp : Qc) : gmap NodeId Qc :=
  (fun v => if decide (v < 0) then - v
            else if decide (clamp < v) then clamp else v) <$> m.

(** [extractRecency]: position [i] of [nodes] gets [decay ^ (i + 1)]; the
    loop is started at index [i]. *)
Fixpoint extractRecencyFrom (decay : Qc) (i : nat) (nodes : list NodeId)
    (out : gmap NodeId Qc) : gmap NodeId Qc :=
  match nodes with
  | [] => out
  | node :: rest =>
      extractRecencyFrom decay (S i) rest (<[node := decay ^ (i + 1)]> out)
  end.

Definition extractRecency (p : Persona) (nodes : list NodeId)
  : gmap NodeId Qc :=
  extractRecencyFrom (RecencyDecay (state p)) 0 nodes ∅.

(** [extractImportance] and [extractValence]. *)
Fixpoint extractField (field : ConceptNode -> Z) (store : Associative)
    (nodes : list NodeId) (out : gmap NodeId Qc) : option (gmap NodeId Qc) :=
  match nodes with
  | [] => Some out
  | node :: rest =>
      c ← GetNode store node;
      extractField field store rest (<[node := Qc_of_Z (field c)]> out)
  end.

Definition extractImportance (p : Persona) (nodes : list NodeId)
  : option (gmap NodeId Qc) :=
  extractField Importance (associativeMemory p) nodes ∅.

Definition extractValence (p : Persona) (nodes : list NodeId)
  : option (gmap NodeId Qc) :=
  extractField Valence (associativeMemory p) nodes ∅.

Record retrievalConfig := mkRetrievalConfig { count : Z }.

(** [retrievalOpt]: a function that updates a [retrievalConfig] through a
    pointer. *)
Definition retrievalOpt := retrievalConfig -> retrievalConfig.

Definition withRetrievalCount (n : Z) : retrievalOpt :=
  fun rc => mkRetrievalConfig n.

(** [slices.DeleteFunc] with the test "the embedding key contains idle". *)
Fixpoint deleteIdle (store : Associative) (nodes : list NodeId)
  : option (list NodeId) :=
  match nodes with
  | [] => Some []
  | n :: rest =>
      c ← GetNode store n;
      rest ← deleteIdle store rest;
      Some (if Contains (EmbeddingKey c) "idle" then rest else n :: rest)
  end.

(** The comparison handed to [slices.SortFunc]: ascending [LastAccessed].
    It is only called on ids that [deleteIdle] has looked up. *)
Definition byLastAccessed (store : Associative) : relation NodeId :=
  fun a b =>
    (LastAccessed (default zeroNode (GetNode store a))
     <= LastAccessed (default zeroNode (GetNode store b)))%Z.

#[global] Instance byLastAccessed_dec store : RelDecision (byLastAccessed store).
Proof. intros a b. unfold byLastAccessed. apply _. Defined.

(** The candidate list of one focal point: event ids, then thought ids,
    without the idle ones, sorted ascending by [LastAccessed]. The sort is
    modelled by a stable merge sort; Go does not fix the order of nodes
    with equal [LastAccessed]. *)
Definition candidateNodes (p : Persona) : option (list NodeId) :=
  let store := associativeMemory p in
  let nodes := (GetLatestEventIds store ++ GetLatestThoughtIds store)%list in
  nodes ← deleteIdle store nodes;
  Some (merge_sort (byLastAccessed store) nodes).

(** The loop at the end of one turn: every kept node is touched and
    collected. *)
Fixpoint touchAll (store : Associative) (now : Time) (kept : list NodeId)
    (outNodes : list NodeId) : option (Associative * list NodeId) :=
  match kept with
  | [] => Some (store, outNodes)
  | k :: rest =>
      store ←
        UpdateNode store k
          (fun c =>
             mkConceptNode (Id c) (NodeCount c) (TypeCount c) (Type_ c)
               (Depth c) (Created c) now (Expiration c) (Subject c)
               (Predicate c) (Object c) (Description c) (EmbeddingKey c)
               (Importance c) (Valence c) (Keywords c) (Evidence c)
               (memory.Chat c));
      touchAll store now rest (outNodes ++ [k])%list
  end.

(** Reading a score map: a missing key reads as 0. *)
Definition scoreAt (m : gmap NodeId Qc) (key : NodeId) : Qc :=
  default 0 (m !! key).

Section Retrieval.

(** [math.Sqrt]. *)
Variable sqrt : Qc -> Qc.

(** [cosineSimilarity]. *)
Definition cosineSimilarity (a b : list Qc) : option Qc :=
  if decide (length a ≠ length b) then None
  else if decide (length a = 0%nat) then None
  else
    let '(dot, na, nb) :=
      foldl (fun '(dot, na, nb) '(ai, bi) =>
               (dot + ai * bi, na + ai * ai, nb + bi * bi))
        (0, 0, 0) (zip a b) in
    if decide (na = 0 ∨ nb = 0) then None
    else Some (dot / (sqrt na * sqrt nb)).

(** [extractRelevance]. *)
Fixpoint relevanceOf (store : Associative) (focalEmbedding : list Qc)
    (nodes : list NodeId) (out : gmap NodeId Qc) : option (gmap NodeId Qc) :=
  match nodes with
  | [] => Some out
  | node :: rest =>
      nodeEmbedding ← GetEmbeddingByNodeId store node;
      similarity ← cosineSimilarity nodeEmbedding focalEmbedding;
      relevanceOf store focalEmbedding rest (<[node := similarity]> out)
  end.

Definition extractRelevance (p : Persona) (nodes : list NodeId)
    (focalPoint : string) : option (Persona * gmap NodeId Qc) :=
  let '(p, focalEmbedding) := personaGetEmbedding p focalPoint in
  out ← relevanceOf (associativeMemory p) focalEmbedding nodes ∅;
  Some (p, out).

(** The final scores of one focal point, before the cut. *)
Definition finalScores (p : Persona) (focalPoint : string)
  : option (Persona * gmap NodeId Qc) :=
  nodes ← candidateNodes p;
  recencyScores ← normalizeMap (extractRecency p nodes) 0 1;
  importanceScores ← extractImportance p nodes;
  importanceScores ← normalizeMap importanceScores 0 1;
  '(p, relevanceScores) ← extractRelevance p nodes focalPoint;
  relevanceScores ← normalizeMap relevanceScores 0 1;
  valenceScores ← extractValence p nodes;
  valenceScores ← normalizeMap (clampAndFlip valenceScores 0) 0 1;
  Some (p,
        map_imap (M := gmap NodeId)
          (fun key recency =>
             Some (recency * 1 * RecencyWeight (state p)
                   + scoreAt importanceScores key * 1 * ImportanceWeight (state p)
                   + scoreAt relevanceScores key * 1 * RelevanceWeight (state p)
                   + scoreAt valenceScores key * 1 * ValenceWeight (state p)))
          recencyScores).

(** One turn of the loop of [retrieveForFocalPoints]. *)
Definition retrieveForFocalPoint (config : retrievalConfig) (p : Persona)
    (focalPoint : string) : option (Persona * list NodeId) :=
  '(p, out) ← finalScores p focalPoint;
  out ← highestNValues out (count config);
  '(store, outNodes) ←
    touchAll (associativeMemory p) (CurrentTime (state p))
      (map_to_list out).*1 [];
  Some (withMemory p store, outNodes).

Fixpoint retrieveLoop (config : retrievalConfig) (p : Persona)
    (focalPoints : list string) (retrieved : gmap string (list NodeId))
  : option (Persona * gmap string (list NodeId)) :=
  match focalPoints with
  | [] => Some (p, retrieved)
  | focalPoint :: rest =>
      '(p, outNodes) ← retrieveForFocalPoint config p focalPoint;
      retrieveLoop config p rest (<[focalPoint := outNodes]> retrieved)
  end.

(** [retrieveForFocalPoints]. The options are accepted and, as in the
    source, not applied to [config]. *)
Definition retrieveForFocalPoints (p : Persona) (focalPoints : list string)
    (retrievalOpts : list retrievalOpt)
  : option (Persona * gmap string (list NodeId)) :=
  let config := mkRetrievalConfig 30 in
  retrieveLoop config p focalPoints ∅.

End Retrieval.

Local Close Scope Qc_scope.

(* --------------------------------------------------------------------- *)
(** ** Reaction planning: splicing the daily schedule *)

(** The sum of the durations of a schedule, in minutes. *)
Definition totalDuration (schedule : list Plan) : Z :=
  foldr (fun plan sum => Duration plan + sum) 0 schedule.

(** The loop [minSum += p.state.OriginalDailySchedule[i].Duration] for
    [i] below the original plan index; the index never exceeds the length
    of the schedule, so no read is out of range. *)
Definition minSumBefore (s : State) : Z :=
  foldl (fun minSum plan => wrap64 (minSum + Duration plan)) 0
    (take (Z.to_nat (GetOriginalDailyPlanIndex s)) (OriginalDailySchedule s)).

(** The window [startTime, endTime] of [createReact]: it starts with the
    current entry of the original schedule and covers that entry when it is
    at least two hours long, else that entry and the next, else two hours.
    Past the last entry of the original schedule the read panics. *)
Definition reactWindow (p : Persona) : option (Time * Time) :=
  let s := state p in
  let startTime := StartOfDay p + minutes (minSumBefore s) in
  d ← Duration <$> index (OriginalDailySchedule s) (GetOriginalDailyPlanIndex s);
  if decide (d >= 120) then Some (startTime, startTime + minutes d)
  else if decide (len (OriginalDailySchedule s) > GetOriginalDailyPlanIndex s + 1)
  then
    d1 ← Duration <$> index (OriginalDailySchedule s) (GetOriginalDailyPlanIndex s);
    d2 ← Duration <$> index (OriginalDailySchedule s)
                        (GetOriginalDailyPlanIndex s + 1);
    Some (startTime, startTime + minutes (wrap64 (d1 + d2)))
  else Some (startTime, startTime + wrap64 (2 * Hour)).

(** The loop over the live schedule that looks for the first entries that
    start at or after [startTime] and [endTime]; [-1] is "not found". *)
Fixpoint findIndices (schedule : list Plan) (startTime endTime : Time)
    (i : Z) (durSum : Time) (startIndex endIndex : Z) : Z * Z :=
  match schedule with
  | [] => (startIndex, endIndex)
  | plan :: rest =>
      let startIndex :=
        if decide (¬ durSum < startTime ∧ startIndex = -1) then i
        else startIndex in
      let endIndex :=
        if decide (¬ durSum < endTime ∧ endIndex = -1) then i
        else endIndex in
      findIndices rest startTime endTime (i + 1)
        (durSum + minutes (Duration plan)) startIndex endIndex
  end.

(** The end of [determineActivity]'s scheduling part: a schedule shorter
    than the day is padded with a trailing "sleeping" entry, a longer one
    panics. *)
Definition scheduledDuration (schedule : list Plan) : Z :=
  foldl (fun sum plan => wrap64 (sum + minutes (Duration plan))) 0 schedule.

Definition padToDay (schedule : list Plan) : option (list Plan) :=
  let dayDuration := Day in
  if decide (scheduledDuration schedule < dayDuration) then
    Some (schedule
          ++ [mkPlan "sleeping"
                (wrap64 (wholeMinutes dayDuration
                         - wholeMinutes (scheduledDuration schedule)))])%list
  else if decide (scheduledDuration schedule > dayDuration) then None
  else Some schedule.

(** The slice expressions [s[:i]] and [s[i:]]: out of range panics. *)
Definition sliceTo {A} (l : list A) (i : Z) : option (list A) :=
  if decide (0 <= i <= len l) then Some (take (Z.to_nat i) l) else None.

Definition sliceFrom {A} (l : list A) (i : Z) : option (list A) :=
  if decide (0 <= i <= len l) then Some (drop (Z.to_nat i) l) else None.

Section Reaction.

(** [Cognition.GenerateReactionScheduleUpdate]. *)
Variable GenerateReactionScheduleUpdate :
  Persona -> Plan -> Time -> Time -> list Plan.

(** [createReact]. [actStartTime] is not used by the source either. *)
Definition createReact (p : Persona) (summary : string) (duration : Z)
    (address : Path) (spo : SPO) (actStartTime : Time) (pronunciato : string)
    (chattingWith : string) (chat : list Utterance)
    (chattingWithBuffer : gmap string Z) (chatEndTime : Time)
  : option Persona :=
  '(startTime, endTime) ← reactWindow p;
  let '(startIndex, endIndex) :=
    findIndices (DailySchedule (state p)) startTime endTime 0 (StartOfDay p)
      (-1) (-1) in
  let newPlans :=
    GenerateReactionScheduleUpdate p (mkPlan summary duration) startTime endTime in
  before ← sliceTo (DailySchedule (state p)) startIndex;
  after ← sliceFrom (DailySchedule (state p)) endIndex;
  let s := withDailySchedule (state p) ((before ++ newPlans) ++ after)%list in
  let dur := minutes duration in
  if decide (chattingWith ≠ "") then
    Some (withState p
            (SetChatActivity s address dur summary pronunciato spo chattingWith
               chat chattingWithBuffer chatEndTime))
  else
    Some (withState p
            (SetActivity s address dur summary pronunciato spo "" ""
               (mkSPO "" "" ""))).

End Reaction.


(* --------------------------------------------------------------------- *)
(** ** The current activity and the daily schedule *)

(** [State.IsActivityFinished]. *)
Definition IsActivityFinished (s : State) : bool :=
  if IsEmpty (ActivityAddress s) then true
  else
    let endTime :=
      if decide (ChattingWith s ≠ "") then ChatEndTime s
      else ActivityStartTime s + ActivityDuration s in
    bool_decide (¬ CurrentTime s < endTime).

(** [Persona.WakeUpTime]: the end of the current entry of the daily
    schedule when that entry is a "sleeping" one, the zero time otherwise.
    Reading the current entry panics when the schedule does not reach the
    current time. *)
Definition WakeUpTime (p : Persona) : option Time :=
  let idx := GetDailyPlanIndex (state p) in
  plan ← index (DailySchedule (state p)) idx;
  if negb (Contains (Activity plan) "sleeping") then Some zeroTime
  else
    let minutesUntilWakeUp :=
      foldl (fun sum plan => wrap64 (sum + Duration plan)) 0
        (take (Z.to_nat (idx + 1)) (DailySchedule (state p))) in
    Some (StartOfDay p + minutes minutesUntilWakeUp).

(** The closure [shouldDecomposeActivity] of [determineActivity]. Its
    first test asks whether "bed" contains the description. *)
Definition shouldDecomposeActivity (desc : string) (dur : Z) : bool :=
  if negb (Contains desc "sleep") && negb (Contains "bed" desc) then true
  else if Contains desc "sleeping" || Contains desc "asleep"
          || Contains desc "in bed" then false
  else if Contains desc "sleep" || Contains desc "bed" then
    if decide (dur > 60) then false else true
  else true.

Section Planning.

(** [Cognition.GeneratePlanDecomposition]. *)
Variable GeneratePlanDecomposition : Persona -> Plan -> list Plan.

(** One of the three decomposition steps of [determineActivity]: the
    entry at index [i] is read and, when it lasts an hour or more and
    should be decomposed, replaced by its decomposition. *)
Definition decomposeAt (p : Persona) (i : Z) : option Persona :=
  plan ← index (DailySchedule (state p)) i;
  if bool_decide (Duration plan >= 60)
     && shouldDecomposeActivity (Activity plan) (Duration plan) then
    let decomposedPlan := GeneratePlanDecomposition p plan in
    before ← sliceTo (DailySchedule (state p)) i;
    after ← sliceFrom (DailySchedule (state p)) (i + 1);
    Some (withState p
            (withDailySchedule (state p)
               ((before ++ decomposedPlan) ++ after)%list))
  else Some p.

(** The part of [determineActivity] that settles the daily schedule and
    picks the current plan: the decomposition steps, the padding of the
    day, and the read of the entry at the index computed at the start. *)
Definition determineSchedule (p : Persona) : option (Persona * Plan) :=
  let currIndex := GetDailyPlanIndex (state p) in
  let currIndexInHour := GetDailyPlanIndexInMinutes (state p) 60 in
  p ← (if decide (currIndex = 0) then
         p ← decomposeAt p currIndex;
         if decide (currIndexInHour + 1 < len (DailySchedule (state p)))
         then decomposeAt p (currIndexInHour + 1)
         else Some p
       else Some p);
  p ← (if decide (currIndexInHour < len (DailySchedule (state p))) then
         if decide (clockHour (CurrentTime (state p)) < 23)
         then decomposeAt p currIndexInHour
         else Some p
       else Some p);
  schedule ← padToDay (DailySchedule (state p));
  let p := withState p (withDailySchedule (state p) schedule) in
  currPlan ← index (DailySchedule (state p)) currIndex;
  Some (p, currPlan).

End Planning.

(* --------------------------------------------------------------------- *)
(** ** Scores that may be NaN

    [normalizeMap] as the source has it, with its tests for NaN. A score is
    NaN or a number; numbers are exact rationals, so rounding and the
    infinities are left out. On maps of numbers this is [normalizeMap]
    above, the function the retrieval uses. *)

Module float64.
Local Open Scope Qc_scope.

Inductive V :=
  | NaN
  | Num (q : Qc).

(** [math.IsNaN]. *)
Definition IsNaN (v : V) : bool :=
  match v with
  | NaN => true
  | Num _ => false
  end.

(** Arithmetic: an operation on NaN gives NaN. The divisors of
    [normalizeMap] are 2 and the difference of two unequal numbers, so no
    division by zero occurs. *)
Definition lift (op : Qc -> Qc -> Qc) (a b : V) : V :=
  match a, b with
  | Num x, Num y => Num (op x y)
  | _, _ => NaN
  end.

Definition add : V -> V -> V := lift Qcplus.
Definition sub : V -> V -> V := lift Qcminus.
Definition mul : V -> V -> V := lift Qcmult.
Definition div : V -> V -> V := lift Qcdiv.

(** Comparisons: [a < b] and [a == b] are false when one side is NaN. *)
Definition less (a b : V) : bool :=
  match a, b with
  | Num x, Num y => bool_decide (x < y)
  | _, _ => false
  end.

Definition equal (a b : V) : bool :=
  match a, b with
  | Num x, Num y => bool_decide (x = y)
  | _, _ => false
  end.

(** The first loop of [normalizeMap]: [min] and [max] start as NaN, and
    the values that are NaN are skipped. *)
Definition minMax (values : list V) : V * V :=
  foldl (fun '(min, max) v =>
           if IsNaN v then (min, max)
           else
             let min := if IsNaN min then v else min in
             let max := if IsNaN max then v else max in
             let min := if less v min then v else min in
             let max := if less max v then v else max in
             (min, max)) (NaN, NaN) values.

(** [normalizeMap]: the panic when no number was found, then one of the
    two loops that overwrite every value of the map. *)
Definition normalizeMap (m : gmap NodeId V) (targetMin targetMax : V)
  : option (gmap NodeId V) :=
  let '(min, max) := minMax (map_to_list m).*2 in
  if IsNaN min || IsNaN max then None
  else if equal max min then
    Some ((fun _ => div (sub targetMax targetMin) (Num 2)) <$> m)
  else
    let dist := sub max min in
    Some ((fun val =>
             add (div (mul (sub val min) (sub targetMax targetMin)) dist)
               targetMin) <$> m).

End float64.
End agent.


(* ===================================================================== *)
(** * Package [openai]: validated answers of the language model *)
(* ===================================================================== *)

Module openai.
Import llm.

(** What one call of [doRequest] leaves: the decoded answer in [output],
    an error that [isJSONUnmarshalError] recognises as one of the JSON
    decoder, or another error. *)
Inductive Response (Out : Type) :=
  | Decoded (out : Out)
  | UnmarshalError
  | OtherError.
Arguments Decoded {Out} out.
Arguments UnmarshalError {Out}.
Arguments OtherError {Out}.

(** What [doRequestWithRetry] does: it returns nil with the answer left in
    [output], returns an error, or panics. *)
Inductive Outcome (Out : Type) :=
  | Accepted (out : Out)
  | Failed
  | Panicked.
Arguments Accepted {Out} out.
Arguments Failed {Out}.
Arguments Panicked {Out}.

Section Retry.
Context {Out : Type}.

(** The language model: its answer to the attempt with the given number. *)
Variable doRequest : nat -> Response Out.

(** The loop [for attempt := 0; attempt < c.maxRetries; attempt++]. With
    every error [doRequest] hands back the nil response. The branch for
    decoder errors builds the arguments of its log line from
    [resp.OutputText()], which reads that nil response: the program panics
    there, before the [continue] is reached. *)
Fixpoint retryLoop (validationFn : option (Out -> bool)) (attempts : nat)
    (attempt : nat) : Outcome Out :=
  match attempts with
  | O => Failed
  | S attempts' =>
      match doRequest attempt with
      | OtherError => Failed
      | UnmarshalError => Panicked
      | Decoded out =>
          match validationFn with
          | Some valid =>
              if valid out then Accepted out
              else retryLoop validationFn attempts' (S attempt)
          | None => Accepted out
          end
      end
  end.

(** [Client.doRequestWithRetry]; [templateOk] tells whether the prompt
    template could be executed. *)
Definition doRequestWithRetry (templateOk : bool) (maxRetries : Z)
    (validationFn : option (Out -> bool)) : Outcome Out :=
  if templateOk then retryLoop validationFn (Z.to_nat maxRetries) 0
  else Failed.

End Retry.

(** The callers' [if err := c.doRequestWithRetry(...); err != nil { panic }]. *)
Definition orPanic {Out} (r : Outcome Out) : option Out :=
  match r with
  | Accepted out => Some out
  | Failed => None
  | Panicked => None
  end.

(* --------------------------------------------------------------------- *)
(** ** The hourly schedule *)

(** An entry of [GenerateHourlyScheduleV2Output.Schedule]. *)
Record HourlyEntry := mkHourlyEntry {
  Time_ : string;
  HourlyActivity : string
}.

(** [strings.Replace(s, " ", "", -1)]. *)
Fixpoint removeSpaces (s : string) : string :=
  match s with
  | EmptyString => EmptyString
  | String c rest =>
      if decide (c = " "%char) then removeSpaces rest
      else String c (removeSpaces rest)
  end.

Definition hourNames : list string :=
  ["12:00am"; "01:00am"; "02:00am"; "03:00am"; "04:00am";
   "05:00am"; "06:00am"; "07:00am"; "08:00am"; "09:00am";
   "10:00am"; "11:00am"; "12:00pm"; "01:00pm"; "02:00pm";
   "03:00pm"; "04:00pm"; "05:00pm"; "06:00pm"; "07:00pm";
   "08:00pm"; "09:00pm"; "10:00pm"; "11:00pm"].

(** The validation function of [GenerateHourlySchedule]: [true] is nil. *)
Definition validHourly (schedule : list HourlyEntry) : bool :=
  if decide (len schedule ≠ 24) then false
  else
    forallb
      (fun '(i, t) =>
         match schedule !! i with
         | Some entry =>
             let got := memory.ToLower (removeSpaces (Time_ entry)) in
             negb (bool_decide (got ≠ t
                                ∧ got ≠ memory.TrimPrefix t "0"))
         | None => false
         end)
      (imap (fun i t => (i, t)) hourNames).

(** The loop that merges consecutive hours of the same activity. *)
Definition mergeHours (schedule : list HourlyEntry) : list Plan :=
  foldl (fun plans p =>
           let dur := 60 in
           match last plans with
           | Some lastPlan =>
               if decide (Activity lastPlan = HourlyActivity p) then
                 alter (fun plan =>
                          mkPlan (Activity plan)
                            (agent.wrap64 (Duration plan + dur)))
                   (length plans - 1)%nat plans
               else (plans ++ [mkPlan (HourlyActivity p) dur])%list
           | None => (plans ++ [mkPlan (HourlyActivity p) dur])%list
           end) [] schedule.

(** [Client.GenerateHourlySchedule]. *)
Definition GenerateHourlySchedule
    (doRequest : nat -> Response (list HourlyEntry))
    (templateOk : bool) (maxRetries : Z) : option (list Plan) :=
  out ← orPanic (doRequestWithRetry doRequest templateOk maxRetries
                   (Some validHourly));
  Some (mergeHours out).

(* --------------------------------------------------------------------- *)
(** ** The decomposition of a plan *)

(** An entry of [TaskDecompV3Output.Schedule]. *)
Record Task := mkTask {
  TaskName : string;
  DurationMinutes : Z;
  MinutesLeft : Z
}.

(** The validation function of [GeneratePlanDecomposition]: the minutes
    left are counted down from the duration of the plan, each task must
    report the count it leaves, and the count must end at 0. *)
Definition validDecomposition (plan : Plan) (schedule : list Task) : bool :=
  match
    foldl (fun acc task =>
             totalTime ← acc;
             let totalTime := agent.wrap64 (totalTime - DurationMinutes task) in
             if decide (totalTime ≠ MinutesLeft task) then None
             else Some totalTime)
      (Some (Duration plan)) schedule
  with
  | Some totalTime => bool_decide (¬ totalTime ≠ 0)
  | None => false
  end.

(** [Client.GeneratePlanDecomposition]. The prompt it builds from the
    persona's original schedule reaches the language model only. *)
Definition GeneratePlanDecomposition
    (doRequest : nat -> Response (list Task))
    (templateOk : bool) (maxRetries : Z) (plan : Plan) : option (list Plan) :=
  out ← orPanic (doRequestWithRetry doRequest templateOk maxRetries
                   (Some (validDecomposition plan)));
  Some (map (fun task => mkPlan (TaskName task) (DurationMinutes task)) out).

End openai.
(* ===================================================================== *)
(** * Properties *)
(* ===================================================================== *)

Import memory.

#[local] Set Warnings "-clear-no-such-hyp".

(* --------------------------------------------------------------------- *)
(** ** Vocabulary of the statements *)

(** The four segments of a path, top level first. *)
Definition segments (p : Path) : list string :=
  [world p; sector p; arena p; object p].

(** The leading segments up to the first empty one. *)
Fixpoint nonEmptyPrefix (segs : list string) : list string :=
  match segs with
  | [] => []
  | seg :: rest => if decide (seg = "") then [] else seg :: nonEmptyPrefix rest
  end.

(** A path with one to four non-empty segments: the world is set, and a
    segment is set only when the one above it is. *)
Definition properPath (p : Path) : Prop :=
  world p ≠ "" ∧ (sector p = "" → arena p = "") ∧ (arena p = "" → object p = "").

(** The separator does not occur in the string. *)
Fixpoint noColon (s : string) : Prop :=
  match s with
  | EmptyString => True
  | String c rest => c ≠ ":"%char ∧ noColon rest
  end.

(** Reading through the nested maps as Go does: a missing map reads as the
    empty one. *)
Definition sectorsOf (ws : Worlds) (w : string) : Sectors :=
  default ∅ (ws !! w).
Definition arenasOf (ws : Worlds) (w s : string) : Arenas :=
  default ∅ (sectorsOf ws w !! s).
Definition objectsOf (ws : Worlds) (w s a : string) : Objects :=
  default ∅ (arenasOf ws w s !! a).

Definition hasWorld (ws : Worlds) (w : string) : Prop := is_Some (ws !! w).
Definition hasSector (ws : Worlds) (w s : string) : Prop :=
  is_Some (sectorsOf ws w !! s).
Definition hasArena (ws : Worlds) (w s a : string) : Prop :=
  is_Some (arenasOf ws w s !! a).
Definition hasObject (ws : Worlds) (w s a o : string) : Prop :=
  o ∈ objectsOf ws w s a.

(** A path in which a segment is set only when the one above it is. *)
Definition prefixClosed (p : Path) : Prop :=
  (sector p ≠ "" → world p ≠ "")
  ∧ (arena p ≠ "" → sector p ≠ "")
  ∧ (object p ≠ "" → arena p ≠ "").

(** [x] is the level-[L] segment of a registered path that agrees with [q]
    on all levels above [L]. *)
Definition registeredUnder (ps : list Path) (q : Path) (L : PathLevel)
    (x : string) : Prop :=
  ∃ p, p ∈ ps ∧ Get p L = Some x ∧ x ≠ ""
       ∧ ∀ L', 1 <= L' < L → Get p L' = Get q L'.

(** What the index holds after the paths [ps] were registered. *)
Definition holds (ws : Worlds) (ps : list Path) : Prop :=
  (∀ w, hasWorld ws w ↔ ∃ p, p ∈ ps ∧ world p = w ∧ w ≠ "")
  ∧ (∀ w s, hasSector ws w s
            ↔ ∃ p, p ∈ ps ∧ world p = w ∧ sector p = s ∧ s ≠ "")
  ∧ (∀ w s a, hasArena ws w s a
              ↔ ∃ p, p ∈ ps ∧ world p = w ∧ sector p = s ∧ arena p = a ∧ a ≠ "")
  ∧ (∀ w s a o, hasObject ws w s a o
                ↔ ∃ p, p ∈ ps ∧ world p = w ∧ sector p = s ∧ arena p = a
                       ∧ object p = o ∧ o ≠ "").


(** The arguments of one [AddEvent] call. *)
Record EventCall := mkEventCall {
  callSPO : SPO;
  callDescription : string;
  callKeywords : list string;
  callImportance : Z;
  callValence : Z;
  callEvidence : list NodeId;
  callCreated : Time;
  callExpiration : option Time;
  callEmbeddingKey : string;
  callEmbedding : list Qc
}.

Definition addEvent (store : Associative) (c : EventCall)
  : Associative * ConceptNode :=
  AddEvent store (callSPO c) (callDescription c) (callKeywords c)
    (callImportance c) (callValence c) (callEvidence c) (callCreated c)
    (callExpiration c) (callEmbeddingKey c) (callEmbedding c).

(** A sequence of [AddEvent] calls, first to last; the ids of the returned
    nodes are collected in call order. *)
Fixpoint addEvents (calls : list EventCall) (store : Associative)
  : Associative * list NodeId :=
  match calls with
  | [] => (store, [])
  | c :: rest =>
      let '(store, node) := addEvent store c in
      let '(store, ids) := addEvents rest store in
      (store, Id node :: ids)
  end.

(** The ids [1, 2, ..., n]. *)
Definition idsUpTo (n : nat) : list NodeId := Z.of_nat <$> seq 1 n.

(** The union of the entries of the event keyword index under the three
    strings. *)
Definition eventIndexUnion (store : Associative)
    (subject predicate object : string) : gset NodeId :=
  list_to_set (default [] (kwToEvents store !! subject))
  ∪ list_to_set (default [] (kwToEvents store !! predicate))
  ∪ list_to_set (default [] (kwToEvents store !! object)).

(** The same union over the thought keyword index. *)
Definition thoughtIndexUnion (store : Associative)
    (subject predicate object : string) : gset NodeId :=
  list_to_set (default [] (kwToThoughts store !! subject))
  ∪ list_to_set (default [] (kwToThoughts store !! predicate))
  ∪ list_to_set (default [] (kwToThoughts store !! object)).

(** A fresh store, and the inputs used to exercise the store below. *)
Definition freshStore : Associative := NewAssociative ∅ ∅ ∅.

Definition bobEvent : EventCall :=
  mkEventCall (mkSPO "bob" "is" "reading") "bob is reading" ["bob"; "reading"]
    3 0 [] 1000 None "bob is reading" [1%Qc; 0%Qc].

(** The fresh store after the event [bobEvent] was added. *)
Definition storeWithEvent : Associative := (addEvent freshStore bobEvent).1.

(** The fresh store after one thought was added; [None] if adding panics. *)
Definition storeWithThought : option Associative :=
  fst <$> AddThought freshStore (mkSPO "bob" "likes" "tea") "bob likes tea"
            ["bob"; "tea"] 4 1 [] 1000 None "bob likes tea" [1%Qc; 0%Qc].

(** The chat node [AddChat] returns for a first chat. *)
Definition firstChat (store : Associative) : ConceptNode :=
  (AddChat store (mkSPO "bob" "chat with" "eve") "bob chats with eve"
     ["bob"; "eve"] 5 1 [mkUtterance "bob" "hello"] 2000 None
     "bob chats with eve" [0%Qc; 1%Qc]).2.

(** The wavefront loop of [Pathfind] is left with the end tile still at
    distance 0: the cap of 150 rounds was reached with the end unreached. *)
Definition endUnreachedAtCap (m : maze.Maze) (start end_ : maze.TilePos) : Prop :=
  ∃ distMaze, maze.finalDistMaze m start end_ = Some distMaze
              ∧ maze.at2 distMaze (maze.Y end_) (maze.X end_) = Some 0.

(** A call surfaces an error when it panics; [Pathfind] has no other way to
    report one, its only result is the path. *)
Definition surfacesError {A} (r : maze.outcome A) : Prop := r = maze.Panics.

(** A corridor of three tiles with a wall in the middle. *)
Definition walledCorridor : maze.Maze :=
  maze.ofCollision [[false; true; false]].

(** An open corridor of 200 tiles. *)
Definition longCorridor : maze.Maze :=
  maze.ofCollision [replicate 200 false].

(** The maze of the repository's path finder tests. *)
Definition testMaze : maze.Maze :=
  let X := true in
  let o := false in
  maze.ofCollision
    [[X; X; X; X; X; X; X; X; X; X; X; X; X];
     [o; o; X; o; o; o; o; o; X; o; o; o; X];
     [X; o; X; o; o; X; X; o; o; o; X; o; X];
     [X; o; X; o; o; X; X; o; X; o; X; o; X];
     [X; o; o; o; o; o; o; o; X; o; o; o; X];
     [X; X; X; o; X; o; X; X; X; o; X; o; X];
     [X; o; o; o; o; o; o; o; o; o; X; o; o];
     [X; X; X; X; X; X; X; X; X; X; X; X; X]].

(** A stand-in for [math.Sqrt] in the worked examples: the root of the
    numerator over the root of the denominator, which is the exact square
    root on the squares of rationals, the only arguments it meets below. *)
Definition exactSqrt (q : Qc) : Qc :=
  Q2Qc (Qmake (Z.sqrt (Qnum q)) (Z.to_pos (Z.sqrt (Z.pos (Qden q))))).

(** A state that only sets what retrieval reads: the clock, the recency
    decay and the four weights. *)
Definition retrievalState (now : Time) (decay : Qc)
    (recency importance relevance valence : Qc) : agent.State :=
  agent.mkState now decay [] [] (mkSPO "" "" "") "" "" (mkPath "" "" "" "")
    0 0 false "" "" (mkSPO "" "" "") [] agent.zeroTime "" ∅
    recency importance relevance valence.

(** Event number [i]: importance [i], created at second [i]. *)
Definition choreEvent (i : nat) : EventCall :=
  mkEventCall (mkSPO "bob" "does" "chores") "bob does chores" ["bob"]
    (Z.of_nat i) 0 [] (Z.of_nat i * agent.Second) None "bob does chores"
    [1%Qc; 0%Qc].

(** A persona whose store holds the events 1 to [n], and who weighs
    importance alone. *)
Definition choresPersona (n : nat) : agent.Persona :=
  agent.mkPersona "bob"
    (retrievalState (100 * agent.Second) (Q2Qc (1 # 2)) 0%Qc 1%Qc 0%Qc 0%Qc)
    (addEvents (choreEvent <$> seq 1 n) freshStore).1
    (λ _, [1%Qc; 0%Qc]).

(** The ids kept for the single focal point [focalPoint]. *)
Definition keptFor (sqrt : Qc → Qc) (p : agent.Persona) (focalPoint : string)
    (retrievalOpts : list agent.retrievalOpt) : option (list NodeId) :=
  r ← agent.retrieveForFocalPoints sqrt p [focalPoint] retrievalOpts;
  r.2 !! focalPoint.

(** The type-specific latest-id lists, newest first: events, then thoughts.
    This is the candidate list before idle nodes are dropped and before it
    is sorted. *)
Definition latestIds (store : Associative) : list NodeId :=
  (GetLatestEventIds store ++ GetLatestThoughtIds store)%list.

(** The time the index loop of [createReact] has summed up when it reaches
    entry [i] of the schedule, counted from the start of the day. *)
Definition elapsedBefore (schedule : list llm.Plan) (i : nat) : Z :=
  foldr (λ plan sum, agent.minutes (llm.Duration plan) + sum) 0 (take i schedule).

(** Some entry of the schedule starts exactly at time [t]. *)
Definition startsAt (schedule : list llm.Plan) (startOfDay t : Time) : Prop :=
  ∃ i, (i < length schedule)%nat ∧ startOfDay + elapsedBefore schedule i = t.

(** The duration of the window handed to the cognition capability, as its
    validation computes it: [int(endTime.Sub(startTime).Minutes())]. *)
Definition windowMinutes (startTime endTime : Time) : Z :=
  agent.wholeMinutes (agent.Sub endTime startTime).

(** A state that only sets what reaction planning reads: the clock and the
    two schedules. *)
Definition scheduleState (now : Time) (daily original : list llm.Plan)
  : agent.State :=
  agent.mkState now 1%Qc daily original (mkSPO "" "" "") "" ""
    (mkPath "" "" "" "") 0 0 false "" "" (mkSPO "" "" "") [] agent.zeroTime
    "" ∅ 1%Qc 1%Qc 1%Qc 1%Qc.

Definition schedulePersona (now : Time) (daily original : list llm.Plan)
  : agent.Persona :=
  agent.mkPersona "bob" (scheduleState now daily original) freshStore (λ _, []).

(** An hourly schedule of one day. *)
Definition originalDay : list llm.Plan :=
  [llm.mkPlan "sleeping" 360; llm.mkPlan "breakfast" 60; llm.mkPlan "work" 60;
   llm.mkPlan "lunch" 60; llm.mkPlan "rest" 900].

(** The same day after a reaction at 06:30 was spliced into the window
    from 06:00 to 08:00: the entries now start at 06:00, 06:30, 07:15 and
    08:00, and none starts at 07:00. *)
Definition dayAfterChat : list llm.Plan :=
  [llm.mkPlan "sleeping" 360; llm.mkPlan "breakfast" 30; llm.mkPlan "chat" 45;
   llm.mkPlan "work" 45; llm.mkPlan "lunch" 60; llm.mkPlan "rest" 900].

(** Replacement plans of 120 minutes, and a cognition that answers with
    them. *)
Definition twoHourPlans : list llm.Plan :=
  [llm.mkPlan "work" 20; llm.mkPlan "waiting" 10; llm.mkPlan "work" 30;
   llm.mkPlan "lunch" 60].

Definition fixedCognition (plans : list llm.Plan)
  : agent.Persona → llm.Plan → Time → Time → list llm.Plan :=
  λ _ _ _ _, plans.

(** [createReact] for a wait reaction of [duration] minutes, reduced to the
    schedule it leaves. *)
Definition scheduleAfterWait
    (cognition : agent.Persona → llm.Plan → Time → Time → list llm.Plan)
    (p : agent.Persona) (duration : Z) : option (list llm.Plan) :=
  (λ p, agent.DailySchedule (agent.state p))
    <$> agent.createReact cognition p "waiting to start work" duration
          (mkPath "<waiting> X" " 3, Y" " 4" "") (mkSPO "bob" "waiting to start" "work")
          agent.zeroTime "⌛" "" [] ∅ agent.zeroTime.

(** The search for one of the two indices, taken alone. *)
Fixpoint firstAtOrAfter (schedule : list llm.Plan) (t : Time) (i : Z)
    (durSum : Time) : Z :=
  match schedule with
  | [] => -1
  | plan :: rest =>
      if decide (¬ durSum < t) then i
      else firstAtOrAfter rest t (i + 1) (durSum + agent.minutes (llm.Duration plan))
  end.


(** The number of separators in a string. *)
Fixpoint colons (s : string) : nat :=
  match s with
  | EmptyString => 0
  | String c rest => (if Ascii.eqb c ":"%char then 1 else 0) + colons rest
  end.

(** [suffix] stands at the end of [s]. *)
Fixpoint endsWith (s suffix : string) : bool :=
  bool_decide (s = suffix)
  || match s with
     | EmptyString => false
     | String _ rest => endsWith rest suffix
     end.

(** The string starts, or ends, with a white space code point. *)
Definition startsWithSpace (s : string) : bool :=
  existsb (λ space, HasPrefix s space) whiteSpace.

Definition endsWithSpace (s : string) : bool :=
  existsb (λ space, endsWith s space) whiteSpace.

(** The number of times a keyword occurs in a list of keywords. *)
Definition occurrences (kw : string) (keywords : list string) : nat :=
  length (filter (λ k, k = kw) keywords).

(** The ids a keyword index may list: every list is non-empty, holds only
    ids of the per-type list [ids], and stands under a key that the
    lower-casing has produced. *)
Definition indexOK (kwTo : gmap string (list NodeId)) (ids : list NodeId)
  : Prop :=
  ∀ kw listed, kwTo !! kw = Some listed →
    listed ≠ [] ∧ (∀ id, id ∈ listed → id ∈ ids) ∧ ∃ k, kw = ToLower k.

(** What a keyword index lists under [kw], read off the nodes: each id of
    the per-type list [ids], newest first, once for every occurrence of
    [kw] among its node's keywords. *)
Definition listedFor (ns : list ConceptNode) (kw : string)
    (ids : list NodeId) : list NodeId :=
  flat_map (λ id, match index ns id with
                  | Some c => replicate (occurrences kw (Keywords c)) id
                  | None => []
                  end) ids.

(** The keyword index [kwTo] lists exactly [listedFor]; a missing key
    reads as the empty list. *)
Definition indexExact (ns : list ConceptNode)
    (kwTo : gmap string (list NodeId)) (ids : list NodeId) : Prop :=
  ∀ kw, default [] (kwTo !! kw) = listedFor ns kw ids.

(** The shape every store built by [NewAssociative] and the three add
    operations has: index 0 holds an untyped node; a node's id is its
    index; each per-type list holds exactly the ids of the nodes of its
    type, in strictly decreasing order; the keyword indices list only ids
    of their type, under lower-cased keys, and list exactly the ids whose
    node carries the keyword. *)
Definition storeOK (store : Associative) : Prop :=
  (∃ c, GetNode store 0 = Some c ∧ Type_ c = NodeTypeInvalid)
  ∧ (∀ id c, GetNode store id = Some c → 0 < id → Id c = id)
  ∧ (∀ id, id ∈ events store
           ↔ ∃ c, GetNode store id = Some c ∧ Type_ c = NodeTypeEvent)
  ∧ (∀ id, id ∈ thoughts store
           ↔ ∃ c, GetNode store id = Some c ∧ Type_ c = NodeTypeThought)
  ∧ (∀ id, id ∈ chats store
           ↔ ∃ c, GetNode store id = Some c ∧ Type_ c = NodeTypeChat)
  ∧ Sorted Z.gt (events store)
  ∧ Sorted Z.gt (thoughts store)
  ∧ Sorted Z.gt (chats store)
  ∧ indexOK (kwToEvents store) (events store)
  ∧ indexOK (kwToThoughts store) (thoughts store)
  ∧ indexOK (kwToChats store) (chats store)
  ∧ indexExact (nodes store) (kwToEvents store) (events store)
  ∧ indexExact (nodes store) (kwToThoughts store) (thoughts store)
  ∧ indexExact (nodes store) (kwToChats store) (chats store).

(** The stores the program builds: [NewAssociative], then any sequence of
    [AddEvent], [AddThought] (when it returns) and [AddChat] calls. *)
Inductive built : Associative → Prop :=
  | built_New embeddings kwStrengthEvents kwStrengthThoughts :
      built (NewAssociative embeddings kwStrengthEvents kwStrengthThoughts)
  | built_AddEvent store spo description keywords importance valence
      evidence created expiration embeddingKey embedding :
      built store →
      built (AddEvent store spo description keywords importance valence
               evidence created expiration embeddingKey embedding).1
  | built_AddThought store spo description keywords importance valence
      evidence created expiration embeddingKey embedding store' node :
      built store →
      AddThought store spo description keywords importance valence
        evidence created expiration embeddingKey embedding
      = Some (store', node) →
      built store'
  | built_AddChat store spo description keywords importance valence
      chat created expiration embeddingKey embedding :
      built store →
      built (AddChat store spo description keywords importance valence
               chat created expiration embeddingKey embedding).1.

(** A string with an ASCII capital letter. *)
Fixpoint hasCapital (s : string) : Prop :=
  match s with
  | EmptyString => False
  | String c rest => (65 <= nat_of_ascii c <= 90)%nat ∨ hasCapital rest
  end.

(** A string of ASCII bytes. On these strings [ToLower] is Go's
    [strings.ToLower], which then lower-cases the 26 letters byte by byte
    and keeps every other byte. *)
Fixpoint isASCII (s : string) : bool :=
  match s with
  | EmptyString => true
  | String c rest => bool_decide (nat_of_ascii c < 128)%nat && isASCII rest
  end.

Definition allASCII (keywords : list string) : Prop :=
  Forall (λ kw, isASCII kw = true) keywords.

(** The stores the program builds from keywords of ASCII bytes:
    [NewAssociative], then any sequence of [AddEvent], [AddThought] (when
    it returns) and [AddChat] calls whose keywords are all ASCII. *)
Inductive builtASCII : Associative → Prop :=
  | builtASCII_New embeddings kwStrengthEvents kwStrengthThoughts :
      builtASCII
        (NewAssociative embeddings kwStrengthEvents kwStrengthThoughts)
  | builtASCII_AddEvent store spo description keywords importance valence
      evidence created expiration embeddingKey embedding :
      builtASCII store →
      allASCII keywords →
      builtASCII (AddEvent store spo description keywords importance valence
                    evidence created expiration embeddingKey embedding).1
  | builtASCII_AddThought store spo description keywords importance valence
      evidence created expiration embeddingKey embedding store' node :
      builtASCII store →
      allASCII keywords →
      AddThought store spo description keywords importance valence
        evidence created expiration embeddingKey embedding
      = Some (store', node) →
      builtASCII store'
  | builtASCII_AddChat store spo description keywords importance valence
      chat created expiration embeddingKey embedding :
      builtASCII store →
      allASCII keywords →
      builtASCII (AddChat store spo description keywords importance valence
                    chat created expiration embeddingKey embedding).1.

(** The keys of the three keyword indices are lower-case: strings of ASCII
    bytes without a capital letter. *)
Definition lowerKeys (store : Associative) : Prop :=
  ∀ kw,
    is_Some (kwToEvents store !! kw) ∨ is_Some (kwToThoughts store !! kw)
    ∨ is_Some (kwToChats store !! kw) →
    isASCII kw = true ∧ ¬ hasCapital kw.

(** The fresh store after one chat between Bob and Eve was added, with the
    two names as keywords. *)
Definition storeWithChat : Associative :=
  (AddChat freshStore (mkSPO "Bob" "chat with" "Eve") "Bob chats with Eve"
     ["Bob"; "Eve"] 5 1 [mkUtterance "Bob" "hello"] 2000 None
     "Bob chats with Eve" [0%Qc; 1%Qc]).1.

(** The largest [Depth] among the evidence nodes, 0 when there is none. *)
Definition deepest (store : Associative) (evidence : list NodeId) : Z :=
  foldr (λ id acc, Z.max (default 0 (Depth <$> GetNode store id)) acc)
    0 evidence.

(** The node ids of a store: the indices of its node slice. *)
Definition isNodeIndex (store : Associative) (id : NodeId) : Prop :=
  0 <= id < len (nodes store).

(** What a lookup sees after a node was added: the new node stands under
    its own id, which is the old length of the node slice; every other id
    reads as before; and the embedding is found under the node's embedding
    key, by key and by node id. *)
Definition addedTo (store store' : Associative) (node : ConceptNode)
    (embedding : list Qc) : Prop :=
  Id node = len (nodes store)
  ∧ GetNode store' (Id node) = Some node
  ∧ (∀ id, id ≠ Id node → GetNode store' id = GetNode store id)
  ∧ GetEmbedding store' (EmbeddingKey node) = Some embedding
  ∧ GetEmbeddingByNodeId store' (Id node) = Some embedding
  ∧ (∀ key, key ≠ EmbeddingKey node →
       GetEmbedding store' key = GetEmbedding store key).

(** A node after retrieval has touched it at time [now]: [LastAccessed] is
    [now], every other field is kept. *)
Definition touch (now : Time) (c : ConceptNode) : ConceptNode :=
  mkConceptNode (Id c) (NodeCount c) (TypeCount c) (Type_ c) (Depth c)
    (Created c) now (Expiration c) (Subject c) (Predicate c) (Object c)
    (Description c) (EmbeddingKey c) (Importance c) (Valence c) (Keywords c)
    (Evidence c) (memory.Chat c).

(** The candidates of a retrieval, as a set. *)
Definition candidateSet (nodes : list NodeId) : gset NodeId :=
  list_to_set nodes.

(** A persona whose only memory is the event "bob is idle". *)
Definition idlePersona : agent.Persona :=
  agent.mkPersona "bob"
    (retrievalState (100 * agent.Second) (Q2Qc (1 # 2)) 1%Qc 1%Qc 1%Qc 1%Qc)
    (AddEvent freshStore (mkSPO "bob" "is" "idle") "bob is idle"
       ["bob"; "idle"] 1 0 [] 1000 None "bob is idle" [1%Qc; 0%Qc]).1
    (λ _, [1%Qc; 0%Qc]).

(** A cognition that splits a plan into its first half hour and the
    rest. *)
Definition halfHourFirst : agent.Persona → llm.Plan → list llm.Plan :=
  λ _ plan,
    [llm.mkPlan (llm.Activity plan) 30;
     llm.mkPlan "carrying on" (llm.Duration plan - 30)].

(** No two neighbours in a schedule carry the same activity. *)
Definition adjacentDistinct (schedule : list llm.Plan) : Prop :=
  ∀ i a b, schedule !! i = Some a → schedule !! S i = Some b →
           llm.Activity a ≠ llm.Activity b.

(** A language model that answers the decomposition of an hour with a
    wrong count first and a right one then. *)
Definition twoAnswers (attempt : nat) : openai.Response (list openai.Task) :=
  match attempt with
  | O => openai.Decoded
           [openai.mkTask "reading" 30 30; openai.mkTask "writing" 20 0]
  | _ => openai.Decoded
           [openai.mkTask "reading" 30 30; openai.mkTask "writing" 30 0]
  end.

(** A language model that gives the same hourly answer at every attempt:
    eight hours of sleep, then work. *)
Definition sleepThenWork (attempt : nat)
  : openai.Response (list openai.HourlyEntry) :=
  openai.Decoded
    (imap (λ i t, openai.mkHourlyEntry t
                    (if decide (i < 8)%nat then "sleeping" else "working"))
       openai.hourNames).

(** What an [addressTiles] map lists, and that it lists no empty slice. *)
Definition listsTiles (addressTiles : gmap memory.Path (list maze.TilePos))
    (holds_ : memory.Path → maze.TilePos → Prop) : Prop :=
  (∀ a pos, pos ∈ default [] (addressTiles !! a) ↔ holds_ a pos)
  ∧ ∀ a t, addressTiles !! a = Some t → t ≠ [].

(** A maze as [maze.New] makes it: both arrays have [height] rows of
    [width] columns. *)
Definition wellFormed (m : maze.Maze) : Prop :=
  len (maze.tiles m) = maze.height m
  ∧ Forall (λ row, len row = maze.width m) (maze.tiles m)
  ∧ len (maze.collisionInfo m) = maze.height m
  ∧ Forall (λ row, len row = maze.width m) (maze.collisionInfo m).

(** A position on the maze. *)
Definition inBounds (m : maze.Maze) (pos : maze.TilePos) : Prop :=
  0 <= maze.X pos < maze.width m ∧ 0 <= maze.Y pos < maze.height m.

(** Two tiles that share an edge. *)
Definition neighbours (a b : maze.TilePos) : Prop :=
  (maze.X a = maze.X b ∧ Z.abs (maze.Y a - maze.Y b) = 1)
  ∨ (maze.Y a = maze.Y b ∧ Z.abs (maze.X a - maze.X b) = 1).

(** A path that moves from each tile to a neighbour of it. *)
Definition stepwise (path : list maze.TilePos) : Prop :=
  ∀ i a b, path !! i = Some a → path !! S i = Some b → neighbours a b.

(** The tile is free to stand on. *)
Definition free (m : maze.Maze) (pos : maze.TilePos) : Prop :=
  maze.at2 (maze.collisionInfo m) (maze.Y pos) (maze.X pos) = Some false.

(** A grid of the shape of the maze. *)
Definition gridOf {A} (m : maze.Maze) (d : list (list A)) : Prop :=
  len d = maze.height m ∧ Forall (λ row, len row = maze.width m) d.

(** The distance grid while the wavefront runs, after the rounds up to
    [k]: only the start tile is marked 1; every mark above 1 stands on a
    free tile next to a tile marked one less; no mark is negative or
    above [k + 1]. *)
Definition wave (m : maze.Maze) (start : maze.TilePos) (k : Z)
    (d : list (list Z)) : Prop :=
  gridOf m d
  ∧ (∀ i j, maze.at2 d i j = Some 1 → i = maze.Y start ∧ j = maze.X start)
  ∧ (∀ i j v, maze.at2 d i j = Some v → 1 < v →
       free m (maze.mkTilePos j i)
       ∧ ∃ i' j', neighbours (maze.mkTilePos j i) (maze.mkTilePos j' i')
                  ∧ maze.at2 d i' j' = Some (v - 1))
  ∧ (∀ i j v, maze.at2 d i j = Some v → 0 <= v <= k + 1).

(* --------------------------------------------------------------------- *)
(** ** Slices: indexing and length *)

Lemma index_app_one {A} (l : list A) (x : A) (i : Z) :
  index (l ++ [x]) i = if decide (i = len l) then Some x else index l i.
Proof.
  unfold index, len. case_decide as Hi.
  - case_decide as He.
    + subst i. rewrite Nat2Z.id. rewrite lookup_app_r by lia.
      by rewrite Nat.sub_diag.
    + destruct (decide (Z.to_nat i < length l)%nat).
      * by rewrite lookup_app_l.
      * rewrite !lookup_ge_None_2; [done|lia|].
        rewrite length_app. simpl. lia.
  - case_decide; [lia|done].
Qed.

Lemma index_Some_lt {A} (l : list A) (i : Z) (x : A) :
  index l i = Some x → 0 <= i < len l.
Proof.
  unfold index, len. case_decide; [|done].
  intros Hl%lookup_lt_Some. lia.
Qed.

Lemma len_nonneg {A} (l : list A) : 0 <= len l.
Proof. unfold len. lia. Qed.

Lemma index_is_Some {A} (l : list A) (i : Z) :
  is_Some (index l i) ↔ 0 <= i < len l.
Proof.
  unfold index, len. case_decide as Hi.
  - rewrite lookup_lt_is_Some. lia.
  - split; [by intros [? ?]|lia].
Qed.

Lemma index_app_last {A} (l : list A) (x : A) :
  index (l ++ [x]) (len l) = Some x.
Proof. rewrite index_app_one. by rewrite decide_True. Qed.

Lemma index_app_other {A} (l : list A) (x : A) (i : Z) :
  i ≠ len l → index (l ++ [x]) i = index l i.
Proof. intros Hi. rewrite index_app_one. by rewrite decide_False. Qed.

Lemma elem_of_take_elem {A} (l : list A) (n : nat) (x : A) :
  x ∈ take n l → x ∈ l.
Proof.
  revert n. induction l as [|a l IH]; intros [|n]; simpl;
    try by intros ?%elem_of_nil.
  intros [->|?]%elem_of_cons; [by left|right; eauto].
Qed.

Lemma index_insert {A} (l : list A) (k i : Z) (x : A) :
  0 <= k < len l →
  index (<[Z.to_nat k := x]> l) i
  = if decide (i = k) then Some x else index l i.
Proof.
  unfold index, len. intros Hk.
  destruct (decide (i = k)) as [->|Hne].
  - rewrite decide_True by lia. apply list_lookup_insert_eq. lia.
  - destruct (decide (0 <= i)); [|done]. apply list_lookup_insert_ne. lia.
Qed.

Lemma Some_default_pair {A B} (o : option (A * B)) (d : A * B) :
  is_Some o → o = Some ((default d o).1, (default d o).2).
Proof. intros [[a b] ->]. done. Qed.
(* --------------------------------------------------------------------- *)
(** ** Paths: rendering and parsing *)

Example ParsePath_three : ParsePath "w:s:a" = Some (mkPath "w" "s" "a" "").
Proof. reflexivity. Qed.

Lemma Split_noColon s : noColon s → Split s = [s].
Proof.
  induction s as [|c s IH]; simpl; [done|].
  intros [Hc Hs]. apply Ascii.eqb_neq in Hc. rewrite Hc, (IH Hs). done.
Qed.

Lemma Split_app_colon s rest :
  noColon s → Split (s ++ String ":" rest) = s :: Split rest.
Proof.
  induction s as [|c s IH]; [done|].
  intros [Hc Hs]. apply Ascii.eqb_neq in Hc.
  change (String c s ++ String ":" rest) with (String c (s ++ String ":" rest)).
  simpl. rewrite Hc, (IH Hs). done.
Qed.

Lemma append_String c (s1 s2 : string) : String c s1 ++ s2 = String c (s1 ++ s2).
Proof. reflexivity. Qed.

Lemma append_empty (s : string) : "" ++ s = s.
Proof. reflexivity. Qed.

Lemma append_assoc (s1 s2 s3 : string) : (s1 ++ s2) ++ s3 = s1 ++ (s2 ++ s3).
Proof.
  induction s1 as [|c s1 IH]; [reflexivity|].
  change (String c ((s1 ++ s2) ++ s3) = String c (s1 ++ (s2 ++ s3))).
  by rewrite IH.
Qed.

Lemma ToString_joins p :
  properPath p → ToString p = String.concat ":" (nonEmptyPrefix (segments p)).
Proof.
  destruct p as [w s a o]. unfold properPath, ToString, segments. simpl.
  intros (Hw & Hs & Ha).
  destruct (decide (w = "")) as [|_]; [done|].
  destruct (decide (s = "")) as [->|Hs'].
  { simpl. done. }
  destruct (decide (a = "")) as [->|Ha'].
  { simpl. destruct s; done. }
  destruct (decide (o = "")) as [->|Ho'].
  { simpl. destruct s; [done|]. destruct a; [done|].
    by rewrite append_assoc. }
  simpl. destruct s; [done|]. destruct a; [done|]. destruct o; [done|].
  by rewrite !append_assoc.
Qed.

Lemma ParsePath_ToString p :
  properPath p → Forall noColon (segments p) → ParsePath (ToString p) = Some p.
Proof.
  destruct p as [w s a o]. unfold properPath, ToString, segments. simpl.
  intros (Hw & Hs & Ha) Hcolon.
  apply Forall_cons in Hcolon as [Cw Hcolon].
  apply Forall_cons in Hcolon as [Cs Hcolon].
  apply Forall_cons in Hcolon as [Ca Hcolon].
  apply Forall_cons in Hcolon as [Co _].
  unfold ParsePath.
  destruct (decide (s = "")) as [->|Hs'].
  { rewrite (Hs eq_refl), (Ha (Hs eq_refl)), (Split_noColon _ Cw). done. }
  destruct (decide (a = "")) as [->|Ha'].
  { rewrite (Ha eq_refl), append_String, append_empty.
    rewrite (Split_app_colon _ _ Cw), (Split_noColon _ Cs). done. }
  destruct (decide (o = "")) as [->|Ho'].
  { rewrite !append_assoc, !append_String, !append_empty.
    rewrite (Split_app_colon _ _ Cw), (Split_app_colon _ _ Cs), (Split_noColon _ Ca).
    done. }
  rewrite !append_assoc, !append_String, !append_empty.
  rewrite (Split_app_colon _ _ Cw), (Split_app_colon _ _ Cs),
    (Split_app_colon _ _ Ca), (Split_noColon _ Co).
  done.
Qed.

(** C9 (as amended). For every path with one to four non-empty segments,
    [ToString] is the ":"-joined non-empty prefix of its segments; when in
    addition no segment contains the separator ":", parsing the rendered
    string yields the path again. *)
Theorem Path_roundtrip (p : Path) :
  properPath p →
  ToString p = String.concat ":" (nonEmptyPrefix (segments p))
  ∧ (Forall noColon (segments p) → ParsePath (ToString p) = Some p).
Proof.
  intros Hp. split; [by apply ToString_joins | by apply ParsePath_ToString].
Qed.

Lemma Path_roundtrip_witness :
  let p := mkPath "the_ville" "cafe" "kitchen" "" in
  properPath p
  ∧ ToString p = "the_ville:cafe:kitchen"
  ∧ ParsePath (ToString p) = Some p.
Proof.
  intros p.
  assert (Hp : properPath p) by (repeat split; done).
  destruct (Path_roundtrip p Hp) as [Hjoin Hparse].
  split; [exact Hp|]. split; [rewrite Hjoin; reflexivity|].
  apply Hparse. repeat constructor; done.
Defined.

(** C9 (as stated) fails for a segment that contains the separator: the path
    whose only segment is the world "a:b" is rendered as "a:b" and parsed
    back as world "a", sector "b". *)
Lemma Path_roundtrip_colon_counterexample :
  let p := mkPath "a:b" "" "" "" in
  properPath p
  ∧ ToString p = "a:b"
  ∧ ParsePath (ToString p) = Some (mkPath "a" "b" "" "")
  ∧ ParsePath (ToString p) ≠ Some p.
Proof. repeat split; done. Qed.

(* --------------------------------------------------------------------- *)
(** ** Paths: parsing errors, levels, masks and special paths *)

Lemma length_Split s : length (Split s) = S (colons s).
Proof.
  induction s as [|c s IH]; simpl; [done|].
  destruct (Ascii.eqb c ":"); simpl; [by rewrite IH|].
  destruct (Split s); simpl in *; lia.
Qed.

Lemma Split_pieces_noColon s : Forall noColon (Split s).
Proof.
  induction s as [|c s IH]; simpl; [by repeat constructor|].
  destruct (Ascii.eqb c ":") eqn:Hc; [by constructor|].
  apply Ascii.eqb_neq in Hc.
  destruct (Split s) as [|piece pieces]; [by repeat constructor|].
  apply Forall_cons in IH as [Hp Hps]. by constructor.
Qed.

Lemma concat_Split s : String.concat ":" (Split s) = s.
Proof.
  induction s as [|c s IH]; simpl; [done|].
  pose proof (length_Split s) as Hlen.
  destruct (Ascii.eqb c ":") eqn:Hc.
  - apply Ascii.eqb_eq in Hc as ->.
    destruct (Split s) as [|piece pieces]; [done|].
    simpl in *. by rewrite IH.
  - destruct (Split s) as [|piece pieces]; [done|].
    destruct pieces as [|piece' pieces]; simpl in *; by rewrite <- IH.
Qed.

(** X1. [ParsePath] panics exactly on strings with more than three separators;
    when it returns, no segment of the path contains the separator. *)
Theorem ParsePath_returns (s : string) :
  (ParsePath s = None ↔ (3 < colons s)%nat)
  ∧ (∀ p, ParsePath s = Some p → Forall noColon (segments p)).
Proof.
  unfold ParsePath. pose proof (length_Split s) as Hlen.
  pose proof (Split_pieces_noColon s) as Hnc.
  split.
  - case_decide; split; intros; try done; lia.
  - intros p. case_decide as H4; [done|]. intros [= <-].
    destruct (Split s) as [|p0 [|p1 [|p2 [|p3 [|p4 rest]]]]];
      simpl in *; try lia; unfold segments; simpl;
      repeat (apply Forall_cons in Hnc as [? Hnc]);
      repeat constructor; done.
Qed.

(** X2. Rendering after parsing gives the string back when none of its pieces
    is empty. *)
Theorem ToString_ParsePath (s : string) (p : Path) :
  ParsePath s = Some p → Forall (λ piece, piece ≠ "") (Split s) →
  ToString p = s.
Proof.
  unfold ParsePath. pose proof (concat_Split s) as Hcat.
  case_decide as H4; [done|]. intros [= <-] Hne.
  destruct (Split s) as [|p0 [|p1 [|p2 [|p3 [|p4 rest]]]]];
    simpl in *; try lia;
    repeat (apply Forall_cons in Hne as [? Hne]);
    unfold ToString; simpl;
    rewrite ?decide_False by done; rewrite ?decide_True by done;
    rewrite <- Hcat; rewrite ?append_assoc; done.
Qed.

Lemma ToString_ParsePath_witness :
  ∃ p, ParsePath "the_ville:cafe:kitchen" = Some p
       ∧ ToString p = "the_ville:cafe:kitchen".
Proof.
  eexists. split; [reflexivity|].
  apply (ToString_ParsePath "the_ville:cafe:kitchen"); [reflexivity|].
  repeat constructor; done.
Defined.

(** An empty piece cuts the rendering short. *)
Example ToString_ParsePath_gap :
  ToString <$> ParsePath "a::c" = Some "a".
Proof. reflexivity. Qed.

Lemma keep_min (l1 l2 c : Z) (x : string) :
  (if decide (l1 >= c) then (if decide (l2 >= c) then x else "") else "")
  = if decide (Z.min l1 l2 >= c) then x else "".
Proof. repeat case_decide; try done; lia. Qed.

(** Truncating twice truncates to the higher of the two levels. *)
Theorem AtLevel_AtLevel (p : Path) (l1 l2 : PathLevel) :
  1 <= l1 → 1 <= l2 →
  AtLevel (AtLevel p l2) l1 = AtLevel p (Z.min l1 l2).
Proof.
  intros H1 H2. unfold AtLevel, PathLevelInvalid.
  rewrite (decide_False (P := l1 = 0)) by lia.
  rewrite (decide_False (P := l2 = 0)) by lia.
  rewrite (decide_False (P := Z.min l1 l2 = 0)) by lia.
  simpl. by rewrite !keep_min.
Qed.

Lemma AtLevel_AtLevel_witness :
  AtLevel (AtLevel (mkPath "w" "s" "a" "o") PathLevelArena) PathLevelSector
  = mkPath "w" "s" "" "".
Proof.
  rewrite (AtLevel_AtLevel (mkPath "w" "s" "a" "o") PathLevelSector PathLevelArena)
    by (unfold PathLevelSector, PathLevelArena; lia).
  reflexivity.
Defined.

(** A path matches each of its own truncations, and so itself. *)
Theorem Matches_AtLevel (p : Path) (level : PathLevel) :
  Matches p (AtLevel p level) = true.
Proof.
  unfold Matches, AtLevel. destruct p as [w s a o].
  case_decide; simpl; repeat case_decide; try done; naive_solver.
Qed.

(** X3. The arena filter of perception, the test whether [t] truncated to its
    arena matches [c] truncated to its arena: when the three upper segments
    of [c] are set it holds exactly for the paths [t] with the same world,
    sector and arena; the objects are not compared. *)
Theorem Matches_same_arena (t c : Path) :
  world c ≠ "" → sector c ≠ "" → arena c ≠ "" →
  Matches (AtLevel t PathLevelArena) (AtLevel c PathLevelArena) = true
  ↔ world t = world c ∧ sector t = sector c ∧ arena t = arena c.
Proof.
  intros Hw Hs Ha.
  change (AtLevel t PathLevelArena) with (mkPath (world t) (sector t) (arena t) "").
  change (AtLevel c PathLevelArena) with (mkPath (world c) (sector c) (arena c) "").
  unfold Matches. simpl.
  destruct (decide (world t = world c)) as [Ew|Ew];
    [rewrite decide_False by tauto|rewrite decide_True by tauto; split; [done|tauto]].
  destruct (decide (sector t = sector c)) as [Es|Es];
    [rewrite decide_False by tauto|rewrite decide_True by tauto; split; [done|tauto]].
  destruct (decide (arena t = arena c)) as [Ea|Ea];
    [rewrite decide_False by tauto|rewrite decide_True by tauto; split; [done|tauto]].
  tauto.
Qed.

Lemma Matches_same_arena_witness :
  Matches (AtLevel (mkPath "w" "s" "a" "bed") PathLevelArena)
          (AtLevel (mkPath "w" "s" "a" "desk") PathLevelArena) = true.
Proof.
  apply (Matches_same_arena (mkPath "w" "s" "a" "bed") (mkPath "w" "s" "a" "desk"));
    simpl; done.
Defined.

Lemma noColon_app s1 s2 : noColon s1 → noColon s2 → noColon (s1 ++ s2).
Proof.
  induction s1 as [|c s1 IH]; [done|].
  intros [Hc H1] H2. rewrite append_String. simpl. split; [done|by apply IH].
Qed.

Lemma HasPrefix_app (prefix rest : string) :
  HasPrefix (prefix ++ rest) prefix = true.
Proof.
  unfold HasPrefix. induction prefix as [|c prefix IH].
  - by destruct rest.
  - rewrite append_String. simpl. by destruct (ascii_dec c c).
Qed.

Lemma isSpace_startsWithSpace (space rest : string) :
  isSpace space = true → startsWithSpace (space ++ rest) = true.
Proof.
  intros Hs%bool_decide_eq_true. apply existsb_exists. exists space.
  split; [by apply list_elem_of_In|apply HasPrefix_app].
Qed.

Lemma trimLeft_keeps (s : string) :
  startsWithSpace s = false → trimLeft s = s.
Proof.
  intros Hs.
  assert (Hno : ∀ space rest, s = space ++ rest → isSpace space = false).
  { intros space rest ->. destruct (isSpace space) eqn:E; [|done].
    by rewrite (isSpace_startsWithSpace _ rest E) in Hs. }
  destruct s as [|c [|d [|e rest]]]; [done|..].
  - cbn [trimLeft]. by rewrite (Hno (String c "") "" eq_refl).
  - cbn [trimLeft]. rewrite (Hno (String c "") (String d "") eq_refl).
    by rewrite (Hno (String c (String d "")) "" eq_refl).
  - cbn [trimLeft].
    rewrite (Hno (String c "") (String d (String e rest)) eq_refl).
    rewrite (Hno (String c (String d "")) (String e rest) eq_refl).
    by rewrite (Hno (String c (String d (String e ""))) rest eq_refl).
Qed.

Lemma endsWith_refl (s : string) : endsWith s s = true.
Proof. destruct s; cbn [endsWith]; by rewrite bool_decide_eq_true_2. Qed.

Lemma endsWithSpace_cons (c : ascii) (s : string) :
  endsWithSpace s = true → endsWithSpace (String c s) = true.
Proof.
  intros (space & Hin & He)%existsb_exists. apply existsb_exists.
  exists space. split; [done|]. simpl. rewrite He. apply orb_true_r.
Qed.

Lemma isSpace_endsWithSpace (s : string) :
  isSpace s = true → endsWithSpace s = true.
Proof.
  intros Hs%bool_decide_eq_true. apply existsb_exists. exists s.
  split; [by apply list_elem_of_In|apply endsWith_refl].
Qed.

Lemma trimRight_keeps (s : string) :
  endsWithSpace s = false → trimRight s = s.
Proof.
  induction s as [|c s IH]; [done|]. intros Hs.
  assert (Hkept : trimRight s = s).
  { destruct s as [|d s]; [done|]. apply IH.
    destruct (endsWithSpace (String d s)) eqn:E; [|done].
    by rewrite (endsWithSpace_cons c _ E) in Hs. }
  cbn [trimRight]. rewrite Hkept.
  destruct (isSpace (String c s)) eqn:E; [|done].
  by rewrite (isSpace_endsWithSpace _ E) in Hs.
Qed.

Lemma TrimSpace_after_space (s : string) :
  startsWithSpace s = false → endsWithSpace s = false →
  TrimSpace (" " ++ s) = s.
Proof.
  intros Hstart Hend. unfold TrimSpace.
  assert (Hl : trimLeft (" " ++ s) = trimLeft s) by (by destruct s).
  rewrite Hl, trimLeft_keeps by done. by apply trimRight_keeps.
Qed.

(** X4. A waiting path made from the waiting format loses its coordinates: the
    format holds two separators, so parsing spreads it over three segments,
    and [GetArg], which reads the world segment only, returns "X". *)
Theorem SpecialPath_waiting_GetArg (x y : string) :
  noColon x → noColon y →
  ∃ p, SpecialPath PathStateWaiting (formatWaitingArg x y) = Some p
       ∧ p = mkPath "<waiting> X" (" " ++ x ++ ", Y") (" " ++ y) ""
       ∧ IsSpecial p PathStateWaiting = true
       ∧ GetArg p = "X".
Proof.
  intros Hx Hy. eexists. split; [|split; [reflexivity|split; reflexivity]].
  unfold SpecialPath, formatWaitingArg, ParsePath. simpl PathState_ToString.
  assert (Hsplit : Split ("<waiting>" ++ " " ++ "X: " ++ x ++ ", Y: " ++ y)
                   = ["<waiting> X"; " " ++ x ++ ", Y"; " " ++ y]).
  { replace (x ++ ", Y: " ++ y) with ((x ++ ", Y") ++ String ":" (" " ++ y))
      by (by rewrite append_assoc).
    change ("<waiting>" ++ " " ++ "X: " ++ (x ++ ", Y") ++ String ":" (" " ++ y))
      with ("<waiting> X"
            ++ String ":" ((" " ++ x ++ ", Y") ++ String ":" (" " ++ y))).
    rewrite Split_app_colon by (repeat split; done).
    rewrite Split_app_colon.
    - rewrite Split_noColon; [done|]. apply noColon_app; [by repeat split|done].
    - apply noColon_app; [by repeat split|].
      apply noColon_app; [done|by repeat split]. }
  rewrite Hsplit. reflexivity.
Qed.

Lemma SpecialPath_waiting_GetArg_witness :
  ∃ p, SpecialPath PathStateWaiting (formatWaitingArg "12" "7") = Some p
       ∧ GetArg p = "X".
Proof.
  destruct (SpecialPath_waiting_GetArg "12" "7") as (p & Hp & _ & _ & Harg);
    [repeat split; done..|].
  exists p. by split.
Defined.

(** X5. A persona path gives the name back: for a name without separator that
    neither starts nor ends with white space, the path is recognised as a
    persona path and [GetArg] returns the name. White space is that of
    [strings.TrimSpace], Unicode's. *)
Theorem SpecialPath_persona_GetArg (name : string) :
  noColon name →
  startsWithSpace name = false → endsWithSpace name = false →
  ∃ p, SpecialPath PathStatePersona name = Some p
       ∧ IsSpecial p PathStatePersona = true
       ∧ IsSpecial p PathStateWaiting = false
       ∧ GetArg p = name.
Proof.
  intros Hc Hstart Hend. unfold SpecialPath, ParsePath.
  simpl PathState_ToString.
  rewrite Split_noColon by (apply noColon_app; [by repeat split|];
                             apply noColon_app; [by repeat split|done]).
  eexists. split; [reflexivity|]. simpl.
  split; [reflexivity|]. split; [reflexivity|].
  unfold GetArg. simpl.
  change (HasPrefix ("<persona>" ++ " " ++ name) "<waiting>") with false.
  change (HasPrefix ("<persona>" ++ " " ++ name) "<persona>") with true.
  simpl.
  change (TrimPrefix ("<persona>" ++ " " ++ name) "<persona>") with (" " ++ name).
  by apply TrimSpace_after_space.
Qed.

Lemma SpecialPath_persona_GetArg_witness :
  let name := "Jos" ++ ofBytes [195; 169]%nat in
  ∃ p, SpecialPath PathStatePersona name = Some p ∧ GetArg p = name.
Proof.
  intros name.
  destruct (SpecialPath_persona_GetArg name) as (p & Hp & _ & _ & Harg).
  - repeat split; done.
  - reflexivity.
  - reflexivity.
  - exists p. by split.
Defined.

(** White space of every kind is stripped at both ends, and only there:
    here a no-break space in front and an em space and a line feed behind.
    A byte that encodes nothing is kept. *)
Example TrimSpace_unicode :
  TrimSpace (ofBytes [194; 160]%nat ++ "a b"
             ++ ofBytes [226; 128; 131; 10]%nat) = "a b"
  ∧ TrimSpace (ofBytes [133; 32]%nat) = ofBytes [133]%nat.
Proof. split; reflexivity. Qed.
(* --------------------------------------------------------------------- *)
(** ** The spatial index *)

Lemma registerWorld_spec p ws :
  ∃ ws', registerWorld p ws = Some ws'
    ∧ (∀ w, hasWorld ws' w ↔ hasWorld ws w ∨ (w = world p ∧ w ≠ ""))
    ∧ (∀ w, sectorsOf ws' w = sectorsOf ws w).
Proof.
  unfold registerWorld, hasWorld, sectorsOf.
  destruct (decide (world p ≠ "")) as [Hne|He].
  - destruct (ws !! world p) as [secs|] eqn:Hw.
    + eexists; split; [done|]. split; [|done].
      intros w. split; [by left|]. intros [?|[-> _]]; [done|]. by rewrite Hw.
    + eexists; split; [done|]. split.
      * intros w. destruct (decide (w = world p)) as [->|Hn].
        -- rewrite lookup_insert_eq. naive_solver.
        -- rewrite lookup_insert_ne by done. naive_solver.
      * intros w. destruct (decide (w = world p)) as [->|Hn].
        -- by rewrite lookup_insert_eq, Hw.
        -- by rewrite lookup_insert_ne.
  - eexists; split; [done|]. split; [|done]. naive_solver.
Qed.

Ltac split_key w k :=
  destruct (decide (w = k)) as [->|?];
  [rewrite ?lookup_insert_eq | rewrite ?lookup_insert_ne by done].

Lemma registerSector_spec p ws :
  (sector p ≠ "" → hasWorld ws (world p)) →
  ∃ ws', registerSector p ws = Some ws'
    ∧ (∀ w, hasWorld ws' w ↔ hasWorld ws w)
    ∧ (∀ w s, hasSector ws' w s
              ↔ hasSector ws w s ∨ (w = world p ∧ s = sector p ∧ s ≠ ""))
    ∧ (∀ w s, arenasOf ws' w s = arenasOf ws w s).
Proof.
  unfold registerSector, hasWorld, hasSector, arenasOf, sectorsOf.
  intros Hpre.
  destruct (decide (sector p ≠ "")) as [Hne|He]; [|eexists; naive_solver].
  destruct (Hpre Hne) as [secs Hw]. rewrite Hw.
  destruct (secs !! sector p) as [ars|] eqn:Hs.
  { eexists; split; [done|]. split; [done|]. split; [|done].
    intros w s. split; [by left|]. intros [?|(-> & -> & _)]; [done|].
    rewrite Hw. simpl. by rewrite Hs. }
  eexists; split; [done|]. split; [|split].
  - intros w. split_key w (world p); [|done]. rewrite Hw. naive_solver.
  - intros w s. split_key w (world p); simpl; [|naive_solver].
    rewrite Hw. simpl. split_key s (sector p); [|naive_solver].
    rewrite Hs. naive_solver.
  - intros w s. split_key w (world p); simpl; [|done].
    rewrite Hw. simpl. split_key s (sector p); [|done].
    by rewrite Hs.
Qed.

Lemma hasSector_hasWorld ws w s : hasSector ws w s → hasWorld ws w.
Proof.
  unfold hasSector, hasWorld, sectorsOf. destruct (ws !! w); [done|].
  simpl. rewrite lookup_empty. by intros [? ?].
Qed.

Lemma hasArena_hasSector ws w s a : hasArena ws w s a → hasSector ws w s.
Proof.
  unfold hasArena, hasSector, arenasOf. destruct (sectorsOf ws w !! s); [done|].
  simpl. rewrite lookup_empty. by intros [? ?].
Qed.

Lemma registerArena_spec p ws :
  (arena p ≠ "" → hasSector ws (world p) (sector p)) →
  ∃ ws', registerArena p ws = Some ws'
    ∧ (∀ w, hasWorld ws' w ↔ hasWorld ws w)
    ∧ (∀ w s, hasSector ws' w s ↔ hasSector ws w s)
    ∧ (∀ w s a, hasArena ws' w s a
                ↔ hasArena ws w s a
                  ∨ (w = world p ∧ s = sector p ∧ a = arena p ∧ a ≠ ""))
    ∧ (∀ w s a, objectsOf ws' w s a = objectsOf ws w s a).
Proof.
  unfold registerArena, hasWorld, hasSector, hasArena, objectsOf, arenasOf, sectorsOf.
  intros Hpre.
  destruct (decide (arena p ≠ "")) as [Hne|He]; [|eexists; naive_solver].
  specialize (Hpre Hne).
  destruct (ws !! world p) as [secs|] eqn:Hw;
    [|simpl in Hpre; rewrite lookup_empty in Hpre; by destruct Hpre].
  simpl in Hpre. destruct Hpre as [ars Hs]. rewrite Hs.
  destruct (ars !! arena p) as [objs|] eqn:Ha.
  { eexists; split; [done|]. split; [done|]. split; [done|]. split; [|done].
    intros w s a. split; [by left|]. intros [?|(-> & -> & -> & _)]; [done|].
    rewrite Hw. simpl. rewrite Hs. simpl. by rewrite Ha. }
  eexists; split; [done|]. split; [|split; [|split]].
  - intros w. split_key w (world p); [|done]. rewrite Hw. naive_solver.
  - intros w s. split_key w (world p); simpl; [|done].
    rewrite Hw. simpl. split_key s (sector p); [|done].
    rewrite Hs. naive_solver.
  - intros w s a. split_key w (world p); simpl; [|naive_solver].
    rewrite Hw. simpl. split_key s (sector p); simpl; [|naive_solver].
    rewrite Hs. simpl. split_key a (arena p); [|naive_solver].
    rewrite Ha. naive_solver.
  - intros w s a. split_key w (world p); simpl; [|done].
    rewrite Hw. simpl. split_key s (sector p); simpl; [|done].
    rewrite Hs. simpl. split_key a (arena p); [|done].
    by rewrite Ha.
Qed.

Lemma registerObject_spec p ws :
  (object p ≠ "" → hasArena ws (world p) (sector p) (arena p)) →
  ∃ ws', registerObject p ws = Some ws'
    ∧ (∀ w, hasWorld ws' w ↔ hasWorld ws w)
    ∧ (∀ w s, hasSector ws' w s ↔ hasSector ws w s)
    ∧ (∀ w s a, hasArena ws' w s a ↔ hasArena ws w s a)
    ∧ (∀ w s a o, hasObject ws' w s a o
                  ↔ hasObject ws w s a o
                    ∨ (w = world p ∧ s = sector p ∧ a = arena p
                       ∧ o = object p ∧ o ≠ "")).
Proof.
  unfold registerObject, hasWorld, hasSector, hasArena, hasObject,
    objectsOf, arenasOf, sectorsOf.
  intros Hpre.
  destruct (decide (object p ≠ "")) as [Hne|He]; [|eexists; naive_solver].
  specialize (Hpre Hne).
  destruct (ws !! world p) as [secs|] eqn:Hw;
    [|simpl in Hpre; rewrite lookup_empty in Hpre; simpl in Hpre;
      rewrite lookup_empty in Hpre; by destruct Hpre].
  simpl in Hpre.
  destruct (secs !! sector p) as [ars|] eqn:Hs;
    [|simpl in Hpre; rewrite lookup_empty in Hpre; by destruct Hpre].
  simpl in Hpre. destruct Hpre as [objs Ha]. rewrite Ha.
  destruct (decide (object p ∈ objs)) as [Hin|Hnin].
  { eexists; split; [done|]. split; [done|]. split; [done|]. split; [done|].
    intros w s a o. split; [by left|]. intros [?|(-> & -> & -> & -> & _)]; [done|].
    rewrite Hw. simpl. rewrite Hs. simpl. by rewrite Ha. }
  eexists; split; [done|]. split; [|split; [|split]].
  - intros w. split_key w (world p); [|done]. rewrite Hw. naive_solver.
  - intros w s. split_key w (world p); simpl; [|done].
    rewrite Hw. simpl. split_key s (sector p); [|done].
    rewrite Hs. naive_solver.
  - intros w s a. split_key w (world p); simpl; [|done].
    rewrite Hw. simpl. split_key s (sector p); simpl; [|done].
    rewrite Hs. simpl. split_key a (arena p); [|done].
    rewrite Ha. naive_solver.
  - intros w s a o. split_key w (world p); simpl; [|naive_solver].
    rewrite Hw. simpl. split_key s (sector p); simpl; [|naive_solver].
    rewrite Hs. simpl. split_key a (arena p); simpl; [|naive_solver].
    rewrite Ha. simpl. set_solver.
Qed.

Lemma Register_spec p ws :
  prefixClosed p →
  ∃ ws', Register p ws = Some ws'
    ∧ (∀ w, hasWorld ws' w ↔ hasWorld ws w ∨ (w = world p ∧ w ≠ ""))
    ∧ (∀ w s, hasSector ws' w s
              ↔ hasSector ws w s ∨ (w = world p ∧ s = sector p ∧ s ≠ ""))
    ∧ (∀ w s a, hasArena ws' w s a
                ↔ hasArena ws w s a
                  ∨ (w = world p ∧ s = sector p ∧ a = arena p ∧ a ≠ ""))
    ∧ (∀ w s a o, hasObject ws' w s a o
                  ↔ hasObject ws w s a o
                    ∨ (w = world p ∧ s = sector p ∧ a = arena p
                       ∧ o = object p ∧ o ≠ "")).
Proof.
  intros (Pw & Ps & Pa). unfold Register.
  destruct (registerWorld_spec p ws) as (ws1 & -> & W1 & S1). simpl.
  destruct (registerSector_spec p ws1) as (ws2 & -> & W2 & S2 & A2).
  { intros Hs. apply W1. right. auto. }
  simpl.
  destruct (registerArena_spec p ws2) as (ws3 & -> & W3 & S3 & A3 & O3).
  { intros Ha. apply S2. right. auto. }
  simpl.
  destruct (registerObject_spec p ws3) as (ws4 & -> & W4 & S4 & A4 & O4).
  { intros Ho. apply A3. right. auto. }
  exists ws4. split; [done|].
  assert (HS1 : ∀ w s, hasSector ws1 w s ↔ hasSector ws w s).
  { intros w s. unfold hasSector. by rewrite S1. }
  assert (HA1 : ∀ w s a, hasArena ws1 w s a ↔ hasArena ws w s a).
  { intros w s a. unfold hasArena, arenasOf. by rewrite S1. }
  assert (HO1 : ∀ w s a o, hasObject ws1 w s a o ↔ hasObject ws w s a o).
  { intros w s a o. unfold hasObject, objectsOf, arenasOf. by rewrite S1. }
  assert (HA2 : ∀ w s a, hasArena ws2 w s a ↔ hasArena ws1 w s a).
  { intros w s a. unfold hasArena. by rewrite A2. }
  assert (HO2 : ∀ w s a o, hasObject ws2 w s a o ↔ hasObject ws1 w s a o).
  { intros w s a o. unfold hasObject, objectsOf. by rewrite A2. }
  assert (HO3 : ∀ w s a o, hasObject ws3 w s a o ↔ hasObject ws2 w s a o).
  { intros w s a o. unfold hasObject. by rewrite O3. }
  split; [|split; [|split]].
  - intros w. rewrite W4, W3, W2, W1. done.
  - intros w s. rewrite S4, S3, S2, HS1. done.
  - intros w s a. rewrite A4, A3, HA2, HA1. done.
  - intros w s a o. rewrite O4, HO3, HO2, HO1. done.
Qed.

Lemma holds_empty : holds NewSpatial [].
Proof.
  unfold holds, NewSpatial, hasWorld, hasSector, hasArena, hasObject,
    objectsOf, arenasOf, sectorsOf.
  repeat split; simpl; rewrite ?lookup_empty; simpl; rewrite ?lookup_empty;
    simpl; rewrite ?lookup_empty; simpl;
    try (intros [? ?]; done); try (intros (? & ?%elem_of_nil & _); done);
    try set_solver.
Qed.

Lemma ex_snoc (P : Path → Prop) (done_ : list Path) (p : Path) :
  (∃ q, q ∈ (done_ ++ [p])%list ∧ P q) ↔ (∃ q, q ∈ done_ ∧ P q) ∨ P p.
Proof.
  split.
  - intros (q & [Hq|Hq%list_elem_of_singleton]%elem_of_app & HP).
    + left. by exists q.
    + right. by subst.
  - intros [(q & Hq & HP)|HP].
    + exists q. split; [|done]. apply elem_of_app. by left.
    + exists p. split; [|done]. apply elem_of_app. right. by apply list_elem_of_singleton.
Qed.

Lemma RegisterAll_holds ps : ∀ ws done_,
  Forall prefixClosed ps → holds ws done_ →
  ∃ ws', RegisterAll ps ws = Some ws' ∧ holds ws' (done_ ++ ps)%list.
Proof.
  induction ps as [|p ps IH]; intros ws done_ Hps Hws; simpl.
  { exists ws. by rewrite app_nil_r. }
  apply Forall_cons in Hps as [Hp Hps].
  destruct (Register_spec p ws Hp) as (ws1 & -> & W & S & A & O). simpl.
  destruct (IH ws1 (done_ ++ [p])%list Hps) as (ws' & -> & Hws').
  { destruct Hws as (HW & HS & HA & HO).
    split; [|split; [|split]].
    - intros w. rewrite W, HW, ex_snoc.
      split; (intros [?|?]; [by left|right]); intuition congruence.
    - intros w s. rewrite S, HS, ex_snoc.
      split; (intros [?|?]; [by left|right]); intuition congruence.
    - intros w s a. rewrite A, HA, ex_snoc.
      split; (intros [?|?]; [by left|right]); intuition congruence.
    - intros w s a o. rewrite O, HO, ex_snoc.
      split; (intros [?|?]; [by left|right]); intuition congruence. }
  exists ws'. split; [done|]. by rewrite <- app_assoc in Hws'.
Qed.

Lemma elem_of_keys {V} (m : gmap string V) x : x ∈ keys m ↔ is_Some (m !! x).
Proof. unfold keys. by rewrite elem_of_elements, elem_of_dom. Qed.

Lemma GetKnown_elem ws q L x :
  x ∈ GetKnown ws q L
  ↔ (L ≠ 0 ∧ L <= 1 ∧ hasWorld ws x)
    ∨ (L = 2 ∧ hasSector ws (world q) x)
    ∨ (L = 3 ∧ hasArena ws (world q) (sector q) x)
    ∨ (4 <= L ∧ hasObject ws (world q) (sector q) (arena q) x).
Proof.
  unfold GetKnown, PathLevelInvalid, PathLevelWorld, PathLevelSector,
    PathLevelArena, hasWorld, hasSector, hasArena, hasObject, objectsOf,
    arenasOf, sectorsOf.
  destruct (decide (L = 0)) as [->|H0].
  { rewrite elem_of_nil. split; [done|]. intros [?|[?|[?|?]]]; lia. }
  destruct (decide (L <= 1)) as [H1|H1].
  { rewrite elem_of_keys. split; [by left|]. intros [?|[?|[?|?]]]; [tauto|lia..]. }
  destruct (ws !! world q) as [secs|] eqn:Hw; simpl.
  2:{ rewrite !lookup_empty. simpl. rewrite !lookup_empty. simpl.
      rewrite elem_of_nil. split; [done|].
      intros [?|[[_ [? ?]]|[[_ [? ?]]|[_ ?]]]]; [lia|done|done|set_solver]. }
  destruct (decide (L <= 2)) as [H2|H2].
  { rewrite elem_of_keys. split; [intros; right; left; split; [lia|done]|].
    intros [?|[?|[?|?]]]; [lia|tauto|lia..]. }
  destruct (secs !! sector q) as [ars|] eqn:Hs; simpl.
  2:{ rewrite !lookup_empty. simpl. rewrite elem_of_nil. split; [done|].
      intros [?|[?|[[_ [? ?]]|[_ ?]]]]; [lia|lia|done|set_solver]. }
  destruct (decide (L <= 3)) as [H3|H3].
  { rewrite elem_of_keys. split; [intros; right; right; left; split; [lia|done]|].
    intros [?|[?|[?|?]]]; [lia|lia|tauto|lia]. }
  destruct (ars !! arena q) as [objs|] eqn:Ha; simpl.
  2:{ rewrite elem_of_nil. split; [done|].
      intros [?|[?|[?|[_ ?]]]]; [lia|lia|lia|set_solver]. }
  rewrite elem_of_elements. split; [intros; right; right; right; split; [lia|done]|].
  intros [?|[?|[?|?]]]; [lia|lia|lia|tauto].
Qed.

Lemma GetKnown_NoDup ws q L : NoDup (GetKnown ws q L).
Proof.
  unfold GetKnown, keys.
  repeat (case_decide || case_match);
    first [apply NoDup_nil_2 | apply NoDup_elements].
Qed.

Lemma holds_registeredUnder ws ps q L x :
  holds ws ps → 1 <= L <= 4 →
  x ∈ GetKnown ws q L ↔ registeredUnder ps q L x.
Proof.
  intros (HW & HS & HA & HO) HL. rewrite GetKnown_elem.
  unfold registeredUnder, Get, PathLevelWorld, PathLevelSector,
    PathLevelArena, PathLevelObject.
  assert (L = 1 ∨ L = 2 ∨ L = 3 ∨ L = 4) as [->|[->|[->| ->]]] by lia.
  - rewrite HW. split.
    + intros [(_ & _ & p & Hp & <- & Hne)|[?|[?|?]]]; [|lia..].
      exists p. repeat split; [done|done|]. intros L' ?; lia.
    + intros (p & Hp & [= <-] & Hne & _). left. repeat split; [done|lia|].
      by exists p.
  - rewrite HS. split.
    + intros [?|[(_ & p & Hp & Hw & <- & Hne)|[?|?]]]; [lia| |lia..].
      exists p. repeat split; [done|done|]. intros L' ?.
      assert (L' = 1) as -> by lia. simpl. by rewrite Hw.
    + intros (p & Hp & [= <-] & Hne & Hpre). right; left. split; [done|].
      specialize (Hpre 1 ltac:(lia)). simpl in Hpre. exists p. naive_solver.
  - rewrite HA. split.
    + intros [?|[?|[(_ & p & Hp & Hw & Hs & <- & Hne)|?]]]; [lia|lia| |lia].
      exists p. repeat split; [done|done|]. intros L' ?.
      assert (L' = 1 ∨ L' = 2) as [->| ->] by lia; simpl; congruence.
    + intros (p & Hp & [= <-] & Hne & Hpre). right; right; left. split; [done|].
      pose proof (Hpre 1 ltac:(lia)) as H1. pose proof (Hpre 2 ltac:(lia)) as H2.
      simpl in H1, H2. exists p. naive_solver.
  - rewrite HO. split.
    + intros [?|[?|[?|(_ & p & Hp & Hw & Hs & Ha & <- & Hne)]]]; [lia|lia|lia|].
      exists p. repeat split; [done|done|]. intros L' ?.
      assert (L' = 1 ∨ L' = 2 ∨ L' = 3) as [->|[->| ->]] by lia; simpl; congruence.
    + intros (p & Hp & [= <-] & Hne & Hpre). right; right; right. split; [done|].
      pose proof (Hpre 1 ltac:(lia)) as H1. pose proof (Hpre 2 ltac:(lia)) as H2.
      pose proof (Hpre 3 ltac:(lia)) as H3.
      simpl in H1, H2, H3. exists p. naive_solver.
Qed.

Lemma holds_Permutation ws ps ps' : ps ≡ₚ ps' → holds ws ps → holds ws ps'.
Proof.
  intros Hp (HW & HS & HA & HO).
  repeat split; intros H.
  all: first [ apply HW in H | apply HS in H | apply HA in H | apply HO in H
             | apply HW | apply HS | apply HA | apply HO ].
  all: destruct H as (p & Hin & H); exists p; split; [|done].
  all: first [ by rewrite <- Hp | by rewrite Hp ].
Qed.

Lemma holds_same_known ws ws' ps q L x :
  holds ws ps → holds ws' ps → x ∈ GetKnown ws q L ↔ x ∈ GetKnown ws' q L.
Proof.
  intros (HW & HS & HA & HO) (HW' & HS' & HA' & HO').
  rewrite !GetKnown_elem, HW, HW', HS, HS', HA, HA', HO, HO'. done.
Qed.

Lemma Register_again ws ps p :
  holds ws ps → p ∈ ps → prefixClosed p → Register p ws = Some ws.
Proof.
  intros (HW & HS & HA & HO) Hin (Pw & Ps & Pa).
  unfold Register.
  assert (registerWorld p ws = Some ws) as ->.
  { unfold registerWorld. case_decide as Hne; [|done].
    destruct (proj2 (HW (world p))) as [secs ->]; [by exists p|done]. }
  simpl.
  assert (registerSector p ws = Some ws) as ->.
  { unfold registerSector. case_decide as Hne; [|done].
    destruct (proj2 (HS (world p) (sector p))) as [ars Hs]; [by exists p|].
    unfold sectorsOf in Hs. destruct (ws !! world p) as [secs|]; [|done].
    simpl in Hs. by rewrite Hs. }
  simpl.
  assert (registerArena p ws = Some ws) as ->.
  { unfold registerArena. case_decide as Hne; [|done].
    destruct (proj2 (HA (world p) (sector p) (arena p))) as [objs Ha];
      [by exists p|].
    unfold arenasOf, sectorsOf in Ha.
    destruct (ws !! world p) as [secs|]; [|done]. simpl in Ha.
    destruct (secs !! sector p) as [ars|]; [|done]. simpl in Ha.
    by rewrite Ha. }
  simpl.
  unfold registerObject. case_decide as Hne; [|done].
  pose proof (proj2 (HO (world p) (sector p) (arena p) (object p))) as Ho.
  unfold hasObject, objectsOf, arenasOf, sectorsOf in Ho.
  destruct (ws !! world p) as [secs|]; [|set_solver]. simpl in Ho.
  destruct (secs !! sector p) as [ars|]; [|set_solver]. simpl in Ho.
  destruct (ars !! arena p) as [objs|]; [|set_solver]. simpl in Ho.
  rewrite decide_True; [done|]. apply Ho. by exists p.
Qed.

Lemma registerSector_returns p ws ws' :
  registerSector p ws = Some ws' → sector p ≠ "" → hasWorld ws (world p).
Proof.
  unfold registerSector, hasWorld. intros H Hne.
  rewrite decide_True in H by done.
  destruct (ws !! world p); [done|discriminate H].
Qed.

Lemma registerArena_returns p ws ws' :
  registerArena p ws = Some ws' → arena p ≠ "" →
  hasSector ws (world p) (sector p).
Proof.
  unfold registerArena, hasSector, sectorsOf. intros H Hne.
  rewrite decide_True in H by done.
  destruct (ws !! world p) as [secs|]; [|discriminate H]. simpl.
  destruct (secs !! sector p); [done|discriminate H].
Qed.

Lemma registerObject_returns p ws ws' :
  registerObject p ws = Some ws' → object p ≠ "" →
  hasArena ws (world p) (sector p) (arena p).
Proof.
  unfold registerObject, hasArena, arenasOf, sectorsOf. intros H Hne.
  rewrite decide_True in H by done.
  destruct (ws !! world p) as [secs|]; [|discriminate H]. simpl.
  destruct (secs !! sector p) as [ars|]; [|discriminate H]. simpl.
  destruct (ars !! arena p); [done|discriminate H].
Qed.

(** On an index that holds no empty name, [Register] returns only for a
    path without a gap. *)
Lemma Register_returns_prefixClosed p ws ws' done_ :
  holds ws done_ → Register p ws = Some ws' → prefixClosed p.
Proof.
  intros (HW & HS & HA & _). unfold Register.
  destruct (registerWorld_spec p ws) as (ws1 & -> & W1 & S1). simpl.
  destruct (registerSector p ws1) as [ws2|] eqn:H2; [|done]. simpl.
  destruct (registerArena p ws2) as [ws3|] eqn:H3; [|done]. simpl.
  intros H4.
  pose proof (registerSector_returns _ _ _ H2) as P2.
  pose proof (registerArena_returns _ _ _ H3) as P3.
  pose proof (registerObject_returns _ _ _ H4) as P4.
  destruct (registerSector_spec p ws1 P2) as (? & Heq2 & W2 & S2 & A2).
  rewrite H2 in Heq2. injection Heq2 as <-.
  destruct (registerArena_spec p ws2 P3) as (? & Heq3 & W3 & S3 & A3 & O3).
  rewrite H3 in Heq3. injection Heq3 as <-.
  split; [|split].
  - intros Hne. apply P2, W1 in Hne as [(q & _ & _ & ?)%HW|[_ ?]]; done.
  - intros Hne. apply P3, S2 in Hne as [Hs|(_ & _ & ?)]; [|done].
    unfold hasSector in Hs. rewrite S1 in Hs.
    by apply HS in Hs as (q & _ & _ & _ & ?).
  - intros Hne. apply P4, A3 in Hne as [Ha|(_ & _ & _ & ?)]; [|done].
    unfold hasArena in Ha. rewrite A2 in Ha. unfold arenasOf in Ha.
    rewrite S1 in Ha.
    by apply HA in Ha as (q & _ & _ & _ & _ & ?).
Qed.

Lemma RegisterAll_returns_prefixClosed ps : ∀ ws ws' done_,
  holds ws done_ → RegisterAll ps ws = Some ws' → Forall prefixClosed ps.
Proof.
  induction ps as [|p ps IH]; intros ws ws' done_ Hws Hrun; [constructor|].
  simpl in Hrun.
  destruct (Register p ws) as [ws1|] eqn:Hp; [|done]. simpl in Hrun.
  pose proof (Register_returns_prefixClosed _ _ _ _ Hws Hp) as Hpc.
  constructor; [done|].
  destruct (RegisterAll_holds [p] ws done_) as (ws1' & Hrun1 & Hws1).
  { by constructor. }
  { done. }
  simpl in Hrun1. rewrite Hp in Hrun1. simpl in Hrun1. injection Hrun1 as <-.
  by apply (IH ws1 ws' (done_ ++ [p])%list).
Qed.

(** A sequence of [Register] calls on a fresh index returns exactly when
    no path has a gap. *)
Lemma RegisterAll_returns_iff ps :
  is_Some (RegisterAll ps NewSpatial) ↔ Forall prefixClosed ps.
Proof.
  split.
  - intros [ws Hrun].
    by apply (RegisterAll_returns_prefixClosed ps NewSpatial ws [] holds_empty).
  - intros Hps.
    destruct (RegisterAll_holds ps NewSpatial [] Hps holds_empty) as (ws & -> & _).
    done.
Qed.

(** C8. After any sequence of [Register] calls that returns on a fresh
    index, [GetKnown(q, L)] lists, each once, exactly the level-[L] segments
    registered under the prefix of [q] above level [L]; its membership is
    the same for every order of the calls, and registering a path again
    leaves the index as it is. *)
Theorem Spatial_GetKnown_registered (ps : list Path) (ws : Worlds) :
  RegisterAll ps NewSpatial = Some ws →
  (∀ q L, 1 <= L <= 4 →
     NoDup (GetKnown ws q L)
     ∧ ∀ x, x ∈ GetKnown ws q L ↔ registeredUnder ps q L x)
  ∧ (∀ ps', ps' ≡ₚ ps →
       ∃ ws', RegisterAll ps' NewSpatial = Some ws'
         ∧ ∀ q L x, x ∈ GetKnown ws' q L ↔ x ∈ GetKnown ws q L)
  ∧ (∀ p, p ∈ ps → Register p ws = Some ws).
Proof.
  intros Hrun.
  assert (Hps : Forall prefixClosed ps).
  { apply RegisterAll_returns_iff. by rewrite Hrun. }
  destruct (RegisterAll_holds ps NewSpatial [] Hps holds_empty) as (ws0 & Hrun0 & Hws).
  rewrite Hrun in Hrun0. injection Hrun0 as <-.
  simpl in Hws. split; [|split].
  - intros q L HL. split; [apply GetKnown_NoDup|].
    intros x. by apply holds_registeredUnder.
  - intros ps' Hperm.
    assert (Hps' : Forall prefixClosed ps') by (by rewrite Hperm).
    destruct (RegisterAll_holds ps' NewSpatial [] Hps' holds_empty)
      as (ws' & Hrun' & Hws').
    simpl in Hws'. exists ws'. split; [done|]. intros q L x.
    apply (holds_same_known ws' ws ps); [|done].
    by apply (holds_Permutation ws' ps').
  - intros p Hp. apply (Register_again ws ps p); [done|done|].
    by apply (proj1 (Forall_forall _ _) Hps).
Qed.

Lemma Spatial_GetKnown_registered_witness :
  let ps := [mkPath "the_ville" "cafe" "kitchen" "stove";
             mkPath "the_ville" "park" "" "";
             mkPath "the_ville" "cafe" "kitchen" "stove"] in
  ∃ ws, RegisterAll ps NewSpatial = Some ws
    ∧ ∀ x, x ∈ GetKnown ws (mkPath "the_ville" "" "" "") PathLevelSector
           ↔ registeredUnder ps (mkPath "the_ville" "" "" "") PathLevelSector x.
Proof.
  intros ps.
  assert (Hrun : RegisterAll ps NewSpatial
                 = Some (default ∅ (RegisterAll ps NewSpatial))).
  { vm_compute. reflexivity. }
  exists (default ∅ (RegisterAll ps NewSpatial)). split; [exact Hrun|].
  destruct (Spatial_GetKnown_registered ps _ Hrun) as (Hknown & _).
  apply (Hknown (mkPath "the_ville" "" "" "") PathLevelSector).
  unfold PathLevelSector. lia.
Defined.

Example GetKnown_sectors :
  (λ ws, GetKnown ws (mkPath "the_ville" "" "" "") PathLevelSector)
    <$> RegisterAll [mkPath "the_ville" "cafe" "kitchen" "stove";
                     mkPath "the_ville" "park" "" "";
                     mkPath "the_ville" "cafe" "kitchen" "stove"] NewSpatial
  = Some ["cafe"; "park"].
Proof. vm_compute. reflexivity. Qed.

(** A path with a gap makes [Register] panic on a fresh index. *)
Example Register_gap_panics :
  Register (mkPath "" "cafe" "" "") NewSpatial = None.
Proof. reflexivity. Qed.

(* --------------------------------------------------------------------- *)
(** ** The spatial index: registering into any index *)

Lemma Register_effect p ws ws' :
  Register p ws = Some ws' →
  (∀ w, hasWorld ws' w ↔ hasWorld ws w ∨ (w = world p ∧ w ≠ ""))
  ∧ (∀ w s, hasSector ws' w s
            ↔ hasSector ws w s ∨ (w = world p ∧ s = sector p ∧ s ≠ ""))
  ∧ (∀ w s a, hasArena ws' w s a
              ↔ hasArena ws w s a
                ∨ (w = world p ∧ s = sector p ∧ a = arena p ∧ a ≠ ""))
  ∧ (∀ w s a o, hasObject ws' w s a o
                ↔ hasObject ws w s a o
                  ∨ (w = world p ∧ s = sector p ∧ a = arena p
                     ∧ o = object p ∧ o ≠ "")).
Proof.
  unfold Register.
  destruct (registerWorld_spec p ws) as (ws1 & -> & W1 & S1). simpl.
  destruct (registerSector p ws1) as [ws2|] eqn:H2; [|done]. simpl.
  destruct (registerArena p ws2) as [ws3|] eqn:H3; [|done]. simpl.
  intros H4.
  destruct (registerSector_spec p ws1 (registerSector_returns _ _ _ H2))
    as (? & Heq2 & W2 & S2 & A2).
  rewrite H2 in Heq2. injection Heq2 as <-.
  destruct (registerArena_spec p ws2 (registerArena_returns _ _ _ H3))
    as (? & Heq3 & W3 & S3 & A3 & O3).
  rewrite H3 in Heq3. injection Heq3 as <-.
  destruct (registerObject_spec p ws3 (registerObject_returns _ _ _ H4))
    as (? & Heq4 & W4 & S4 & A4 & O4).
  rewrite H4 in Heq4. injection Heq4 as <-.
  assert (HS1 : ∀ w s, hasSector ws1 w s ↔ hasSector ws w s).
  { intros w s. unfold hasSector. by rewrite S1. }
  assert (HA1 : ∀ w s a, hasArena ws1 w s a ↔ hasArena ws w s a).
  { intros w s a. unfold hasArena, arenasOf. by rewrite S1. }
  assert (HO1 : ∀ w s a o, hasObject ws1 w s a o ↔ hasObject ws w s a o).
  { intros w s a o. unfold hasObject, objectsOf, arenasOf. by rewrite S1. }
  assert (HA2 : ∀ w s a, hasArena ws2 w s a ↔ hasArena ws1 w s a).
  { intros w s a. unfold hasArena. by rewrite A2. }
  assert (HO2 : ∀ w s a o, hasObject ws2 w s a o ↔ hasObject ws1 w s a o).
  { intros w s a o. unfold hasObject, objectsOf. by rewrite A2. }
  assert (HO3 : ∀ w s a o, hasObject ws3 w s a o ↔ hasObject ws2 w s a o).
  { intros w s a o. unfold hasObject. by rewrite O3. }
  split; [|split; [|split]].
  - intros w. rewrite W4, W3, W2, W1. done.
  - intros w s. rewrite S4, S3, S2, HS1. done.
  - intros w s a. rewrite A4, A3, HA2, HA1. done.
  - intros w s a o. rewrite O4, HO3, HO2, HO1. done.
Qed.

(** X6. Registration into any index, fresh or loaded, never removes a name:
    whatever [GetKnown] listed before a call of [Register] that returns, it
    lists afterwards; and it then lists every segment of the registered
    path that is set, under the path's own prefix. *)
Theorem Register_monotone (p : Path) (ws ws' : Worlds) :
  Register p ws = Some ws' →
  (∀ q L x, x ∈ GetKnown ws q L → x ∈ GetKnown ws' q L)
  ∧ (∀ L x, Get p L = Some x → x ≠ "" → x ∈ GetKnown ws' p L).
Proof.
  intros (W & S & A & O)%Register_effect. split.
  - intros q L x. rewrite !GetKnown_elem, W, S, A, O. tauto.
  - intros L x HL Hx. rewrite GetKnown_elem, W, S, A, O.
    unfold Get, PathLevelWorld, PathLevelSector, PathLevelArena,
      PathLevelObject in HL.
    repeat case_decide; try done; injection HL as <-; subst L.
    + left. split; [lia|]. split; [lia|]. by right.
    + right; left. split; [done|]. by right.
    + right; right; left. split; [done|]. by right.
    + right; right; right. split; [lia|]. by right.
Qed.

Lemma Register_monotone_witness :
  ∃ ws', Register (mkPath "the_ville" "cafe" "" "")
           {["the_ville" := {["park" := ∅]}]} = Some ws'
    ∧ "park" ∈ GetKnown ws' (mkPath "the_ville" "" "" "") PathLevelSector
    ∧ "cafe" ∈ GetKnown ws' (mkPath "the_ville" "cafe" "" "") PathLevelSector.
Proof.
  set (ws := ({["the_ville" := {["park" := ∅]}]} : Worlds)).
  set (p := mkPath "the_ville" "cafe" "" "").
  assert (Hrun : Register p ws = Some (default ∅ (Register p ws))).
  { vm_compute. reflexivity. }
  exists (default ∅ (Register p ws)). split; [exact Hrun|].
  destruct (Register_monotone p ws _ Hrun) as [Hold Hnew]. split.
  - apply Hold. apply (bool_decide_unpack _). vm_compute. reflexivity.
  - apply (Hnew PathLevelSector); [reflexivity|done].
Defined.

(* --------------------------------------------------------------------- *)
(** ** The associative store *)

Lemma addEvents_events calls : ∀ store,
  let '(store', ids) := addEvents calls store in
  ids = (λ i, len (nodes store) + Z.of_nat i) <$> seq 0 (length calls)
  ∧ events store' = (reverse ids ++ events store)%list
  ∧ length (nodes store') = (length (nodes store) + length calls)%nat.
Proof.
  induction calls as [|c calls IH]; intros store; simpl.
  { split; [done|]. split; [done|]. lia. }
  specialize (IH (addEvent store c).1).
  unfold addEvent in *. simpl in *.
  destruct (addEvents calls _) as [store' ids].
  destruct IH as (Hids & Hev & Hlen).
  split; [|split].
  - f_equal; [unfold len; lia|]. rewrite Hids.
    rewrite <- fmap_S_seq, <- list_fmap_compose.
    apply list_fmap_ext. intros _ i _. simpl. unfold len.
    rewrite length_app. simpl. lia.
  - rewrite Hev, reverse_cons, <- app_assoc. done.
  - rewrite Hlen, length_app. simpl. lia.
Qed.

(** C7. After [N] calls of [AddEvent] on a freshly created store,
    [GetLatestEventIds] has length [N]; it lists the ids the calls returned,
    newest first, which are [N, N-1, ..., 1]: strictly decreasing, without
    repetition, and none of them 0. *)
Theorem GetLatestEventIds_after_AddEvents
    (embeddings : gmap string (list Qc))
    (kwStrengthEvents kwStrengthThoughts : gmap string Z)
    (calls : list EventCall) :
  let '(store, ids) :=
    addEvents calls (NewAssociative embeddings kwStrengthEvents kwStrengthThoughts) in
  let latest := GetLatestEventIds store in
  length latest = length calls
  ∧ ids = idsUpTo (length calls)
  ∧ latest = reverse ids
  ∧ Sorted Z.gt latest
  ∧ NoDup latest
  ∧ Forall (λ id, id ≠ 0) latest.
Proof.
  pose proof (addEvents_events calls
                (NewAssociative embeddings kwStrengthEvents kwStrengthThoughts)) as H.
  destruct (addEvents calls _) as [store ids]. simpl in H.
  destruct H as (Hids & Hev & _). rewrite app_nil_r in Hev.
  unfold GetLatestEventIds. rewrite Hev.
  assert (Hup : ids = idsUpTo (length calls)).
  { rewrite Hids. unfold idsUpTo. rewrite <- fmap_S_seq, <- list_fmap_compose.
    apply list_fmap_ext. intros _ i _. simpl. unfold len. simpl. lia. }
  assert (Hsorted : ∀ n, Sorted Z.gt (reverse (idsUpTo n))).
  { intros n. unfold idsUpTo. induction n as [|n IHn]; [constructor|].
    rewrite seq_S, fmap_app, reverse_app. simpl.
    constructor; [exact IHn|].
    destruct n as [|n]; [constructor|].
    rewrite seq_S, fmap_app, reverse_app. simpl. constructor. lia. }
  split; [|split; [|split; [|split; [|split]]]].
  - rewrite length_reverse, Hup. unfold idsUpTo.
    by rewrite length_fmap, length_seq.
  - exact Hup.
  - done.
  - rewrite Hup. apply Hsorted.
  - rewrite reverse_Permutation, Hup. unfold idsUpTo.
    apply NoDup_fmap_2; [intros ?? ?; lia|]. apply NoDup_seq.
  - rewrite reverse_Permutation, Hup. unfold idsUpTo.
    apply Forall_fmap, Forall_forall. intros i Hi%elem_of_seq. simpl. lia.
Qed.

Lemma AddEvent_TypeCount store spo description keywords importance valence
    evidence created expiration embeddingKey embedding :
  TypeCount (AddEvent store spo description keywords importance valence
               evidence created expiration embeddingKey embedding).2
  = len (events store).
Proof. reflexivity. Qed.

Lemma AddThought_TypeCount store spo description keywords importance valence
    evidence created expiration embeddingKey embedding r :
  AddThought store spo description keywords importance valence evidence
    created expiration embeddingKey embedding = Some r →
  TypeCount r.2 = len (thoughts store).
Proof.
  unfold AddThought. destruct (maxEvidenceDepth store evidence 0); [|done].
  simpl. by intros [= <-].
Qed.

Lemma AddChat_TypeCount store spo description keywords importance valence
    chat created expiration embeddingKey embedding :
  TypeCount (AddChat store spo description keywords importance valence
               chat created expiration embeddingKey embedding).2
  = len (thoughts store).
Proof. reflexivity. Qed.

(** C6 fails for [AddChat]: its type-ordinal is the number of thoughts in
    the store, whatever the number of chats. On a store that holds one
    thought and no chat, the first chat node gets type-ordinal 1 where the
    number of existing chats is 0. [AddEvent] and [AddThought] count their
    own type (the lemmas above). *)
Theorem AddChat_TypeCount_counts_thoughts :
  (∀ store spo description keywords importance valence chat created
     expiration embeddingKey embedding,
     TypeCount (AddChat store spo description keywords importance valence
                  chat created expiration embeddingKey embedding).2
     = len (thoughts store))
  ∧ ∃ store, storeWithThought = Some store
      ∧ len (chats store) = 0
      ∧ len (thoughts store) = 1
      ∧ TypeCount (firstChat store) = 1.
Proof.
  split.
  - intros. apply AddChat_TypeCount.
  - eexists. split; [reflexivity|]. repeat split.
Qed.

Lemma collectKeywordIds_elem kwTo subject predicate object id :
  id ∈ collectKeywordIds kwTo subject predicate object
  ↔ id ∈ default [] (kwTo !! subject)
    ∨ id ∈ default [] (kwTo !! predicate)
    ∨ id ∈ default [] (kwTo !! object).
Proof.
  unfold collectKeywordIds.
  assert (Hin : ∀ (ids : list NodeId) (ret : gset NodeId),
            id ∈ foldl (λ ret id, {[id]} ∪ ret) ret ids ↔ id ∈ ret ∨ id ∈ ids).
  { induction ids as [|x ids IH]; intros ret; simpl; [set_solver|].
    rewrite IH. set_solver. }
  simpl.
  destruct (kwTo !! subject) as [l1|]; destruct (kwTo !! predicate) as [l2|];
    destruct (kwTo !! object) as [l3|]; simpl; rewrite ?Hin; set_solver.
Qed.

(** What [RetrieveRelevantEvents] returns: the union of the entries of the
    thought keyword index, the same set as [RetrieveRelevantThoughts]. *)
Lemma RetrieveRelevantEvents_reads_thoughts store subject predicate object :
  RetrieveRelevantEvents store subject predicate object
  = thoughtIndexUnion store subject predicate object
  ∧ RetrieveRelevantEvents store subject predicate object
    = RetrieveRelevantThoughts store subject predicate object.
Proof.
  split; [|reflexivity].
  apply set_eq. intros id. unfold RetrieveRelevantEvents, thoughtIndexUnion.
  rewrite collectKeywordIds_elem. set_solver.
Qed.

(** C5 fails: after one event with the keywords "bob" and "reading" was
    added to a fresh store, the event keyword index lists node 1 under
    "bob", and [RetrieveRelevantEvents("bob", "is", "reading")] is empty. *)
Theorem RetrieveRelevantEvents_misses_events :
  kwToEvents storeWithEvent !! "bob" = Some [1]
  ∧ eventIndexUnion storeWithEvent "bob" "is" "reading" = {[1]}
  ∧ RetrieveRelevantEvents storeWithEvent "bob" "is" "reading" = ∅.
Proof.
  split; [|split].
  - vm_compute. reflexivity.
  - apply set_eq. intros id. unfold eventIndexUnion.
    replace (kwToEvents storeWithEvent !! "bob") with (Some [1:NodeId])
      by (vm_compute; reflexivity).
    replace (kwToEvents storeWithEvent !! "is") with (@None (list NodeId))
      by (vm_compute; reflexivity).
    replace (kwToEvents storeWithEvent !! "reading") with (Some [1:NodeId])
      by (vm_compute; reflexivity).
    set_solver.
  - apply set_eq. intros id.
    rewrite (proj1 (RetrieveRelevantEvents_reads_thoughts _ _ _ _)).
    unfold thoughtIndexUnion. simpl. rewrite !lookup_empty. set_solver.
Qed.

(* --------------------------------------------------------------------- *)
(** ** The associative store: shape, lookups and indices *)

Lemma indexKeywords_lookup id keywords : ∀ kwTo kw,
  indexKeywords id keywords kwTo !! kw
  = if decide (occurrences kw keywords = 0%nat) then kwTo !! kw
    else Some (replicate (occurrences kw keywords) id
               ++ default [] (kwTo !! kw))%list.
Proof.
  unfold indexKeywords, occurrences.
  induction keywords as [|k keywords IH]; intros kwTo kw; simpl; [done|].
  rewrite IH. rewrite filter_cons.
  destruct (decide (k = kw)) as [->|Hne]; simpl.
  - assert (Hstep : ∀ m : gmap string (list NodeId),
              match m !! kw with
              | Some kws => <[kw := id :: kws]> m
              | None => <[kw := [id]]> m
              end !! kw = Some (id :: default [] (m !! kw))).
    { intros m. destruct (m !! kw) eqn:E; by rewrite lookup_insert_eq. }
    rewrite Hstep. simpl.
    set (c := length (filter (λ k, k = kw) keywords)).
    destruct (decide (c = 0%nat)) as [H0|H0].
    + by rewrite H0.
    + f_equal. generalize (default [] (kwTo !! kw)) as d.
      clearbody c. clear. intros d.
      induction c as [|c IHc]; simpl; [done|]. by rewrite IHc.
  - assert (Hstep : ∀ m : gmap string (list NodeId),
              match m !! k with
              | Some kws => <[k := id :: kws]> m
              | None => <[k := [id]]> m
              end !! kw = m !! kw).
    { intros m. destruct (m !! k); by rewrite lookup_insert_ne. }
    by rewrite Hstep.
Qed.

Lemma occurrences_pos kw keywords :
  occurrences kw keywords ≠ 0%nat ↔ kw ∈ keywords.
Proof.
  unfold occurrences. induction keywords as [|k keywords IH]; simpl.
  { split; [done|]. by intros ?%elem_of_nil. }
  rewrite filter_cons, elem_of_cons.
  destruct (decide (k = kw)) as [->|Hne]; simpl.
  - split; [by left|lia].
  - rewrite IH. split; [by right|]. intros [?|?]; [congruence|done].
Qed.

Lemma typed_list_add_same (ns : list ConceptNode) (l : list NodeId)
    (node : ConceptNode) (T : NodeType) :
  (∀ id, id ∈ l ↔ ∃ c, index ns id = Some c ∧ Type_ c = T) →
  Type_ node = T →
  ∀ id, id ∈ len ns :: l ↔ ∃ c, index (ns ++ [node]) id = Some c ∧ Type_ c = T.
Proof.
  intros Hl HT id. rewrite elem_of_cons, index_app_one, Hl.
  case_decide as He.
  - split; [intros _; by exists node|by left].
  - split; [intros [?|?]; [done|done]|by right].
Qed.

Lemma typed_list_add_other (ns : list ConceptNode) (l : list NodeId)
    (node : ConceptNode) (T : NodeType) :
  (∀ id, id ∈ l ↔ ∃ c, index ns id = Some c ∧ Type_ c = T) →
  Type_ node ≠ T →
  ∀ id, id ∈ l ↔ ∃ c, index (ns ++ [node]) id = Some c ∧ Type_ c = T.
Proof.
  intros Hl HT id. rewrite index_app_one, Hl.
  case_decide as He; [|done].
  split.
  - intros (c & Hc%index_Some_lt & _). lia.
  - intros (c & [= <-] & Hc). done.
Qed.

Lemma Sorted_add (ns : list ConceptNode) (l : list NodeId) (T : NodeType) :
  (∀ id, id ∈ l ↔ ∃ c, index ns id = Some c ∧ Type_ c = T) →
  Sorted Z.gt l → Sorted Z.gt (len ns :: l).
Proof.
  intros Hl Hs. constructor; [done|].
  destruct l as [|id l]; constructor.
  destruct (proj1 (Hl id)) as (c & Hc%index_Some_lt & _); [by left|]. lia.
Qed.

Lemma indexOK_add kwTo ids id keywords :
  indexOK kwTo ids →
  indexOK (indexKeywords id (ToLower <$> keywords) kwTo) (id :: ids).
Proof.
  intros Hok kw listed. rewrite indexKeywords_lookup.
  case_decide as Hocc.
  - intros (Hne & Hin & Hkey)%Hok. split; [done|]. split; [|done].
    intros x Hx. apply elem_of_cons. right. by apply Hin.
  - intros [= <-]. split; [|split].
    + destruct (occurrences kw (ToLower <$> keywords)); [done|]. done.
    + intros x [Hx|Hx]%elem_of_app.
      * apply elem_of_replicate in Hx as [-> _]. by left.
      * apply elem_of_cons. right.
        destruct (kwTo !! kw) as [old|] eqn:E; [|by apply elem_of_nil in Hx].
        by apply (Hok kw old E).
    + apply occurrences_pos, list_elem_of_fmap in Hocc as (k & -> & _).
      by exists k.
Qed.

Lemma listedFor_add (ns : list ConceptNode) (node : ConceptNode)
    (ids : list NodeId) (kw : string) (T : NodeType) :
  (∀ id, id ∈ ids ↔ ∃ c, index ns id = Some c ∧ Type_ c = T) →
  listedFor (ns ++ [node]) kw ids = listedFor ns kw ids.
Proof.
  intros Hl. unfold listedFor.
  assert (Hin : ∀ id, id ∈ ids → id ≠ len ns).
  { intros id (c & Hc%index_Some_lt & _)%Hl. lia. }
  clear Hl. induction ids as [|id ids IH]; [done|]. simpl.
  rewrite index_app_one, decide_False by (apply Hin; by left).
  f_equal. apply IH. intros id' Hid'. apply Hin. by right.
Qed.

Lemma indexExact_keep (ns : list ConceptNode) (node : ConceptNode)
    kwTo (ids : list NodeId) (T : NodeType) :
  (∀ id, id ∈ ids ↔ ∃ c, index ns id = Some c ∧ Type_ c = T) →
  indexExact ns kwTo ids → indexExact (ns ++ [node]) kwTo ids.
Proof. intros Hl Hex kw. by rewrite (listedFor_add _ _ _ _ T). Qed.

Lemma indexExact_add (ns : list ConceptNode) (node : ConceptNode)
    kwTo (ids : list NodeId) (T : NodeType) :
  (∀ id, id ∈ ids ↔ ∃ c, index ns id = Some c ∧ Type_ c = T) →
  indexExact ns kwTo ids →
  indexExact (ns ++ [node]) (indexKeywords (len ns) (Keywords node) kwTo)
    (len ns :: ids).
Proof.
  intros Hl Hex kw. unfold listedFor. simpl.
  rewrite index_app_one, decide_True by done.
  fold (listedFor (ns ++ [node]) kw ids).
  rewrite (listedFor_add _ _ _ _ T), <- Hex by done.
  rewrite indexKeywords_lookup. case_decide as Hocc; [by rewrite Hocc|done].
Qed.

Lemma storeOK_New embeddings kwStrengthEvents kwStrengthThoughts :
  storeOK (NewAssociative embeddings kwStrengthEvents kwStrengthThoughts).
Proof.
  unfold storeOK, GetNode. simpl.
  assert (Hnone : ∀ (T : NodeType) id,
            T ≠ NodeTypeInvalid →
            id ∈ ([] : list NodeId)
            ↔ ∃ c, index [zeroNode] id = Some c ∧ Type_ c = T).
  { intros T id HT. split; [by intros ?%elem_of_nil|].
    intros (c & Hc & Hty). pose proof (index_Some_lt _ _ _ Hc) as Hr.
    unfold len in Hr. simpl in Hr. assert (id = 0) as -> by lia.
    injection Hc as <-. done. }
  split; [by exists zeroNode|].
  split.
  { intros id c Hc%index_Some_lt Hpos. unfold len in Hc. simpl in Hc. lia. }
  split; [by intros id; apply Hnone|].
  split; [by intros id; apply Hnone|].
  split; [by intros id; apply Hnone|].
  do 3 (split; [constructor|]).
  assert (Hidx : ∀ ids, indexOK (∅ : gmap string (list NodeId)) ids).
  { intros ids kw listed Hl. by rewrite lookup_empty in Hl. }
  do 3 (split; [apply Hidx|]). by repeat split.
Qed.

Lemma storeOK_zero_add (ns : list ConceptNode) (node : ConceptNode) :
  (∃ c, index ns 0 = Some c ∧ Type_ c = NodeTypeInvalid) →
  ∃ c, index (ns ++ [node]) 0 = Some c ∧ Type_ c = NodeTypeInvalid.
Proof.
  intros (c & Hc & Hty). pose proof (index_Some_lt _ _ _ Hc) as Hlt.
  exists c. rewrite index_app_one.
  by rewrite decide_False by lia.
Qed.

Lemma storeOK_ids_add (ns : list ConceptNode) (node : ConceptNode) :
  (∀ id c, index ns id = Some c → 0 < id → Id c = id) →
  Id node = len ns →
  ∀ id c, index (ns ++ [node]) id = Some c → 0 < id → Id c = id.
Proof.
  intros Hids Hid id c. rewrite index_app_one.
  case_decide as He; [by intros [= <-] _; subst|apply Hids].
Qed.

Ltac storeOK_add Hok :=
  destruct Hok as
    (Hzero & Hids & Hev & Hth & Hch & Sev & Sth & Sch & Iev & Ith & Ich
     & Eev & Eth & Ech);
  unfold storeOK, GetNode in *; simpl;
  refine (conj _ (conj _ (conj _ (conj _ (conj _ (conj _ (conj _ (conj _
            (conj _ (conj _ (conj _ (conj _ (conj _ _)))))))))))));
  [ by apply storeOK_zero_add
  | by apply storeOK_ids_add
  | first [ by apply typed_list_add_same | by apply typed_list_add_other ]
  | first [ by apply typed_list_add_same | by apply typed_list_add_other ]
  | first [ by apply typed_list_add_same | by apply typed_list_add_other ]
  | first [ by eapply Sorted_add | done ]
  | first [ by eapply Sorted_add | done ]
  | first [ by eapply Sorted_add | done ]
  | first [ by apply indexOK_add | done ]
  | first [ by apply indexOK_add | done ]
  | first [ by apply indexOK_add | done ]
  | first [ by eapply (indexExact_add _ (mkConceptNode _ _ _ _ _ _ _ _ _ _ _ _ _ _ _ _ _ _))
          | by eapply indexExact_keep ]
  | first [ by eapply (indexExact_add _ (mkConceptNode _ _ _ _ _ _ _ _ _ _ _ _ _ _ _ _ _ _))
          | by eapply indexExact_keep ]
  | first [ by eapply (indexExact_add _ (mkConceptNode _ _ _ _ _ _ _ _ _ _ _ _ _ _ _ _ _ _))
          | by eapply indexExact_keep ] ].

Lemma storeOK_AddEvent store spo description keywords importance valence
    evidence created expiration embeddingKey embedding :
  storeOK store →
  storeOK (AddEvent store spo description keywords importance valence
             evidence created expiration embeddingKey embedding).1.
Proof. intros Hok. unfold AddEvent. storeOK_add Hok. Qed.

Lemma storeOK_AddThought store spo description keywords importance valence
    evidence created expiration embeddingKey embedding store' node :
  storeOK store →
  AddThought store spo description keywords importance valence
    evidence created expiration embeddingKey embedding = Some (store', node) →
  storeOK store'.
Proof.
  intros Hok. unfold AddThought.
  destruct (maxEvidenceDepth store evidence 0) as [maxDepth|]; [|done].
  intros [= <- <-]. storeOK_add Hok.
Qed.

Lemma storeOK_AddChat store spo description keywords importance valence
    chat created expiration embeddingKey embedding :
  storeOK store →
  storeOK (AddChat store spo description keywords importance valence
             chat created expiration embeddingKey embedding).1.
Proof. intros Hok. unfold AddChat. storeOK_add Hok. Qed.

Lemma built_shape (store : Associative) : built store → storeOK store.
Proof.
  induction 1 as [| | |].
  - apply storeOK_New.
  - by apply storeOK_AddEvent.
  - by eapply storeOK_AddThought.
  - by apply storeOK_AddChat.
Qed.

Lemma listedFor_elem (ns : list ConceptNode) (kw : string)
    (ids : list NodeId) (id : NodeId) :
  id ∈ listedFor ns kw ids
  ↔ id ∈ ids ∧ ∃ c, index ns id = Some c ∧ kw ∈ Keywords c.
Proof.
  unfold listedFor. rewrite list_elem_of_In, in_flat_map.
  setoid_rewrite <- list_elem_of_In. split.
  - intros (x & Hx & Hin). destruct (index ns x) as [c|] eqn:E;
      [|by apply elem_of_nil in Hin].
    apply elem_of_replicate in Hin as [-> Hocc%occurrences_pos]. eauto.
  - intros (Hin & c & Hc & Hkw). exists id. split; [done|]. rewrite Hc.
    apply elem_of_replicate. split; [done|]. by apply occurrences_pos.
Qed.

Lemma listedFor_first (ns : list ConceptNode) (kw : string)
    (ids : list NodeId) (x : NodeId) (rest : list NodeId) :
  Sorted Z.gt ids →
  listedFor ns kw ids = x :: rest →
  ∀ y, y ∈ listedFor ns kw ids → y <= x.
Proof.
  intros Hs%Sorted_StronglySorted; [|intros a b c; lia].
  induction Hs as [|a ids Hs IH Hall]; [done|].
  unfold listedFor. simpl. fold (listedFor ns kw ids).
  destruct (index ns a) as [c|] eqn:E; simpl; [|exact IH].
  destruct (occurrences kw (Keywords c)) as [|n]; simpl; [exact IH|].
  intros [= <- _] y [->|[Hy|Hy]%elem_of_app]%elem_of_cons; [lia| |].
  - apply elem_of_replicate in Hy as [-> _]. lia.
  - apply listedFor_elem in Hy as [Hy _].
    rewrite Forall_forall in Hall. specialize (Hall y Hy). lia.
Qed.

Lemma lowerAscii_not_capital (c : ascii) :
  ¬ (65 <= nat_of_ascii (lowerAscii c) <= 90)%nat.
Proof.
  unfold lowerAscii. case_decide as Hc; [|done].
  rewrite nat_ascii_embedding by lia. lia.
Qed.

Lemma ToLower_no_capital (s : string) : ¬ hasCapital (ToLower s).
Proof.
  induction s as [|c s IH]; simpl; [tauto|].
  pose proof (lowerAscii_not_capital c). tauto.
Qed.

Lemma ToLower_ASCII (s : string) : isASCII s = true → isASCII (ToLower s) = true.
Proof.
  induction s as [|c s IH]; [done|]. simpl.
  intros [Hc Hs]%andb_true_iff. apply andb_true_iff. split; [|by apply IH].
  apply bool_decide_eq_true in Hc. apply bool_decide_eq_true.
  unfold lowerAscii. case_decide as Hcap; [|done].
  rewrite nat_ascii_embedding by lia. lia.
Qed.

Lemma builtASCII_built (store : Associative) : builtASCII store → built store.
Proof.
  induction 1 as [| | |].
  - apply built_New.
  - by apply built_AddEvent.
  - by eapply built_AddThought.
  - by apply built_AddChat.
Qed.

Lemma builtASCII_keywords (store : Associative) :
  builtASCII store → ∀ c, c ∈ nodes store → allASCII (Keywords c).
Proof.
  assert (Hlower : ∀ keywords, allASCII keywords →
            allASCII (ToLower <$> keywords)).
  { intros keywords Hall. apply Forall_fmap.
    eapply Forall_impl; [exact Hall|]. intros kw. apply ToLower_ASCII. }
  induction 1 as [| store ? ? keywords ? ? ? ? ? ? ? Hb IH Hall
                  | store ? ? keywords ? ? ? ? ? ? ? store' node Hb IH Hall Hadd
                  | store ? ? keywords ? ? ? ? ? ? ? Hb IH Hall]; intros c.
  - simpl. intros ->%list_elem_of_singleton. constructor.
  - simpl. intros [Hc| ->%list_elem_of_singleton]%elem_of_app; [by apply IH|].
    by apply Hlower.
  - unfold AddThought in Hadd.
    destruct (maxEvidenceDepth store _ 0) as [maxDepth|]; [|done].
    injection Hadd as <- <-. simpl.
    intros [Hc| ->%list_elem_of_singleton]%elem_of_app; [by apply IH|].
    by apply Hlower.
  - simpl. intros [Hc| ->%list_elem_of_singleton]%elem_of_app; [by apply IH|].
    by apply Hlower.
Qed.

Lemma index_elem {A} (l : list A) (i : Z) (x : A) : index l i = Some x → x ∈ l.
Proof. unfold index. case_decide; [|done]. apply list_elem_of_lookup_2. Qed.

(** A key of an index that lists exactly what the nodes carry is a keyword
    of one of the nodes. *)
Lemma indexed_key_is_keyword (ns : list ConceptNode)
    (kwTo : gmap string (list NodeId)) (ids : list NodeId) (kw : string) :
  indexOK kwTo ids → indexExact ns kwTo ids → is_Some (kwTo !! kw) →
  (∃ c, c ∈ ns ∧ kw ∈ Keywords c) ∧ ¬ hasCapital kw.
Proof.
  intros Hok Hexact [listed Hkw].
  destruct (Hok kw listed Hkw) as (Hne & _ & k & ->).
  split; [|apply ToLower_no_capital].
  specialize (Hexact (ToLower k)). rewrite Hkw in Hexact. simpl in Hexact.
  destruct listed as [|id listed]; [done|].
  assert (Hid : id ∈ listedFor ns (ToLower k) ids)
    by (rewrite <- Hexact; by left).
  apply listedFor_elem in Hid as (_ & c & Hc & Hin).
  exists c. split; [by eapply index_elem|done].
Qed.

(** X7. The shape of the store is an invariant of the program: every store
    made by [NewAssociative] and grown by [AddEvent], [AddThought] and
    [AddChat] with keywords of ASCII bytes keeps index 0 for the unused
    node, gives each node its index as id, lists in [events], [thoughts]
    and [chats] exactly the ids of the nodes of that type, newest first,
    and lists in each keyword index, under each lower-cased keyword,
    exactly the ids of the nodes of that type that carry the keyword; the
    keys of the indices are lower-case, ASCII bytes without a capital. *)
Theorem builtASCII_storeOK (store : Associative) :
  builtASCII store → storeOK store ∧ lowerKeys store.
Proof.
  intros Hb. pose proof (built_shape _ (builtASCII_built _ Hb)) as Hok.
  split; [exact Hok|].
  destruct Hok as (_ & _ & _ & _ & _ & _ & _ & _ & He & Ht & Hc
                   & Hee & Hte & Hce).
  assert (Hkey : ∀ kwTo ids kw,
            indexOK kwTo ids → indexExact (nodes store) kwTo ids →
            is_Some (kwTo !! kw) → isASCII kw = true ∧ ¬ hasCapital kw).
  { intros kwTo ids kw H1 H2 H3.
    destruct (indexed_key_is_keyword _ _ _ _ H1 H2 H3)
      as [(c & Hin & Hkw) Hcap].
    split; [|done].
    pose proof (builtASCII_keywords _ Hb c Hin) as Hall.
    unfold allASCII in Hall. rewrite Forall_forall in Hall. by apply Hall. }
  intros kw [H|[H|H]]; eauto.
Qed.

Lemma builtASCII_storeOK_witness :
  builtASCII storeWithEvent
  ∧ storeOK storeWithEvent ∧ lowerKeys storeWithEvent.
Proof.
  assert (Hb : builtASCII storeWithEvent).
  { unfold storeWithEvent, addEvent.
    apply builtASCII_AddEvent; [apply builtASCII_New|].
    repeat constructor. }
  split; [exact Hb|]. apply (builtASCII_storeOK storeWithEvent). exact Hb.
Defined.

(** X8. [RetrieveRelevantThoughts] on a store the program has built returns
    exactly the ids of the thought nodes that carry the subject, the
    predicate or the object, as given, among their (lower-cased) keywords. *)
Theorem RetrieveRelevantThoughts_spec (store : Associative)
    (subject predicate object : string) (id : NodeId) :
  built store →
  id ∈ RetrieveRelevantThoughts store subject predicate object
  ↔ ∃ c, GetNode store id = Some c ∧ Type_ c = NodeTypeThought
         ∧ (subject ∈ Keywords c ∨ predicate ∈ Keywords c
            ∨ object ∈ Keywords c).
Proof.
  intros Hok%built_shape.
  destruct Hok as (_ & _ & _ & Hth & _ & _ & _ & _ & _ & _ & _ & _ & Eth & _).
  unfold RetrieveRelevantThoughts. rewrite collectKeywordIds_elem, !Eth.
  rewrite !listedFor_elem, Hth. unfold GetNode. split.
  - intros [H|[H|H]]; destruct H as ((c & Hc & Hty) & c' & Hc' & Hkw);
      exists c; (split; [done|]); (split; [done|]);
      assert (c' = c) as -> by congruence; tauto.
  - intros (c & Hc & Hty & [Hkw|[Hkw|Hkw]]);
      [left|right; left|right; right]; eauto 10.
Qed.

Lemma RetrieveRelevantThoughts_spec_witness :
  built (default freshStore storeWithThought)
  ∧ (1 ∈ RetrieveRelevantThoughts (default freshStore storeWithThought)
           "bob" "likes" "tea"
     ↔ ∃ c, GetNode (default freshStore storeWithThought) 1 = Some c
            ∧ Type_ c = NodeTypeThought
            ∧ ("bob" ∈ Keywords c ∨ "likes" ∈ Keywords c
               ∨ "tea" ∈ Keywords c)).
Proof.
  assert (Hb : built (default freshStore storeWithThought)).
  { eapply (built_AddThought freshStore (mkSPO "bob" "likes" "tea")
              "bob likes tea" ["bob"; "tea"] 4 1 [] 1000 None "bob likes tea"
              [1%Qc; 0%Qc] _ _ (built_New ∅ ∅ ∅)).
    reflexivity. }
  split; [exact Hb|].
  apply (RetrieveRelevantThoughts_spec (default freshStore storeWithThought)).
  exact Hb.
Defined.

(** X9. [GetLastChat] on a store the program has built never panics. When it
    reports a chat, that is the newest chat node that carries [name], as
    given, among its keywords; when it reports none, no chat node does.
    The keywords are stored lower-cased and [name] is looked up as given,
    so nothing is ever found under a name with a capital letter. *)
Theorem GetLastChat_spec (store : Associative) (name : string) :
  built store →
  ∃ id found, GetLastChat store name = Some (id, found)
    ∧ (found = true →
         (∃ c, GetNode store id = Some c ∧ Type_ c = NodeTypeChat
               ∧ name ∈ Keywords c)
         ∧ ∀ id' c', GetNode store id' = Some c' → Type_ c' = NodeTypeChat →
             name ∈ Keywords c' → id' <= id)
    ∧ (found = false →
         id = 0 ∧ ∀ id' c', GetNode store id' = Some c' →
                    Type_ c' = NodeTypeChat → name ∉ Keywords c')
    ∧ (hasCapital name → found = false).
Proof.
  intros Hok%built_shape.
  destruct Hok as (_ & _ & _ & _ & Hch & _ & _ & Sch & _ & _ & Ich & _ & _ & Ech).
  unfold GetLastChat, GetNode in *. specialize (Ech name).
  destruct (kwToChats store !! name) as [listed|] eqn:E; simpl in Ech.
  - destruct (Ich _ _ E) as (Hne & _ & k & ->).
    destruct listed as [|id rest]; [done|]. exists id, true.
    split; [done|]. split; [|split; [done|]].
    + intros _. symmetry in Ech.
      pose proof (listedFor_first _ _ _ _ _ Sch Ech) as Hmax.
      assert (Hid : id ∈ listedFor (nodes store) (ToLower k) (chats store))
        by (rewrite Ech; by left).
      apply listedFor_elem in Hid as [Hin (c & Hc & Hkw)]. split.
      * exists c. split; [done|]. split; [|done].
        apply Hch in Hin as (c0 & Hc0 & Hty). congruence.
      * intros id' c' Hc' Hty' Hkw'. apply Hmax, listedFor_elem.
        split; [apply Hch|]; eauto.
    + intros Hcap. by apply ToLower_no_capital in Hcap.
  - exists 0, false. split; [done|]. split; [done|]. split; [|done].
    intros _. split; [done|]. intros id' c' Hc' Hty' Hkw'.
    assert (Hin : id' ∈ listedFor (nodes store) name (chats store)).
    { apply listedFor_elem. split; [apply Hch|]; eauto. }
    rewrite <- Ech in Hin. by apply elem_of_nil in Hin.
Qed.

Lemma GetLastChat_spec_witness :
  built storeWithChat
  ∧ ∃ id found, GetLastChat storeWithChat "Eve" = Some (id, found)
      ∧ (found = true →
           (∃ c, GetNode storeWithChat id = Some c ∧ Type_ c = NodeTypeChat
                 ∧ "Eve" ∈ Keywords c)
           ∧ ∀ id' c', GetNode storeWithChat id' = Some c' →
               Type_ c' = NodeTypeChat → "Eve" ∈ Keywords c' → id' <= id)
      ∧ (found = false →
           id = 0 ∧ ∀ id' c', GetNode storeWithChat id' = Some c' →
                      Type_ c' = NodeTypeChat → "Eve" ∉ Keywords c')
      ∧ (hasCapital "Eve" → found = false).
Proof.
  assert (Hb : built storeWithChat).
  { unfold storeWithChat. apply built_AddChat, built_New. }
  split; [exact Hb|]. apply (GetLastChat_spec storeWithChat "Eve"). exact Hb.
Defined.

(** The chat of Bob and Eve is found under "eve", not under "Eve". *)
Example GetLastChat_by_name :
  GetLastChat storeWithChat "Eve" = Some (0, false)
  ∧ GetLastChat storeWithChat "eve" = Some (1, true).
Proof. split; reflexivity. Qed.

Lemma GetLatestEventSPOs_fold (ns : list ConceptNode) (ids : list NodeId)
    (acc : gset SPO) :
  (∀ id, id ∈ ids → ∃ c, index ns id = Some c) →
  ∃ set, foldl (fun acc nodeId =>
                  events_ ← acc;
                  c ← index ns nodeId;
                  Some ({[SPOSummary c]} ∪ events_)) (Some acc) ids = Some set
    ∧ ∀ spo, spo ∈ set
        ↔ spo ∈ acc ∨ ∃ id c, id ∈ ids ∧ index ns id = Some c
                               ∧ SPOSummary c = spo.
Proof.
  revert acc. induction ids as [|id ids IH]; intros acc Hin; simpl.
  { exists acc. split; [done|]. intros spo. split; [by left|].
    intros [?|(id & c & []%elem_of_nil & _)]. done. }
  destruct (Hin id) as [c Hc]; [by left|]. rewrite Hc. simpl.
  destruct (IH ({[SPOSummary c]} ∪ acc)) as (set & -> & Hset).
  { intros id' Hid'. apply Hin. by right. }
  exists set. split; [done|]. intros spo. rewrite Hset, elem_of_union,
    elem_of_singleton. split.
  - intros [[->|?]|(id' & c' & Hid' & Hc' & Hs)]; [right|by left|right].
    + exists id, c. split; [by left|done].
    + exists id', c'. split; [by right|done].
  - intros [?|(id' & c' & [->|Hid']%elem_of_cons & Hc' & Hs)].
    + left. by right.
    + left. left. congruence.
    + right. eauto.
Qed.

(** X10. [GetLatestEventSPOs] on a store the program has built: a negative [n]
    panics (the slice expression [events[:n]]); otherwise the result holds
    exactly the triples of the first [n] ids of [events], the newest events,
    and of all events when there are fewer than [n]. *)
Theorem GetLatestEventSPOs_spec (store : Associative) (n : Z) :
  built store →
  (n < 0 → GetLatestEventSPOs store n = None)
  ∧ (0 <= n →
       ∃ set, GetLatestEventSPOs store n = Some set
         ∧ ∀ spo, spo ∈ set
             ↔ ∃ id c, id ∈ take (Z.to_nat n) (events store)
                       ∧ GetNode store id = Some c ∧ SPOSummary c = spo).
Proof.
  intros Hok%built_shape.
  destruct Hok as (_ & _ & Hev & _).
  unfold GetLatestEventSPOs, GetNode in *.
  pose proof (len_nonneg (events store)) as Hlen.
  set (m := if decide (len (events store) < n) then len (events store)
            else n).
  split.
  - intros Hn. apply decide_False. subst m. case_decide; lia.
  - intros Hn.
    assert (Hm : 0 <= m <= len (events store)).
    { subst m. case_decide; lia. }
    assert (Htake : take (Z.to_nat m) (events store)
                    = take (Z.to_nat n) (events store)).
    { subst m. case_decide as Hlt; [|done]. unfold len in *.
      rewrite !take_ge by lia. done. }
    rewrite decide_True by done. rewrite Htake.
    destruct (GetLatestEventSPOs_fold (nodes store)
                (take (Z.to_nat n) (events store)) ∅) as (set & -> & Hset).
    { intros id Hid%elem_of_take_elem. apply Hev in Hid as (c & Hc & _).
      eauto. }
    exists set. split; [done|]. intros spo. rewrite Hset.
    split; [intros [[]%elem_of_empty|?]; done|by right].
Qed.

Lemma GetLatestEventSPOs_spec_witness :
  built storeWithEvent
  ∧ (1 < 0 → GetLatestEventSPOs storeWithEvent 1 = None)
  ∧ (0 <= 1 →
       ∃ set, GetLatestEventSPOs storeWithEvent 1 = Some set
         ∧ ∀ spo, spo ∈ set
             ↔ ∃ id c, id ∈ take (Z.to_nat 1) (events storeWithEvent)
                       ∧ GetNode storeWithEvent id = Some c
                       ∧ SPOSummary c = spo).
Proof.
  assert (Hb : built storeWithEvent).
  { unfold storeWithEvent, addEvent. apply built_AddEvent, built_New. }
  split; [exact Hb|]. apply (GetLatestEventSPOs_spec storeWithEvent 1).
  exact Hb.
Defined.

Lemma maxEvidenceDepth_Some (store : Associative) (evidence : list NodeId) :
  Forall (isNodeIndex store) evidence →
  ∀ maxDepth,
  maxEvidenceDepth store evidence maxDepth
  = Some (foldr (λ id acc,
                   Z.max (default 0 (Depth <$> GetNode store id)) acc)
            maxDepth evidence).
Proof.
  unfold GetNode.
  induction 1 as [|id evidence Hid Hall IH]; intros maxDepth; simpl; [done|].
  apply index_is_Some in Hid as [c Hc]. rewrite Hc. simpl. rewrite IH.
  f_equal.
  assert (Hmax : (if decide (Depth c > maxDepth) then Depth c else maxDepth)
                 = Z.max (Depth c) maxDepth) by (case_decide; lia).
  rewrite Hmax. generalize (Depth c) as d. intros d. clear.
  induction evidence as [|x l IHl]; simpl; [done|]. rewrite IHl. lia.
Qed.

Lemma maxEvidenceDepth_None (store : Associative) (evidence : list NodeId) :
  ¬ Forall (isNodeIndex store) evidence →
  ∀ maxDepth, maxEvidenceDepth store evidence maxDepth = None.
Proof.
  induction evidence as [|id evidence IH]; intros Hno maxDepth; simpl.
  { destruct Hno. constructor. }
  destruct (index (nodes store) id) as [c|] eqn:E; simpl; [|done].
  apply IH. intros Hall. apply Hno. constructor; [|done].
  apply index_is_Some. by rewrite E.
Qed.

(** X11. [AddThought] returns exactly when every evidence id is an index of the
    node slice; otherwise it panics before the store is changed. When it
    returns, the thought's depth is one more than the largest depth among
    its evidence, and 1 without evidence or when no evidence node has a
    positive depth. *)
Theorem AddThought_depth (store : Associative) (spo : SPO)
    (description : string) (keywords : list string) (importance valence : Z)
    (evidence : list NodeId) (created : Time) (expiration : option Time)
    (embeddingKey : string) (embedding : list Qc) :
  match AddThought store spo description keywords importance valence
          evidence created expiration embeddingKey embedding with
  | Some (store', node) =>
      Forall (isNodeIndex store) evidence
      ∧ Depth node = 1 + deepest store evidence
      ∧ Evidence node = evidence
  | None => ¬ Forall (isNodeIndex store) evidence
  end.
Proof.
  unfold AddThought.
  destruct (decide (Forall (isNodeIndex store) evidence)) as [Hall|Hno].
  - by rewrite (maxEvidenceDepth_Some _ _ Hall).
  - by rewrite (maxEvidenceDepth_None _ _ Hno).
Qed.

(** An evidence id outside the node slice makes [AddThought] panic; a
    thought on top of the event 1 of [storeWithEvent] has depth 1, and a
    thought on top of that thought has depth 2. *)
Example AddThought_depth_examples :
  AddThought storeWithEvent (mkSPO "bob" "likes" "tea") "bob likes tea"
    ["bob"; "tea"] 4 1 [2] 1000 None "bob likes tea" [] = None
  ∧ ∃ s1 n1 s2 n2,
      AddThought storeWithEvent (mkSPO "bob" "likes" "tea") "bob likes tea"
        ["bob"; "tea"] 4 1 [1] 1000 None "bob likes tea" [] = Some (s1, n1)
      ∧ Depth n1 = 1
      ∧ AddThought s1 (mkSPO "bob" "likes" "tea") "bob likes tea"
          ["bob"; "tea"] 4 1 [1; 2] 1000 None "bob likes tea" []
        = Some (s2, n2)
      ∧ Depth n2 = 2.
Proof.
  split; [reflexivity|]. do 4 eexists.
  split; [reflexivity|]. split; [reflexivity|].
  split; [reflexivity|]. reflexivity.
Qed.

Ltac addedTo_solve :=
  unfold addedTo, GetEmbeddingByNodeId, GetEmbedding, GetNode; simpl;
  rewrite index_app_last; simpl; rewrite lookup_insert_eq;
  repeat split; try done;
  [ intros id Hid; by apply index_app_other
  | intros key Hkey; by rewrite lookup_insert_ne ].

(** X12. Adding a node and looking it up: after [AddEvent], [AddThought] (when
    it returns) and [AddChat], [GetNode] at the returned node's id gives the
    returned node, [GetEmbedding] and [GetEmbeddingByNodeId] give the
    embedding passed in, and all other ids and embedding keys read as
    before. *)
Theorem Add_then_lookup (store : Associative) (spo : SPO)
    (description : string) (keywords : list string) (importance valence : Z)
    (evidence : list NodeId) (chat : list Utterance) (created : Time)
    (expiration : option Time) (embeddingKey : string) (embedding : list Qc) :
  (let '(store', node) :=
     AddEvent store spo description keywords importance valence evidence
       created expiration embeddingKey embedding in
   addedTo store store' node embedding)
  ∧ (∀ store' node,
       AddThought store spo description keywords importance valence evidence
         created expiration embeddingKey embedding = Some (store', node) →
       addedTo store store' node embedding)
  ∧ (let '(store', node) :=
       AddChat store spo description keywords importance valence chat
         created expiration embeddingKey embedding in
     addedTo store store' node embedding).
Proof.
  split; [|split].
  - unfold AddEvent. addedTo_solve.
  - intros store' node. unfold AddThought.
    destruct (maxEvidenceDepth store evidence 0) as [maxDepth|]; [|done].
    intros [= <- <-]. addedTo_solve.
  - unfold AddChat. addedTo_solve.
Qed.




(** "bob is reading" strengthens no keyword, since its predicate is "is". *)
Example kwStrength_is_skipped :
  kwStrengthEvents storeWithEvent = ∅.
Proof. reflexivity. Qed.

(* --------------------------------------------------------------------- *)
(** ** The path finder *)

Section PathfindProperties.
Import maze.

(** The two tests of the repository, run on the model. *)
Example Pathfind_same_square :
  Pathfind testMaze (mkTilePos 1 0) (mkTilePos 1 0) = Returns [mkTilePos 1 0].
Proof. vm_compute. reflexivity. Qed.

Example Pathfind_opposite_side :
  Pathfind testMaze (mkTilePos 0 1) (mkTilePos 12 6)
  = Returns
      [mkTilePos 0 1; mkTilePos 1 1; mkTilePos 1 2; mkTilePos 1 3;
       mkTilePos 1 4; mkTilePos 2 4; mkTilePos 3 4; mkTilePos 4 4;
       mkTilePos 5 4; mkTilePos 6 4; mkTilePos 7 4; mkTilePos 7 3;
       mkTilePos 7 2; mkTilePos 8 2; mkTilePos 9 2; mkTilePos 9 3;
       mkTilePos 9 4; mkTilePos 10 4; mkTilePos 11 4; mkTilePos 11 5;
       mkTilePos 11 6; mkTilePos 12 6].
Proof. vm_compute. reflexivity. Qed.

(** What the code does at the cap, for every maze: when the wavefront loop
    is left with the end tile unreached, [Pathfind] reports nothing and
    returns the path that holds the end tile alone. *)
Theorem Pathfind_unreached_returns_end (m : Maze) (start end_ : TilePos) :
  endUnreachedAtCap m start end_ →
  Pathfind m start end_ = Returns [end_].
Proof.
  intros (distMaze & Hfinal & Hend).
  unfold finalDistMaze in Hfinal. unfold Pathfind.
  destruct (set2 (newDistMaze m) (Y start) (X start) 1) as [d0|];
    [|discriminate Hfinal].
  revert Hfinal. cbn [mbind option_bind ofOption].
  generalize (wavefront m end_ 150 d0 0).
  intros [[d k]|] Hfinal; [|discriminate Hfinal].
  cbn in Hfinal. injection Hfinal as ->.
  cbn [ofOption]. rewrite Hend. reflexivity.
Qed.

Lemma Pathfind_unreached_returns_end_witness :
  endUnreachedAtCap walledCorridor (mkTilePos 0 0) (mkTilePos 2 0)
  ∧ Pathfind walledCorridor (mkTilePos 0 0) (mkTilePos 2 0)
    = Returns [mkTilePos 2 0].
Proof.
  assert (H : endUnreachedAtCap walledCorridor (mkTilePos 0 0) (mkTilePos 2 0)).
  { exists [[1; 0; 0]]. split; vm_compute; reflexivity. }
  split; [exact H|].
  exact (Pathfind_unreached_returns_end walledCorridor _ _ H).
Defined.

(** C2. [Pathfind] is to surface an error when the cap of 150 rounds is
    reached with the end tile unreached. The code does not: the end of the
    walled corridor cannot be reached from its start, the cap is hit with
    the end unreached, and [Pathfind] returns the path [[end]] without any
    error. Its caller [execute] expects a path that starts with the start
    tile and drops the first tile of what it gets. *)
Lemma Pathfind_unreachable_no_error :
  endUnreachedAtCap walledCorridor (mkTilePos 0 0) (mkTilePos 2 0)
  ∧ Pathfind walledCorridor (mkTilePos 0 0) (mkTilePos 2 0)
    = Returns [mkTilePos 2 0]
  ∧ ¬ surfacesError (Pathfind walledCorridor (mkTilePos 0 0) (mkTilePos 2 0)).
Proof.
  split; [|split].
  - exists [[1; 0; 0]]. split; vm_compute; reflexivity.
  - vm_compute. reflexivity.
  - unfold surfacesError. vm_compute. discriminate.
Qed.

(** The same for a target that is reachable but too far: tile 199 of the
    open corridor is 199 steps from tile 0, beyond the 150 rounds. *)
Example Pathfind_too_distant :
  Pathfind longCorridor (mkTilePos 0 0) (mkTilePos 199 0)
  = Returns [mkTilePos 199 0].
Proof. vm_compute. reflexivity. Qed.

End PathfindProperties.

(* --------------------------------------------------------------------- *)
(** ** The maze: vision and addresses *)

Section MazeProperties.
Import maze.

Lemma wrapInt_small z : - 2 ^ 63 <= z < 2 ^ 63 → wrapInt z = z.
Proof. intros Hz. unfold wrapInt. rewrite Z.mod_small; lia. Qed.

Lemma flat_map_bind {A B} (f : A → list B) (l : list A) :
  flat_map f l = l ≫= f.
Proof. induction l as [|a l IH]; simpl; [done|]. by rewrite IH. Qed.

Lemma elem_of_upTo (from to x : Z) : x ∈ upTo from to ↔ from <= x < to.
Proof. unfold upTo. rewrite elem_of_seqZ. lia. Qed.

(** X28. [GetNearbyTiles] returns, each once, exactly the tiles of the maze
    that lie within [visionRadius] of [tile] in both directions: the
    square around the tile, cut at the borders of the maze. A negative
    radius gives no tile. The radius is at most 1024 tiles in absolute
    value, which keeps the capacity of the slice, the square of
    [2 * visionRadius + 1], small; coordinates are taken far from the ends
    of [int]. *)
Theorem GetNearbyTiles_spec (m : Maze) (tile : TilePos) (visionRadius : Z) :
  Z.abs (X tile) <= 2 ^ 31 → Z.abs (Y tile) <= 2 ^ 31 →
  Z.abs visionRadius <= 1024 →
  ∃ nearby, GetNearbyTiles m tile visionRadius = Some nearby
    ∧ NoDup nearby
    ∧ ∀ pos, pos ∈ nearby
        ↔ 0 <= X pos < width m ∧ 0 <= Y pos < height m
          ∧ Z.abs (X pos - X tile) <= visionRadius
          ∧ Z.abs (Y pos - Y tile) <= visionRadius.
Proof.
  intros HX HY Hr. unfold GetNearbyTiles.
  rewrite !(wrapInt_small (_ - visionRadius)) by lia.
  rewrite !(wrapInt_small (_ + visionRadius)) by lia.
  rewrite (wrapInt_small (2 * visionRadius)) by lia.
  rewrite !(wrapInt_small (_ + 1)) by lia.
  assert (Hsq : 0 <= (2 * visionRadius + 1) * (2 * visionRadius + 1)
                <= 2049 * 2049).
  { split; [nia|].
    assert (Z.abs (2 * visionRadius + 1) <= 2049) by lia. nia. }
  rewrite (wrapInt_small (_ * _)) by lia.
  unfold makeTilePos, maxAlloc.
  rewrite (decide_False (P := _ < 0 ∨ _)) by lia.
  cbn [mbind option_bind app].
  set (left := if decide (X tile - visionRadius > 0) then _ else _).
  set (right := if decide (X tile + visionRadius + 1 < width m) then _ else _).
  set (top := if decide (Y tile - visionRadius > 0) then _ else _).
  set (bottom := if decide (Y tile + visionRadius + 1 < height m) then _ else _).
  eexists. split; [reflexivity|]. rewrite flat_map_bind. split.
  - apply NoDup_bind.
    + intros x1 x2 pos _ _ (y1 & <- & _)%list_elem_of_In%in_map_iff.
      by intros (y2 & [= -> _] & _)%list_elem_of_In%in_map_iff.
    + intros x _.
      assert (Hinj : Inj eq eq (λ y, mkTilePos x y)).
      { intros y1 y2. by intros [= ->]. }
      apply (NoDup_fmap_2 (λ y, mkTilePos x y)). apply NoDup_seqZ.
    + apply NoDup_seqZ.
  - intros pos. rewrite list_elem_of_bind.
    setoid_rewrite elem_of_upTo. split.
    + intros (x & (y & <- & Hy%list_elem_of_In%elem_of_upTo)%list_elem_of_In%in_map_iff & Hx).
      simpl. subst left right top bottom. repeat case_decide; lia.
    + intros (Hx & Hy & Hdx & Hdy). exists (X pos). split.
      * apply list_elem_of_In, in_map_iff. exists (Y pos).
        split; [by destruct pos|]. apply list_elem_of_In, elem_of_upTo.
        subst top bottom. repeat case_decide; lia.
      * subst left right. repeat case_decide; lia.
Qed.

Lemma GetNearbyTiles_spec_witness :
  Z.abs (X (mkTilePos 1 1)) <= 2 ^ 31
  ∧ Z.abs (Y (mkTilePos 1 1)) <= 2 ^ 31
  ∧ Z.abs 1 <= 1024
  ∧ ∃ nearby, GetNearbyTiles testMaze (mkTilePos 1 1) 1 = Some nearby
      ∧ NoDup nearby
      ∧ ∀ pos, pos ∈ nearby
          ↔ 0 <= X pos < width testMaze ∧ 0 <= Y pos < height testMaze
            ∧ Z.abs (X pos - X (mkTilePos 1 1)) <= 1
            ∧ Z.abs (Y pos - Y (mkTilePos 1 1)) <= 1.
Proof.
  assert (HX : Z.abs (X (mkTilePos 1 1)) <= 2 ^ 31) by (simpl; lia).
  assert (HY : Z.abs (Y (mkTilePos 1 1)) <= 2 ^ 31) by (simpl; lia).
  assert (Hr : Z.abs 1 <= 1024) by (simpl; lia).
  split; [exact HX|]. split; [exact HY|]. split; [exact Hr|].
  exact (GetNearbyTiles_spec testMaze (mkTilePos 1 1) 1 HX HY Hr).
Defined.

(** In the corner of the test maze a radius of 1 shows four tiles. *)
Example GetNearbyTiles_corner :
  GetNearbyTiles testMaze (mkTilePos 0 0) 1
  = Some [mkTilePos 0 0; mkTilePos 0 1; mkTilePos 1 0; mkTilePos 1 1].
Proof. reflexivity. Qed.

(** A radius of 2^22 tiles asks for a slice of more than [maxAlloc] bytes,
    and [make] panics. *)
Example GetNearbyTiles_large_radius :
  GetNearbyTiles testMaze (mkTilePos 0 0) (2 ^ 22) = None.
Proof. reflexivity. Qed.

Lemma at2_lookup {A} (d : list (list A)) (i j : Z) (v : A) :
  at2 d i j = Some v
  ↔ ∃ (i' j' : nat) row, i = Z.of_nat i' ∧ j = Z.of_nat j'
      ∧ d !! i' = Some row ∧ row !! j' = Some v.
Proof.
  unfold at2, index. split.
  - destruct (decide (0 <= i)) as [Hi|]; [|done].
    destruct (d !! Z.to_nat i) as [row|] eqn:Hrow; [|done]. simpl.
    destruct (decide (0 <= j)) as [Hj|]; [|done]. intros Hv.
    exists (Z.to_nat i), (Z.to_nat j), row. repeat split; try done; lia.
  - intros (i' & j' & row & -> & -> & Hrow & Hv).
    rewrite (decide_True (P := 0 <= Z.of_nat i')) by lia.
    rewrite (Nat2Z.id i'), Hrow. simpl.
    rewrite (decide_True (P := 0 <= Z.of_nat j')) by lia.
    by rewrite Nat2Z.id.
Qed.

Lemma fileTile_lists i j tile addressTiles holds_ :
  listsTiles addressTiles holds_ →
  listsTiles (fileTile i j tile addressTiles)
    (λ a pos, holds_ a pos
              ∨ (pos = mkTilePos (Z.of_nat j) (Z.of_nat i)
                 ∧ a ∈ addressesOf (Path tile))).
Proof.
  unfold fileTile. generalize (addressesOf (Path tile)) as addresses.
  intros addresses. revert holds_.
  induction addresses as [|a0 addresses IH] using rev_ind; intros holds_ Hl.
  { simpl. destruct Hl as [Hl Hne]. split; [|done]. intros a pos.
    rewrite Hl. split; [by left|]. by intros [?|[_ ?%elem_of_nil]]. }
  rewrite foldl_app. simpl.
  specialize (IH holds_ Hl). destruct IH as [IH Hne]. split.
  - intros a pos. destruct (decide (a = a0)) as [->|Hna].
    + rewrite lookup_insert_eq. simpl. rewrite elem_of_app, IH,
        list_elem_of_singleton, elem_of_app. split.
      * intros [[?|[? ?]]| ->]; [by left|right; split; [done|by left]|].
        right. split; [done|]. right. by left.
      * intros [?|[-> [?|?]]]; [by left; left|by left; right|by right].
    + rewrite lookup_insert_ne by done. rewrite IH, elem_of_app.
      split; [intros [?|[? ?]]; [by left|right; split; [done|by left]]|].
      intros [?|[-> [?|Ha%list_elem_of_singleton]]];
        [by left|by right|done].
  - intros a t. destruct (decide (a = a0)) as [->|Hna].
    + rewrite lookup_insert_eq. intros [= <-]. by intros [? ?]%app_eq_nil.
    + rewrite lookup_insert_ne by done. apply Hne.
Qed.

Lemma fileRow_lists i row addressTiles holds_ :
  listsTiles addressTiles holds_ →
  listsTiles (fileRow i row addressTiles)
    (λ a pos, holds_ a pos
              ∨ ∃ j tile, row !! j = Some tile
                  ∧ pos = mkTilePos (Z.of_nat j) (Z.of_nat i)
                  ∧ a ∈ addressesOf (Path tile)).
Proof.
  unfold fileRow. revert holds_.
  induction row as [|tile row IH] using rev_ind; intros holds_ Hl.
  { simpl. destruct Hl as [Hl Hne]. split; [|done]. intros a pos.
    rewrite Hl. split; [by left|]. by intros [?|(j & t & ? & _)]. }
  rewrite imap_app, foldl_app. simpl. rewrite Nat.add_0_r.
  specialize (IH holds_ Hl).
  apply (fileTile_lists i (length row) tile) in IH.
  destruct IH as [IH Hne]. split; [|done]. intros a pos. rewrite IH. split.
  - intros [[?|(j & t & Hj & Hpos & Ha)]|[-> Ha]]; [by left| |].
    + right. exists j, t. split; [|done].
      rewrite lookup_app_l; [done|]. by apply lookup_lt_Some in Hj.
    + right. exists (length row), tile. split; [|done].
      rewrite lookup_app_r by lia. by rewrite Nat.sub_diag.
  - intros [?|(j & t & Hj & Hpos & Ha)]; [by left; left|].
    destruct (decide (j < length row)%nat) as [Hlt|Hge].
    + left. right. exists j, t. split; [|done].
      by rewrite lookup_app_l in Hj.
    + right. rewrite lookup_app_r in Hj by lia.
      destruct (j - length row)%nat as [|k] eqn:Hk; [|by destruct k].
      simpl in Hj. injection Hj as <-. split; [|done].
      rewrite Hpos. do 2 f_equal. lia.
Qed.

Lemma fileTiles_lists tiles :
  listsTiles (fileTiles tiles)
    (λ a pos, ∃ i j row tile, tiles !! i = Some row ∧ row !! j = Some tile
                ∧ pos = mkTilePos (Z.of_nat j) (Z.of_nat i)
                ∧ a ∈ addressesOf (Path tile)).
Proof.
  unfold fileTiles.
  induction tiles as [|row tiles IH] using rev_ind.
  { simpl. split; [|by intros a t; rewrite lookup_empty].
    intros a pos. rewrite lookup_empty. simpl.
    split; [by intros ?%elem_of_nil|]. by intros (i & j & r & t & ? & _). }
  rewrite imap_app, foldl_app. simpl. rewrite Nat.add_0_r.
  apply (fileRow_lists (length tiles) row) in IH.
  destruct IH as [IH Hne]. split; [|done]. intros a pos. rewrite IH. split.
  - intros [(i & j & r & t & Hi & Hj & Hpos & Ha)|(j & t & Hj & Hpos & Ha)].
    + exists i, j, r, t. split; [|done].
      rewrite lookup_app_l; [done|]. by apply lookup_lt_Some in Hi.
    + exists (length tiles), j, row, t. split; [|done].
      rewrite lookup_app_r by lia. by rewrite Nat.sub_diag.
  - intros (i & j & r & t & Hi & Hj & Hpos & Ha).
    destruct (decide (i < length tiles)%nat) as [Hlt|Hge].
    + left. exists i, j, r, t. split; [|done]. by rewrite lookup_app_l in Hi.
    + right. rewrite lookup_app_r in Hi by lia.
      destruct (i - length tiles)%nat as [|k] eqn:Hk; [|by destruct k].
      simpl in Hi. injection Hi as <-. exists j, t. split; [done|].
      split; [|done]. rewrite Hpos. do 2 f_equal. lia.
Qed.

(** X29. What [New] builds. It returns exactly for arrays of [height] rows of
    [width] columns. The map of addresses then lists under an address the
    positions of exactly the tiles whose path, cut at the sector, the
    arena or the object level that the path reaches, is that address; the
    world level is never an address; and no address stands for an empty
    list of tiles. *)
Theorem New_addressTiles (width height : Z) (collisionInfo : list (list bool))
    (tiles : list (list Tile)) :
  match New width height collisionInfo tiles with
  | Some (m, addressTiles) =>
      maze.width m = width ∧ maze.height m = height
      ∧ len (maze.tiles m) = height
      ∧ Forall (λ row, len row = width) (maze.tiles m)
      ∧ len (maze.collisionInfo m) = height
      ∧ Forall (λ row, len row = width) (maze.collisionInfo m)
      ∧ (∀ a pos,
           pos ∈ (PathToTiles addressTiles a).1
           ↔ ∃ tile, GetTile m pos = Some tile
                     ∧ a ∈ addressesOf (Path tile))
      ∧ (∀ a, Exists_ addressTiles a = true
              ↔ (PathToTiles addressTiles a).1 ≠ [])
  | None =>
      ¬ (len tiles = height ∧ Forall (λ row, len row = width) tiles
         ∧ len collisionInfo = height
         ∧ Forall (λ row, len row = width) collisionInfo)
  end.
Proof.
  unfold New.
  assert (Hrows : ∀ {A} (l : list (list A)),
            ¬ Exists (λ row, len row ≠ width) l
            ↔ Forall (λ row, len row = width) l).
  { intros A l. rewrite <- Forall_Exists_neg. apply Forall_proper; [|done].
    intros row. split; [apply dec_stable|]. by intros ? ?. }
  case_decide as H1; [tauto|].
  case_decide as H2; [by intros (_ & ?%Hrows & _)|].
  case_decide as H3; [tauto|].
  case_decide as H4; [by intros (_ & _ & _ & ?%Hrows)|].
  apply Hrows in H2. apply Hrows in H4. simpl.
  destruct (fileTiles_lists tiles) as [Hlists Hne].
  repeat (split; [done|]). split.
  - intros a pos. unfold PathToTiles, GetTile. simpl.
    transitivity (pos ∈ default [] (fileTiles tiles !! a)).
    { by destruct (fileTiles tiles !! a). }
    rewrite Hlists. split.
    + intros (i & j & row & tile & Hi & Hj & -> & Ha). exists tile.
      split; [|done]. apply at2_lookup. simpl. by exists i, j, row.
    + intros (tile & (i & j & row & Hy & Hx & Hi & Hj)%at2_lookup & Ha).
      exists i, j, row, tile. repeat split; try done.
      destruct pos; simpl in *; by subst.
  - intros a. unfold Exists_, PathToTiles.
    destruct (fileTiles tiles !! a) as [t|] eqn:E; simpl; [|done].
    split; [intros _; by apply (Hne a)|done].
Qed.

(* --------------------------------------------------------------------- *)
(** ** The path finder on a well-formed maze *)

Lemma gridOf_at2 {A} (m : Maze) (d : list (list A)) (i j : Z) :
  gridOf m d →
  is_Some (at2 d i j) ↔ 0 <= i < height m ∧ 0 <= j < width m.
Proof.
  intros [Hh Hw]. unfold at2. split.
  - intros [v Hv]. destruct (index d i) as [row|] eqn:Hrow; [|done].
    simpl in Hv. pose proof (index_Some_lt _ _ _ Hrow) as Hi.
    pose proof (index_Some_lt _ _ _ Hv) as Hj.
    unfold index in Hrow. destruct (decide (0 <= i)); [|done].
    apply list_elem_of_lookup_2 in Hrow.
    rewrite Forall_forall in Hw. specialize (Hw row Hrow). lia.
  - intros [Hi Hj].
    destruct (proj2 (index_is_Some d i) ltac:(lia)) as [row Hrow].
    rewrite Hrow. simpl. apply index_is_Some.
    unfold index in Hrow. destruct (decide (0 <= i)); [|done].
    apply list_elem_of_lookup_2 in Hrow.
    rewrite Forall_forall in Hw. specialize (Hw row Hrow). lia.
Qed.

Lemma assign_spec {A} (l : list A) (i : Z) (x : A) :
  0 <= i < len l →
  ∃ l', assign l i x = Some l' ∧ len l' = len l
    ∧ ∀ k, index l' k = if decide (k = i) then Some x else index l k.
Proof.
  intros Hi. unfold assign. rewrite decide_True by done.
  eexists. split; [done|]. split.
  - unfold len. by rewrite length_insert.
  - intros k. by apply index_insert.
Qed.

Lemma set2_spec {A} (m : Maze) (d : list (list A)) (i j : Z) (v : A) :
  gridOf m d → 0 <= i < height m → 0 <= j < width m →
  ∃ d', set2 d i j v = Some d' ∧ gridOf m d'
    ∧ ∀ a b, at2 d' a b
             = if decide (a = i ∧ b = j) then Some v else at2 d a b.
Proof.
  intros [Hh Hw] Hi Hj. unfold set2.
  destruct (proj2 (index_is_Some d i) ltac:(lia)) as [row Hrow].
  rewrite Hrow. simpl.
  assert (Hlen : len row = width m).
  { unfold index in Hrow. destruct (decide (0 <= i)); [|done].
    apply list_elem_of_lookup_2 in Hrow.
    rewrite Forall_forall in Hw. by apply Hw. }
  destruct (assign_spec row j v ltac:(lia)) as (row' & -> & Hlen' & Hrow').
  simpl.
  destruct (assign_spec d i row' ltac:(lia)) as (d' & Hd' & Hlend & Hget).
  rewrite Hd'. exists d'. split; [done|]. split.
  - split; [lia|]. unfold assign in Hd'. rewrite decide_True in Hd' by lia.
    injection Hd' as <-. apply Forall_insert; [done|lia].
  - intros a b. unfold at2. rewrite Hget.
    destruct (decide (a = i)) as [->|Hne]; simpl.
    + rewrite Hrow', Hrow. simpl.
      destruct (decide (b = j)) as [->|Hnb].
      * by rewrite decide_True.
      * rewrite decide_False; [done|]. by intros [_ ?].
    + rewrite decide_False; [done|]. by intros [? _].
Qed.

Lemma forUpTo_inv {S} (P : S → Prop) (body : Z → S → option S) (n : nat)
    (s : S) :
  P s →
  (∀ x s, 0 <= x < Z.of_nat n → P s → ∃ s', body x s = Some s' ∧ P s') →
  ∃ s', forUpTo n body s = Some s' ∧ P s'.
Proof.
  intros Hs Hbody. induction n as [|n IH]; simpl; [by exists s|].
  destruct IH as (s1 & -> & Hs1).
  { intros x s0 Hx. apply Hbody. lia. }
  simpl. apply Hbody; [lia|done].
Qed.

Lemma visit_wave (m : Maze) (start : TilePos) (k i j i0 j0 : Z)
    (d : list (list Z)) :
  wellFormed m → wave m start k d → 1 <= k →
  0 <= i < height m → 0 <= j < width m →
  neighbours (mkTilePos j i) (mkTilePos j0 i0) →
  at2 d i0 j0 = Some k →
  ∃ d', visit m k i j d = Some d' ∧ wave m start k d'
    ∧ ∀ a b v, at2 d a b = Some v → v ≠ 0 → at2 d' a b = Some v.
Proof.
  intros (Ht & Htw & Hc & Hcw) Hwave Hk Hi Hj Hadj Hk0.
  pose proof Hwave as (Hgrid & Hone & Hprev & Hrange).
  unfold visit.
  destruct (proj2 (gridOf_at2 m d i j Hgrid) (conj Hi Hj)) as [v Hv].
  rewrite Hv. simpl.
  case_decide as Hzero; [|by exists d].
  subst v.
  destruct (proj2 (gridOf_at2 m (collisionInfo m) i j (conj Hc Hcw))
              (conj Hi Hj)) as [c Hcol].
  rewrite Hcol. simpl.
  destruct c; simpl; [by exists d|].
  destruct (set2_spec m d i j (k + 1) Hgrid Hi Hj) as (d' & -> & Hgrid' & Hget).
  exists d'. split; [done|].
  assert (Hext : ∀ a b v, at2 d a b = Some v → v ≠ 0 → at2 d' a b = Some v).
  { intros a b v Hab Hv0. rewrite Hget. rewrite decide_False; [done|].
    intros [-> ->]. congruence. }
  split; [|done]. split; [done|]. split; [|split].
  - intros a b. rewrite Hget. case_decide as Heq; [intros [= ?]; lia|].
    apply Hone.
  - intros a b v. rewrite Hget. case_decide as Heq.
    + destruct Heq as [-> ->]. intros [= <-] _. split; [done|].
      exists i0, j0. split; [done|]. apply Hext; [|lia].
      by replace (k + 1 - 1) with k by lia.
    + intros Hab Hv1. destruct (Hprev a b v Hab Hv1) as (Hfree & a' & b' & Hn & Hab').
      split; [done|]. exists a', b'. split; [done|]. apply Hext; [done|lia].
  - intros a b v. rewrite Hget. case_decide as Heq; [intros [= <-]; lia|].
    apply Hrange.
Qed.

Lemma stepCell_wave (m : Maze) (start : TilePos) (k i j : Z)
    (d : list (list Z)) :
  wellFormed m → wave m start k d → 1 <= k →
  0 <= i < height m → 0 <= j < width m →
  ∃ d', stepCell m k i j d = Some d' ∧ wave m start k d'.
Proof.
  intros Hwf Hwave Hk Hi Hj. unfold stepCell.
  destruct (proj2 (gridOf_at2 m d i j (proj1 Hwave)) (conj Hi Hj)) as [v Hv].
  rewrite Hv. simpl.
  case_decide as Hvk; [by exists d|]. subst v.
  (* north *)
  assert (H1 : ∃ d1, (if decide (i > 0) then visit m k (i - 1) j d else Some d)
                     = Some d1
                     ∧ wave m start k d1 ∧ at2 d1 i j = Some k).
  { case_decide; [|by exists d].
    destruct (visit_wave m start k (i - 1) j i j d Hwf Hwave Hk)
      as (d1 & -> & Hw1 & Hext); try done; try lia.
    { left. simpl. lia. }
    exists d1. split; [done|]. split; [done|]. apply Hext; [done|lia]. }
  destruct H1 as (d1 & -> & Hw1 & Hv1). simpl.
  (* west *)
  assert (H2 : ∃ d2, (if decide (j > 0) then visit m k i (j - 1) d1 else Some d1)
                     = Some d2
                     ∧ wave m start k d2 ∧ at2 d2 i j = Some k).
  { case_decide; [|by exists d1].
    destruct (visit_wave m start k i (j - 1) i j d1 Hwf Hw1 Hk)
      as (d2 & -> & Hw2 & Hext); try done; try lia.
    { right. simpl. lia. }
    exists d2. split; [done|]. split; [done|]. apply Hext; [done|lia]. }
  destruct H2 as (d2 & -> & Hw2 & Hv2). simpl.
  (* south *)
  assert (Hlen2 : len d2 = height m) by apply Hw2.
  assert (H3 : ∃ d3, (if decide (i < len d2 - 1) then visit m k (i + 1) j d2
                      else Some d2) = Some d3
                     ∧ wave m start k d3 ∧ at2 d3 i j = Some k).
  { case_decide; [|by exists d2].
    destruct (visit_wave m start k (i + 1) j i j d2 Hwf Hw2 Hk)
      as (d3 & -> & Hw3 & Hext); try done; try lia.
    { left. simpl. lia. }
    exists d3. split; [done|]. split; [done|]. apply Hext; [done|lia]. }
  destruct H3 as (d3 & -> & Hw3 & Hv3). simpl.
  (* east *)
  unfold at2 in Hv3. destruct (index d3 i) as [row|] eqn:Hrow; [|done].
  simpl in Hv3. simpl.
  assert (Hlenrow : len row = width m).
  { destruct Hw3 as [[_ Hrows] _]. unfold index in Hrow.
    destruct (decide (0 <= i)); [|done].
    apply list_elem_of_lookup_2 in Hrow.
    rewrite Forall_forall in Hrows. by apply Hrows. }
  case_decide; [|by exists d3].
  destruct (visit_wave m start k i (j + 1) i j d3 Hwf Hw3 Hk)
    as (d4 & -> & Hw4 & Hext); try done; try lia.
  { right. simpl. lia. }
  { unfold at2. by rewrite Hrow. }
  by exists d4.
Qed.

Lemma wave_mono (m : Maze) (start : TilePos) (k k' : Z) (d : list (list Z)) :
  k <= k' → wave m start k d → wave m start k' d.
Proof.
  intros Hk (Hgrid & Hone & Hprev & Hrange).
  split; [done|]. split; [done|]. split; [done|].
  intros i j v Hv. specialize (Hrange i j v Hv). lia.
Qed.

Lemma makeStep_wave (m : Maze) (start : TilePos) (k : Z) (d : list (list Z)) :
  wellFormed m → wave m start k d → 1 <= k →
  ∃ d', makeStep m d k = Some d' ∧ wave m start k d'.
Proof.
  intros Hwf Hwave Hk. unfold makeStep.
  assert (Hlen : Z.of_nat (length d) = height m) by apply Hwave.
  apply (forUpTo_inv (wave m start k)); [done|].
  intros i d1 Hi Hw1.
  destruct (proj2 (index_is_Some d1 i)) as [row Hrow].
  { destruct Hw1 as [[Hh _] _]. lia. }
  rewrite Hrow. simpl.
  assert (Hlenrow : Z.of_nat (length row) = width m).
  { destruct Hw1 as [[_ Hrows] _]. unfold index in Hrow.
    destruct (decide (0 <= i)); [|done].
    apply list_elem_of_lookup_2 in Hrow.
    rewrite Forall_forall in Hrows. by apply Hrows. }
  apply (forUpTo_inv (wave m start k)); [done|].
  intros j d2 Hj Hw2. apply stepCell_wave; try done; lia.
Qed.

Lemma wavefront_wave (m : Maze) (start end_ : TilePos) (loopMax : nat) :
  ∀ (d : list (list Z)) (k : Z),
  wellFormed m → inBounds m end_ → wave m start k d → 0 <= k →
  ∃ d' k', wavefront m end_ loopMax d k = Some (d', k')
    ∧ wave m start (k + Z.of_nat loopMax) d'.
Proof.
  induction loopMax as [|loopMax IH]; intros d k Hwf Hend Hwave Hk;
    cbn [wavefront];
    destruct (proj2 (gridOf_at2 m d (Y end_) (X end_) (proj1 Hwave)))
      as [v Hv]; try (destruct Hend; done); rewrite Hv; simpl.
  - case_decide; exists d, k; (split; [done|]);
      (apply (wave_mono m start k); [lia|done]).
  - case_decide as Hzero.
    + destruct (makeStep_wave m start (k + 1) d Hwf) as (d1 & -> & Hw1);
        [apply (wave_mono m start k); [lia|done]|lia|]. simpl.
      destruct (IH d1 (k + 1) Hwf Hend Hw1) as (d' & k' & -> & Hw'); [lia|].
      exists d', k'. split; [done|].
      apply (wave_mono m start (k + 1 + Z.of_nat loopMax)); [lia|done].
    + exists d, k. split; [done|]. apply (wave_mono m start k); [lia|done].
Qed.

Lemma stepwise_cons (a b : TilePos) (l : list TilePos) :
  neighbours a b → stepwise (b :: l) → stepwise (a :: b :: l).
Proof.
  intros Hab Hl [|n] x y; simpl.
  - by intros [= <-] [= <-].
  - apply Hl.
Qed.

Lemma stepwise_single (a : TilePos) : stepwise [a].
Proof. intros [|n] x y; simpl; [by intros _ ?|done]. Qed.

Lemma walkBack_wave (m : Maze) (start : TilePos) (K : Z) (d : list (list Z)) :
  wave m start K d →
  ∀ (fuel : nat) (i j k : Z) (path : list TilePos),
  at2 d i j = Some k → 1 <= k → k - 1 <= Z.of_nat fuel →
  ∃ cells, walkBack fuel d i j k path = Returns (path ++ cells)%list
    ∧ Z.of_nat (length cells) = k - 1
    ∧ stepwise (mkTilePos j i :: cells)
    ∧ last (mkTilePos j i :: cells) = Some start
    ∧ ∀ n pos, (mkTilePos j i :: cells) !! n = Some pos →
        (n < length cells)%nat → free m pos.
Proof.
  intros Hwave. pose proof Hwave as (Hgrid & Hone & Hprev & Hrange).
  induction fuel as [|fuel IH]; intros i j k path Hk Hk1 Hfuel.
  - assert (k = 1) as -> by lia. simpl. exists []. rewrite app_nil_r.
    split; [done|]. split; [done|]. split; [apply stepwise_single|].
    split; [|intros n pos _ Hn; simpl in Hn; lia].
    simpl. destruct (Hone i j Hk) as [-> ->]. by destruct start.
  - cbn [walkBack]. case_decide as Hgt.
    2:{ assert (k = 1) as -> by lia. exists []. rewrite app_nil_r.
        split; [done|]. split; [done|]. split; [apply stepwise_single|].
        split; [|intros n pos _ Hn; simpl in Hn; lia].
        simpl. destruct (Hone i j Hk) as [-> ->]. by destruct start. }
    destruct (Hprev i j k Hk ltac:(lia)) as (Hfree & i' & j' & Hadj & Hnext).
    assert (Hin : 0 <= i < height m ∧ 0 <= j < width m).
    { apply (gridOf_at2 m d i j Hgrid). by rewrite Hk. }
    assert (Hin' : 0 <= i' < height m ∧ 0 <= j' < width m).
    { apply (gridOf_at2 m d i' j' Hgrid). by rewrite Hnext. }
    assert (Hgo : ∀ i2 j2,
              at2 d i2 j2 = Some (k - 1) →
              neighbours (mkTilePos j i) (mkTilePos j2 i2) →
              ∃ cells,
                walkBack fuel d i2 j2 (k - 1) (path ++ [mkTilePos j2 i2])
                = Returns (path ++ cells)%list
                ∧ Z.of_nat (length cells) = k - 1
                ∧ stepwise (mkTilePos j i :: cells)
                ∧ last (mkTilePos j i :: cells) = Some start
                ∧ ∀ n pos, (mkTilePos j i :: cells) !! n = Some pos →
                    (n < length cells)%nat → free m pos).
    { intros i2 j2 H2 Hadj2.
      destruct (IH i2 j2 (k - 1) (path ++ [mkTilePos j2 i2])%list H2)
        as (cells & -> & Hlen & Hsteps & Hlast & Hfrees); [lia|lia|].
      exists (mkTilePos j2 i2 :: cells). rewrite <- app_assoc.
      split; [done|]. split; [simpl; lia|].
      split; [by apply stepwise_cons|]. split; [done|].
      intros [|n] pos; simpl.
      - by intros [= <-] _.
      - intros Hpos Hn. apply (Hfrees n pos Hpos). lia. }
    assert (Hat : ∀ a b, 0 <= a < height m → 0 <= b < width m →
              ∃ v, at2 d a b = Some v).
    { intros a b Ha Hb. by apply (gridOf_at2 m d a b Hgrid). }
    assert (Hlen : len d = height m) by apply Hgrid.
    assert (Hdir : (i' = i - 1 ∧ j' = j) ∨ (i' = i ∧ j' = j - 1)
                   ∨ (i' = i + 1 ∧ j' = j) ∨ (i' = i ∧ j' = j + 1)).
    { destruct Hadj as [[Hx Hy]|[Hy Hx]]; simpl in *; lia. }
    assert (HN : ∃ bn,
              (if decide (i > 0)
               then at2 d (i - 1) j ≫= λ v, Some (bool_decide (v = k - 1))
               else Some false) = Some bn
              ∧ (bn = true → at2 d (i - 1) j = Some (k - 1))
              ∧ (bn = false → ¬ (i' = i - 1 ∧ j' = j))).
    { destruct (decide (i > 0)).
      - destruct (Hat (i - 1) j ltac:(lia) ltac:(lia)) as [v Hv].
        rewrite Hv. simpl. eexists. split; [done|].
        split; [by intros ->%bool_decide_eq_true|].
        intros Hf%bool_decide_eq_false [-> ->]. congruence.
      - exists false. split; [done|]. split; [done|]. intros _ [? ?]. lia. }
    assert (HW : ∃ bw,
              (if decide (j > 0)
               then at2 d i (j - 1) ≫= λ v, Some (bool_decide (v = k - 1))
               else Some false) = Some bw
              ∧ (bw = true → at2 d i (j - 1) = Some (k - 1))
              ∧ (bw = false → ¬ (i' = i ∧ j' = j - 1))).
    { destruct (decide (j > 0)).
      - destruct (Hat i (j - 1) ltac:(lia) ltac:(lia)) as [v Hv].
        rewrite Hv. simpl. eexists. split; [done|].
        split; [by intros ->%bool_decide_eq_true|].
        intros Hf%bool_decide_eq_false [-> ->]. congruence.
      - exists false. split; [done|]. split; [done|]. intros _ [? ?]. lia. }
    assert (HS : ∃ bs,
              (if decide (i < len d - 1)
               then at2 d (i + 1) j ≫= λ v, Some (bool_decide (v = k - 1))
               else Some false) = Some bs
              ∧ (bs = true → at2 d (i + 1) j = Some (k - 1))
              ∧ (bs = false → ¬ (i' = i + 1 ∧ j' = j))).
    { destruct (decide (i < len d - 1)).
      - destruct (Hat (i + 1) j ltac:(lia) ltac:(lia)) as [v Hv].
        rewrite Hv. simpl. eexists. split; [done|].
        split; [by intros ->%bool_decide_eq_true|].
        intros Hf%bool_decide_eq_false [-> ->]. congruence.
      - exists false. split; [done|]. split; [done|]. intros _ [? ?]. lia. }
    assert (HE : ∃ be,
              (index d i ≫= λ row,
                 if decide (j < len row - 1)
                 then at2 d i (j + 1) ≫= λ v, Some (bool_decide (v = k - 1))
                 else Some false) = Some be
              ∧ (be = true → at2 d i (j + 1) = Some (k - 1))
              ∧ (be = false → ¬ (i' = i ∧ j' = j + 1))).
    { unfold at2 in Hk. destruct (index d i) as [row|] eqn:Hrow; [|done].
      simpl.
      assert (Hlenrow : len row = width m).
      { destruct Hgrid as [_ Hrows]. unfold index in Hrow.
        destruct (decide (0 <= i)); [|done].
        apply list_elem_of_lookup_2 in Hrow.
        rewrite Forall_forall in Hrows. by apply Hrows. }
      destruct (decide (j < len row - 1)).
      - destruct (Hat i (j + 1) ltac:(lia) ltac:(lia)) as [v Hv].
        rewrite Hv. simpl. eexists. split; [done|].
        split; [by intros ->%bool_decide_eq_true|].
        intros Hf%bool_decide_eq_false [-> ->]. congruence.
      - exists false. split; [done|]. split; [done|]. intros _ [? ?]. lia. }
    cbv zeta.
    destruct HN as (bn & -> & HNt & HNf). cbn [ofOption].
    destruct bn.
    { apply Hgo; [by apply HNt|]. left. simpl. lia. }
    destruct HW as (bw & -> & HWt & HWf). cbn [ofOption].
    destruct bw.
    { apply Hgo; [by apply HWt|]. right. simpl. lia. }
    destruct HS as (bs & -> & HSt & HSf). cbn [ofOption].
    destruct bs.
    { apply Hgo; [by apply HSt|]. left. simpl. lia. }
    destruct HE as (be & -> & HEt & HEf). cbn [ofOption].
    destruct be.
    { apply Hgo; [by apply HEt|]. right. simpl. lia. }
    specialize (HNf eq_refl). specialize (HWf eq_refl).
    specialize (HSf eq_refl). specialize (HEf eq_refl). tauto.
Qed.

Lemma neighbours_sym (a b : TilePos) : neighbours a b → neighbours b a.
Proof. unfold neighbours. intros [[? ?]|[? ?]]; [left|right]; lia. Qed.

Lemma stepwise_reverse (path : list TilePos) :
  stepwise path → stepwise (reverse path).
Proof.
  intros Hsteps n a b Ha Hb.
  pose proof (lookup_lt_Some _ _ _ Hb) as Hn. rewrite length_reverse in Hn.
  rewrite reverse_lookup in Ha by lia. rewrite reverse_lookup in Hb by lia.
  apply neighbours_sym. apply (Hsteps (length path - S (S n))%nat); [done|].
  by replace (S (length path - S (S n))) with (length path - S n)%nat by lia.
Qed.

Lemma newDistMaze_grid (m : Maze) :
  wellFormed m →
  gridOf m (newDistMaze m)
  ∧ ∀ i j v, at2 (newDistMaze m) i j = Some v → v = 0.
Proof.
  intros (Ht & Htw & _). unfold newDistMaze. split.
  - split.
    + unfold len in *. by rewrite length_map.
    + apply List.Forall_map. eapply Forall_impl; [exact Htw|]. simpl.
      intros row Hrow. unfold len in *. by rewrite length_replicate.
  - intros i j v (i' & j' & row & -> & -> & Hrow & Hv)%at2_lookup.
    apply list_elem_of_lookup_2, list_elem_of_In, in_map_iff in Hrow
      as (tilesRow & <- & _).
    by apply lookup_replicate in Hv as [-> _].
Qed.

(** X30. The path finder on a well-formed maze, between two positions on it.
    [Pathfind] never panics and never hangs. The path it returns ends at
    the end tile, moves from each tile to a neighbour of it, and has at
    most 151 tiles. It is the end tile alone, or it starts at the start
    tile and every tile after the first is free of collision. *)
Theorem Pathfind_returns_path (m : Maze) (start end_ : TilePos) :
  wellFormed m → inBounds m start → inBounds m end_ →
  ∃ path, Pathfind m start end_ = Returns path
    ∧ last path = Some end_
    ∧ stepwise path
    ∧ (1 <= length path <= 151)%nat
    ∧ (path = [end_]
       ∨ (head path = Some start
          ∧ ∀ n pos, path !! S n = Some pos → free m pos)).
Proof.
  intros Hwf [Hsx Hsy] Hend. unfold Pathfind.
  destruct (newDistMaze_grid m Hwf) as [Hgrid0 Hzero].
  destruct (set2_spec m (newDistMaze m) (Y start) (X start) 1 Hgrid0 Hsy Hsx)
    as (d0 & -> & Hgrid1 & Hget). cbn [ofOption].
  assert (Hwave0 : wave m start 0 d0).
  { split; [done|]. split; [|split].
    - intros i j. rewrite Hget. case_decide as Heq; [done|].
      intros Hv%Hzero. lia.
    - intros i j v. rewrite Hget. case_decide as Heq; [intros [= <-]; lia|].
      intros Hv%Hzero. lia.
    - intros i j v. rewrite Hget. case_decide as Heq; [intros [= <-]; lia|].
      intros Hv%Hzero. lia. }
  destruct (wavefront_wave m start end_ 150 d0 0 Hwf Hend Hwave0)
    as (d & k' & -> & Hwave); [lia|]. cbn [ofOption].
  pose proof Hwave as (Hgrid & _ & _ & Hrange).
  destruct (proj2 (gridOf_at2 m d (Y end_) (X end_) Hgrid)) as [k Hk].
  { destruct Hend. done. }
  rewrite Hk. cbn [ofOption].
  specialize (Hrange _ _ _ Hk).
  destruct (decide (k = 0)) as [->|Hpos].
  { simpl. exists [end_]. split; [done|]. split; [done|].
    split; [apply stepwise_single|]. split; [simpl; lia|]. by left. }
  destruct (walkBack_wave m start _ d Hwave (Z.to_nat k) (Y end_) (X end_) k
              [end_] Hk) as (cells & -> & Hlen & Hsteps & Hlast & Hfrees);
    [lia|lia|].
  assert (Hend_ : mkTilePos (X end_) (Y end_) = end_) by (by destruct end_).
  rewrite Hend_ in *.
  exists (reverse ([end_] ++ cells)). split; [done|]. simpl.
  split; [by rewrite last_reverse|].
  split; [by apply stepwise_reverse|].
  split; [rewrite length_reverse; simpl; lia|].
  right. split; [by rewrite head_reverse|].
  intros n pos Hat.
  pose proof (lookup_lt_Some _ _ _ Hat) as Hn.
  rewrite length_reverse in Hn. simpl in Hn.
  rewrite reverse_lookup in Hat by (simpl; lia). simpl in Hat.
  apply (Hfrees _ _ Hat). lia.
Qed.

Lemma Pathfind_returns_path_witness :
  wellFormed testMaze
  ∧ inBounds testMaze (mkTilePos 0 1)
  ∧ inBounds testMaze (mkTilePos 12 6)
  ∧ ∃ path, Pathfind testMaze (mkTilePos 0 1) (mkTilePos 12 6) = Returns path
      ∧ last path = Some (mkTilePos 12 6)
      ∧ stepwise path
      ∧ (1 <= length path <= 151)%nat
      ∧ (path = [mkTilePos 12 6]
         ∨ (head path = Some (mkTilePos 0 1)
            ∧ ∀ n pos, path !! S n = Some pos → free testMaze pos)).
Proof.
  assert (Hwf : wellFormed testMaze).
  { repeat split; try reflexivity; repeat constructor. }
  assert (Hs : inBounds testMaze (mkTilePos 0 1)) by (by vm_compute).
  assert (He : inBounds testMaze (mkTilePos 12 6)) by (by vm_compute).
  split; [exact Hwf|]. split; [exact Hs|]. split; [exact He|].
  exact (Pathfind_returns_path testMaze (mkTilePos 0 1) (mkTilePos 12 6)
           Hwf Hs He).
Defined.

End MazeProperties.

(* --------------------------------------------------------------------- *)
(** ** Retrieval for focal points *)

Section RetrievalProperties.
Import agent.
Local Open Scope Qc_scope.

Lemma StronglySorted_app_le {A} (R : relation A) (l1 l2 : list A) x y :
  StronglySorted R (l1 ++ l2)%list → x ∈ l1 → y ∈ l2 → R x y.
Proof.
  induction l1 as [|a l1 IH]; simpl; intros Hs Hx Hy.
  { by apply elem_of_nil in Hx. }
  apply StronglySorted_inv in Hs as [Hs Hall].
  apply elem_of_cons in Hx as [->|Hx]; [|by apply IH].
  apply (proj1 (Forall_forall _ _) Hall). apply elem_of_app. by right.
Qed.

#[local] Instance byValue_total : Total byValue.
Proof.
  intros a b. unfold byValue.
  destruct (Qclt_le_dec a.2 b.2) as [?%Qclt_le_weak|?]; [by left|by right].
Qed.

#[local] Instance byValue_trans : Transitive byValue.
Proof. intros a b c. unfold byValue. apply Qcle_trans. Qed.

(** What [highestNValues] keeps: entries of the map, [n] of them when the
    map has that many, and none of them with a value above that of an entry
    left out. *)
Lemma highestNValues_keeps_lowest (m out : gmap NodeId Qc) (n : Z) :
  highestNValues m n = Some out →
  (∀ k v, out !! k = Some v → m !! k = Some v)
  ∧ (size out = Z.to_nat (Z.min n (len (map_to_list m))))
  ∧ (∀ k v k' v',
       out !! k = Some v → m !! k' = Some v' → out !! k' = None → v <= v').
Proof.
  unfold highestNValues.
  set (values := merge_sort byValue (map_to_list m)).
  assert (Hperm : values ≡ₚ map_to_list m) by apply merge_sort_Permutation.
  assert (Hsorted : StronglySorted byValue values)
    by apply (StronglySorted_merge_sort _).
  assert (Hnodup : NoDup values.*1).
  { rewrite Hperm. apply NoDup_fst_map_to_list. }
  assert (Hlen : len values = len (map_to_list m)).
  { unfold len. by rewrite Hperm. }
  set (n' := if decide (n > len values)%Z then len values else n).
  case_decide as Hneg; [done|]. intros [= <-].
  assert (Hsplit : values = (take (Z.to_nat n') values ++ drop (Z.to_nat n') values)%list)
    by (by rewrite take_drop).
  assert (Hnodup' : NoDup (take (Z.to_nat n') values).*1).
  { rewrite Hsplit, fmap_app in Hnodup. by apply NoDup_app in Hnodup as [? _]. }
  assert (Hout : ∀ k v, list_to_map (M := gmap NodeId Qc) (take (Z.to_nat n') values) !! k = Some v
                        ↔ (k, v) ∈ take (Z.to_nat n') values).
  { intros k v. symmetry. by apply elem_of_list_to_map. }
  split; [|split].
  - intros k v Hk%Hout. apply elem_of_map_to_list. rewrite <- Hperm.
    rewrite Hsplit. apply elem_of_app. by left.
  - rewrite <- (length_map_to_list (list_to_map _)).
    rewrite (map_to_list_to_map _ Hnodup'), length_take.
    subst n'. unfold len in *. case_decide; lia.
  - intros k v k' v' Hk%Hout Hk' Hnone.
    apply elem_of_map_to_list in Hk'. rewrite <- Hperm, Hsplit in Hk'.
    apply elem_of_app in Hk' as [Hk'|Hk'].
    { apply Hout in Hk'. congruence. }
    rewrite Hsplit in Hsorted.
    apply (StronglySorted_app_le byValue _ _ (k, v) (k', v') Hsorted Hk Hk').
Qed.

(** C1 fails. [highestNValues] never keeps a score above one it leaves
    out. The persona below holds the events 1 to 31, event [i] with
    importance [i], and weighs importance alone, so the final score rises
    with the id. Of the 31 candidates 30 are kept: node 1, whose score is
    the lowest, is kept, and node 31, whose score is the highest, is not. *)
Theorem retrieve_keeps_lowest_scores :
  (∀ (m out : gmap NodeId Qc) (n : Z) k v k' v',
     highestNValues m n = Some out →
     out !! k = Some v → m !! k' = Some v' → out !! k' = None → v <= v')
  ∧ ∃ kept scores,
      keptFor exactSqrt (choresPersona 31) "chores" [] = Some kept
      ∧ (snd <$> finalScores exactSqrt (choresPersona 31) "chores") = Some scores
      ∧ length kept = 30%nat
      ∧ (1%Z ∈ kept)
      ∧ (31%Z ∉ kept)
      ∧ scoreAt scores 1%Z < scoreAt scores 31%Z.
Proof.
  split.
  { intros m out n k v k' v' Hout.
    destruct (highestNValues_keeps_lowest m out n Hout) as (_ & _ & Hlow).
    apply Hlow. }
  eexists _, _. split; [vm_compute; reflexivity|].
  split; [vm_compute; reflexivity|].
  split; [reflexivity|].
  split; [apply (bool_decide_unpack _); vm_compute; reflexivity|].
  split; [apply (bool_decide_unpack _); vm_compute; reflexivity|].
  vm_compute. reflexivity.
Qed.

(** [retrieveForFocalPoints] does not look at its options. *)
Lemma retrieveForFocalPoints_ignores_options sqrt p focalPoints retrievalOpts :
  retrieveForFocalPoints sqrt p focalPoints retrievalOpts
  = retrieveForFocalPoints sqrt p focalPoints [].
Proof. reflexivity. Qed.

(** C10 fails. Whatever options are passed, the result is that of a call
    without options; with 31 candidate nodes and the option
    [withRetrievalCount(15)], 30 nodes are kept, not 15. *)
Theorem retrieve_count_not_configurable :
  (∀ sqrt p focalPoints retrievalOpts,
     retrieveForFocalPoints sqrt p focalPoints retrievalOpts
     = retrieveForFocalPoints sqrt p focalPoints [])
  ∧ ∃ kept,
      keptFor exactSqrt (choresPersona 31) "chores" [withRetrievalCount 15]
      = Some kept
      ∧ length kept = 30%nat.
Proof.
  split.
  - intros. apply retrieveForFocalPoints_ignores_options.
  - eexists. split; [vm_compute; reflexivity|reflexivity].
Qed.

Lemma extractRecencyFrom_notin decay i nodes out node :
  node ∉ nodes → extractRecencyFrom decay i nodes out !! node = out !! node.
Proof.
  revert i out. induction nodes as [|n nodes IH]; intros i out Hn; simpl; [done|].
  apply not_elem_of_cons in Hn as [Hne Hn].
  rewrite (IH _ _ Hn). by apply lookup_insert_ne.
Qed.

Lemma extractRecencyFrom_lookup decay nodes : ∀ i0 out i node,
  NoDup nodes → nodes !! i = Some node →
  extractRecencyFrom decay i0 nodes out !! node = Some (decay ^ (i0 + i + 1)).
Proof.
  induction nodes as [|n nodes IH]; intros i0 out i node Hnd Hi; [done|].
  apply NoDup_cons in Hnd as [Hn Hnd]. simpl.
  destruct i as [|i]; simpl in Hi.
  - injection Hi as ->. rewrite (extractRecencyFrom_notin _ _ _ _ _ Hn).
    rewrite lookup_insert_eq. do 2 f_equal. lia.
  - rewrite (IH (S i0) _ i node Hnd Hi). do 2 f_equal. lia.
Qed.

Lemma deleteIdle_sublist store nodes kept :
  deleteIdle store nodes = Some kept → kept `sublist_of` nodes.
Proof.
  revert kept. induction nodes as [|n nodes IH]; intros kept; simpl.
  { by intros [= <-]. }
  destruct (GetNode store n) as [c|]; [|done]. simpl.
  destruct (deleteIdle store nodes) as [rest|]; [|done]. simpl.
  intros [= <-]. specialize (IH rest eq_refl).
  destruct (Contains (EmbeddingKey c) "idle").
  - by apply sublist_cons.
  - by apply sublist_skip.
Qed.

#[local] Instance byLastAccessed_total store : Total (byLastAccessed store).
Proof. intros a b. unfold byLastAccessed. lia. Qed.

(** What the code does, for every persona: the raw recency score of a
    candidate node is [decay ^ (i + 1)] where [i] is the node's position in
    the candidate list that [retrieveForFocalPoints] has sorted ascending
    by [LastAccessed], oldest access first. *)
Theorem recency_by_sorted_position (p : Persona) (nodes : list NodeId)
    (i : nat) (node : NodeId) :
  NoDup (latestIds (associativeMemory p)) →
  candidateNodes p = Some nodes →
  nodes !! i = Some node →
  Sorted (byLastAccessed (associativeMemory p)) nodes
  ∧ extractRecency p nodes !! node = Some (RecencyDecay (state p) ^ (i + 1)).
Proof.
  unfold candidateNodes, latestIds. intros Hnd Hc Hi.
  destruct (deleteIdle _ _) as [kept|] eqn:Hkept; [|done].
  simpl in Hc. injection Hc as <-.
  split; [apply (Sorted_merge_sort _)|].
  unfold extractRecency.
  rewrite (extractRecencyFrom_lookup _ _ 0 ∅ i node); [done| |done].
  rewrite merge_sort_Permutation.
  apply deleteIdle_sublist in Hkept. by eapply sublist_NoDup.
Qed.

Lemma recency_by_sorted_position_witness :
  let p := choresPersona 2 in
  NoDup (latestIds (associativeMemory p))
  ∧ candidateNodes p = Some [1; 2]%Z
  ∧ extractRecency p [1; 2]%Z !! 2%Z = Some (RecencyDecay (state p) ^ 2).
Proof.
  intros p.
  assert (Hnd : NoDup (latestIds (associativeMemory p))).
  { apply (bool_decide_unpack _). vm_compute. reflexivity. }
  assert (Hc : candidateNodes p = Some [1; 2]%Z) by (vm_compute; reflexivity).
  split; [exact Hnd|]. split; [exact Hc|].
  exact (proj2 (recency_by_sorted_position p [1; 2]%Z 1 2%Z Hnd Hc eq_refl)).
Defined.

(** C4. The recency of a node is to be [decay ^ (rank + 1)] with the rank
    counted from the front of the chronological latest-id lists, newest
    first. The code scores by the position in the list sorted ascending by
    last access instead, which turns the order round. Of two events, node 2
    is the newer one and stands at the front of the latest-event list,
    rank 0; the claim gives it the recency [decay ^ 1]. The sorted candidate
    list is [1; 2], and the score of node 2 is [decay ^ 2], a quarter where
    the claim says a half. *)
Lemma recency_rank_counterexample :
  let p := choresPersona 2 in
  latestIds (associativeMemory p) !! 0%nat = Some 2%Z
  ∧ candidateNodes p = Some [1; 2]%Z
  ∧ extractRecency p [1; 2]%Z !! 2%Z = Some (RecencyDecay (state p) ^ 2)
  ∧ RecencyDecay (state p) ^ 2 ≠ RecencyDecay (state p) ^ (0 + 1).
Proof.
  intros p. split; [reflexivity|]. split; [vm_compute; reflexivity|].
  split; [reflexivity|]. intros H. apply (f_equal this) in H.
  vm_compute in H. discriminate H.
Qed.

(** On the same store the older node 1 gets the recency the claim gives to
    the newer one. *)
Example recency_oldest_first :
  let p := choresPersona 2 in
  latestIds (associativeMemory p) !! 1%nat = Some 1%Z
  ∧ extractRecency p [1; 2]%Z !! 1%Z = Some (RecencyDecay (state p) ^ 1).
Proof. intros p. split; reflexivity. Qed.

End RetrievalProperties.

(* --------------------------------------------------------------------- *)
(** ** Retrieval: the score helpers and one turn of the loop *)

Section RetrievalHelpers.
Import agent.
Local Open Scope Qc_scope.

Lemma minMax_snoc (values : list Qc) (v : Qc) :
  minMax (values ++ [v])
  = match minMax values with
    | None => Some (v, v)
    | Some (min, max) =>
        Some (if decide (v < min) then v else min,
              if decide (max < v) then v else max)
    end.
Proof. unfold minMax. by rewrite foldl_app. Qed.

Lemma minMax_spec (values : list Qc) :
  match minMax values with
  | None => values = []
  | Some (min, max) =>
      min ∈ values ∧ max ∈ values
      ∧ ∀ v, v ∈ values → min <= v ∧ v <= max
  end.
Proof.
  induction values as [|v values IH] using rev_ind; [done|].
  rewrite minMax_snoc. destruct (minMax values) as [[min max]|].
  - destruct IH as (Hmin & Hmax & Hall). split; [|split].
    + case_decide; apply elem_of_app; [right; by left|by left].
    + case_decide; apply elem_of_app; [right; by left|by left].
    + intros x [Hx|Hx%list_elem_of_singleton]%elem_of_app.
      * destruct (Hall x Hx) as [Hlo Hhi]. split.
        -- case_decide as Hc; [|done].
           eapply Qcle_trans; [apply Qclt_le_weak, Hc|done].
        -- case_decide as Hc; [|done].
           eapply Qcle_trans; [done|apply Qclt_le_weak, Hc].
      * subst x. split.
        -- case_decide as Hc; [apply Qcle_refl|by apply Qcnot_lt_le].
        -- case_decide as Hc; [apply Qcle_refl|by apply Qcnot_lt_le].
  - subst values. simpl. split; [by left|]. split; [by left|].
    intros x ->%list_elem_of_singleton. split; apply Qcle_refl.
Qed.

Lemma values_elem (m : gmap NodeId Qc) (v : Qc) :
  v ∈ (map_to_list m).*2 ↔ ∃ k, m !! k = Some v.
Proof.
  rewrite list_elem_of_fmap. split.
  - intros ([k v'] & -> & Hkv%elem_of_map_to_list). by exists k.
  - intros [k Hk]. exists (k, v). split; [done|]. by apply elem_of_map_to_list.
Qed.

Lemma unit_interval (x d : Qc) : 0 <= x → x <= d → 0 < d →
  0 <= x / d ∧ x / d <= 1.
Proof.
  intros Hx Hxd Hd.
  assert (Hne : d ≠ 0) by (intros ->; by apply (Qclt_not_eq 0 0)).
  assert (Hmul : x / d * d = x) by (field; done).
  split.
  - apply (Qcmult_lt_0_le_reg_r _ _ d Hd). by rewrite Hmul, Qcmult_0_l.
  - apply (Qcmult_lt_0_le_reg_r _ _ d Hd). by rewrite Hmul, Qcmult_1_l.
Qed.

Lemma inv_nonneg (d : Qc) : 0 < d → 0 <= / d.
Proof.
  intros Hd.
  assert (Hne : d ≠ 0) by (intros ->; by apply (Qclt_not_eq 0 0)).
  apply (Qcmult_lt_0_le_reg_r _ _ d Hd).
  rewrite Qcmult_0_l, Qcmult_inv_l by done. by apply Qclt_le_weak.
Qed.

Lemma normalizeMap_facts (m : gmap NodeId Qc) (targetMin targetMax : Qc) :
  (normalizeMap m targetMin targetMax = None ↔ m = ∅)
  ∧ ∀ out, normalizeMap m targetMin targetMax = Some out →
      (∀ k, is_Some (out !! k) ↔ is_Some (m !! k))
      ∧ ((∀ k k' v v', m !! k = Some v → m !! k' = Some v' → v = v') →
         ∀ k v, out !! k = Some v → v = (targetMax - targetMin) / 2)
      ∧ ((∃ k k' v v', m !! k = Some v ∧ m !! k' = Some v' ∧ v ≠ v') →
         targetMin = 0 → targetMax = 1 →
         (∀ k v, out !! k = Some v → 0 <= v ∧ v <= 1)
         ∧ (∃ k, out !! k = Some 0) ∧ (∃ k, out !! k = Some 1)
         ∧ ∀ k k' v v' w w',
             m !! k = Some v → m !! k' = Some v' → v <= v' →
             out !! k = Some w → out !! k' = Some w' → w <= w').
Proof.
  unfold normalizeMap. pose proof (minMax_spec (map_to_list m).*2) as Hmm.
  destruct (minMax (map_to_list m).*2) as [[min max]|]; simpl.
  - destruct Hmm as ([kmin Hkmin]%values_elem & [kmax Hkmax]%values_elem & Hall).
    assert (Hall' : ∀ k v, m !! k = Some v → min <= v ∧ v <= max).
    { intros k v Hk. apply Hall, values_elem. eauto. }
    split.
    { split; [by case_decide|]. intros ->. by rewrite lookup_empty in Hkmin. }
    intros out Hout.
    assert (Hdom : ∀ (f : Qc → Qc) k,
              is_Some ((f <$> m) !! k) ↔ is_Some (m !! k)).
    { intros f k. rewrite lookup_fmap. by rewrite fmap_is_Some. }
    case_decide as Heq; injection Hout as <-.
    + subst max. split; [apply Hdom|]. split.
      * intros _ k v. rewrite lookup_fmap.
        destruct (m !! k); simpl; [by intros [= <-]|done].
      * intros (k & k' & v & v' & Hk & Hk' & Hne) _ _. destruct Hne.
        destruct (Hall' _ _ Hk), (Hall' _ _ Hk').
        transitivity min; [|symmetry]; by apply Qcle_antisym.
    + split; [apply Hdom|]. split.
      * intros Hsame. destruct Heq. by apply (Hsame kmax kmin).
      * intros _ -> ->.
        assert (Hlt : 0 < max - min).
        { destruct (Hall' _ _ Hkmax) as [Hle _].
          apply Qcle_lt_or_eq in Hle as [Hlt|Hlt]; [|by destruct Heq].
          by apply Qclt_minus_iff in Hlt. }
        assert (Hne : max - min ≠ 0).
        { intros Hz. rewrite Hz in Hlt. by apply (Qclt_not_eq 0 0). }
        assert (Hval : ∀ val, (val - min) * (1 - 0) / (max - min) + 0
                              = (val - min) / (max - min)).
        { intros val. field. done. }
        split; [|split; [|split]].
        -- intros k w. rewrite lookup_fmap.
           destruct (m !! k) as [v|] eqn:E; simpl; [|done].
           intros [= <-]. rewrite Hval. destruct (Hall' _ _ E) as [Hlo Hhi].
           apply unit_interval; [|
             |done].
           ++ by apply Qcle_minus_iff in Hlo.
           ++ unfold Qcminus. apply Qcplus_le_compat; [done|apply Qcle_refl].
        -- exists kmin. rewrite lookup_fmap, Hkmin. simpl. f_equal.
           rewrite Hval. field. done.
        -- exists kmax. rewrite lookup_fmap, Hkmax. simpl. f_equal.
           rewrite Hval. field. done.
        -- intros k k' v v' w w' Hk Hk' Hle.
           rewrite !lookup_fmap, Hk, Hk'. simpl. intros [= <-] [= <-].
           rewrite !Hval. unfold Qcdiv.
           apply Qcmult_le_compat_r.
           ++ unfold Qcminus. apply Qcplus_le_compat; [done|apply Qcle_refl].
           ++ by apply inv_nonneg.
  - split; [|done]. split; [intros _|done].
    apply fmap_nil_inv in Hmm. by apply map_to_list_empty_iff.
Qed.

Lemma map_values_elem {A} (m : gmap NodeId A) (v : A) :
  v ∈ (map_to_list m).*2 ↔ ∃ k, m !! k = Some v.
Proof.
  rewrite list_elem_of_fmap. split.
  - intros ([k v'] & -> & Hkv%elem_of_map_to_list). by exists k.
  - intros [k Hk]. exists (k, v). split; [done|]. by apply elem_of_map_to_list.
Qed.

Lemma float64_minMax_snoc (values : list float64.V) (v : float64.V) :
  float64.minMax (values ++ [v])
  = let '(min, max) := float64.minMax values in
    if float64.IsNaN v then (min, max)
    else
      let min := if float64.IsNaN min then v else min in
      let max := if float64.IsNaN max then v else max in
      let min := if float64.less v min then v else min in
      let max := if float64.less max v then v else max in
      (min, max).
Proof.
  unfold float64.minMax. rewrite foldl_app. simpl.
  by destruct (foldl _ _ values).
Qed.

(** What the first loop finds: NaN twice when the values hold no number,
    the least and the greatest number otherwise. *)
Lemma float64_minMax_spec (values : list float64.V) :
  match float64.minMax values with
  | (float64.NaN, float64.NaN) => ∀ v, v ∈ values → v = float64.NaN
  | (float64.Num a, float64.Num b) =>
      float64.Num a ∈ values ∧ float64.Num b ∈ values
      ∧ ∀ q, float64.Num q ∈ values → a <= q ∧ q <= b
  | _ => False
  end.
Proof.
  induction values as [|v values IH] using rev_ind.
  { simpl. by intros v ?%elem_of_nil. }
  rewrite float64_minMax_snoc.
  destruct (float64.minMax values) as [[|a] [|b]]; try done.
  - destruct v as [|q]; simpl.
    + intros v [Hv| ->%list_elem_of_singleton]%elem_of_app; [by apply IH|done].
    + rewrite !bool_decide_eq_false_2 by (intros H; by apply Qclt_not_eq in H).
      split; [apply elem_of_app; right; by left|].
      split; [apply elem_of_app; right; by left|].
      intros q' [Hq|[= ->]%list_elem_of_singleton]%elem_of_app.
      * by specialize (IH _ Hq).
      * split; apply Qcle_refl.
  - destruct IH as (Hmin & Hmax & Hall). destruct v as [|q]; simpl.
    + split; [apply elem_of_app; by left|].
      split; [apply elem_of_app; by left|].
      intros q' [Hq|[=]%list_elem_of_singleton]%elem_of_app. by apply Hall.
    + destruct (decide (q < a)) as [Hqa|Hqa];
        [rewrite (bool_decide_eq_true_2 (q < a)) by done
        |rewrite (bool_decide_eq_false_2 (q < a)) by done];
      (destruct (decide (b < q)) as [Hbq|Hbq];
        [rewrite (bool_decide_eq_true_2 (b < q)) by done
        |rewrite (bool_decide_eq_false_2 (b < q)) by done]);
      (split; [apply elem_of_app; (by left) || (right; by left)|]);
      (split; [apply elem_of_app; (by left) || (right; by left)|]);
      intros q' [Hq|[= ->]%list_elem_of_singleton]%elem_of_app;
      try (destruct (Hall _ Hq) as [Hlo Hhi]);
      split;
      try apply Qcle_refl; try done;
      try (by apply Qclt_le_weak); try (by apply Qcnot_lt_le);
      try (eapply Qcle_trans; [apply Qclt_le_weak; eassumption|done]);
      try (eapply Qcle_trans; [done|apply Qclt_le_weak; eassumption]).
Qed.

(** X14. [normalizeMap] panics exactly when the map holds no number: when it
    is empty or all its values are NaN. Otherwise it keeps the keys. When
    all numbers of the map are equal, every value, also one that was NaN,
    becomes [(targetMax - targetMin) / 2], which is the middle of the target
    range only when [targetMin] is 0. Otherwise, for the targets 0 and 1
    that every caller passes, a value that was NaN stays NaN, every number
    is taken into the range, the smallest number becomes 0 and the largest
    1, and the order of the numbers is kept. *)
Theorem normalizeMap_spec (m : gmap NodeId float64.V)
    (targetMin targetMax : float64.V) :
  (float64.normalizeMap m targetMin targetMax = None
   ↔ ∀ k v, m !! k = Some v → v = float64.NaN)
  ∧ ∀ out, float64.normalizeMap m targetMin targetMax = Some out →
      (∀ k, is_Some (out !! k) ↔ is_Some (m !! k))
      ∧ ((∀ k k' q q', m !! k = Some (float64.Num q) →
                       m !! k' = Some (float64.Num q') → q = q') →
         ∀ k v, out !! k = Some v →
                v = float64.div (float64.sub targetMax targetMin)
                      (float64.Num 2))
      ∧ ((∃ k k' q q', m !! k = Some (float64.Num q)
                       ∧ m !! k' = Some (float64.Num q') ∧ q ≠ q') →
         targetMin = float64.Num 0 → targetMax = float64.Num 1 →
         (∀ k, m !! k = Some float64.NaN → out !! k = Some float64.NaN)
         ∧ (∀ k q, m !! k = Some (float64.Num q) →
              ∃ w, out !! k = Some (float64.Num w) ∧ 0 <= w ∧ w <= 1)
         ∧ (∃ k, out !! k = Some (float64.Num 0))
         ∧ (∃ k, out !! k = Some (float64.Num 1))
         ∧ ∀ k k' q q' w w',
             m !! k = Some (float64.Num q) →
             m !! k' = Some (float64.Num q') → q <= q' →
             out !! k = Some (float64.Num w) →
             out !! k' = Some (float64.Num w') → w <= w').
Proof.
  unfold float64.normalizeMap.
  pose proof (float64_minMax_spec (map_to_list m).*2) as Hmm.
  destruct (float64.minMax (map_to_list m).*2) as [[|min] [|max]];
    try done; simpl.
  { split; [|done]. split; [|done]. intros _ k v Hk.
    apply Hmm, map_values_elem. eauto. }
  destruct Hmm as ([kmin Hkmin]%map_values_elem
                   & [kmax Hkmax]%map_values_elem & Hall).
  assert (Hall' : ∀ k q, m !! k = Some (float64.Num q) →
            min <= q ∧ q <= max).
  { intros k q Hk. apply Hall, map_values_elem. eauto. }
  split.
  { split; [by case_bool_decide|]. intros Hnan.
    by specialize (Hnan _ _ Hkmin). }
  intros out Hout.
  assert (Hdom : ∀ (f : float64.V → float64.V) k,
            is_Some ((f <$> m) !! k) ↔ is_Some (m !! k)).
  { intros f k. rewrite lookup_fmap. by rewrite fmap_is_Some. }
  case_bool_decide as Heq; injection Hout as <-.
  - subst max. split; [apply Hdom|]. split.
    + intros _ k v. rewrite lookup_fmap.
      destruct (m !! k); simpl; [by intros [= <-]|done].
    + intros (k & k' & q & q' & Hk & Hk' & Hne) _ _. destruct Hne.
      destruct (Hall' _ _ Hk), (Hall' _ _ Hk').
      transitivity min; [|symmetry]; by apply Qcle_antisym.
  - split; [apply Hdom|]. split.
    + intros Hsame. destruct Heq. by apply (Hsame kmax kmin).
    + intros _ -> ->.
      assert (Hlt : 0 < max - min).
      { destruct (Hall' _ _ Hkmax) as [Hle _].
        apply Qcle_lt_or_eq in Hle as [Hlt|Hlt]; [|by destruct Heq].
        by apply Qclt_minus_iff in Hlt. }
      assert (Hne : max - min ≠ 0).
      { intros Hz. rewrite Hz in Hlt. by apply (Qclt_not_eq 0 0). }
      assert (Hval : ∀ val, (val - min) * (1 - 0) / (max - min) + 0
                            = (val - min) / (max - min)).
      { intros val. field. done. }
      match goal with |- context [?f <$> m] => set (out := f <$> m) end.
      assert (Hnum : ∀ k q, m !! k = Some (float64.Num q) →
                out !! k = Some (float64.Num ((q - min) / (max - min)))).
      { intros k q Hk. subst out. rewrite lookup_fmap, Hk. simpl.
        by rewrite Hval. }
      split; [|split; [|split; [|split]]].
      * intros k Hk. subst out. by rewrite lookup_fmap, Hk.
      * intros k q Hk. eexists. split; [by apply Hnum|].
        destruct (Hall' _ _ Hk) as [Hlo Hhi].
        apply unit_interval; [| |done].
        -- by apply Qcle_minus_iff in Hlo.
        -- unfold Qcminus. apply Qcplus_le_compat; [done|apply Qcle_refl].
      * exists kmin. rewrite (Hnum _ _ Hkmin). do 2 f_equal. field. done.
      * exists kmax. rewrite (Hnum _ _ Hkmax). do 2 f_equal. field. done.
      * intros k k' q q' w w' Hk Hk' Hle.
        rewrite (Hnum _ _ Hk), (Hnum _ _ Hk'). intros [= <-] [= <-].
        unfold Qcdiv. apply Qcmult_le_compat_r.
        -- unfold Qcminus. apply Qcplus_le_compat; [done|apply Qcle_refl].
        -- by apply inv_nonneg.
Qed.

(** On a map of numbers, with numbers as targets, [float64.normalizeMap] is
    the [normalizeMap] of the retrieval. *)
Lemma normalizeMap_of_numbers (m : gmap NodeId Qc) (targetMin targetMax : Qc) :
  float64.normalizeMap (float64.Num <$> m) (float64.Num targetMin)
    (float64.Num targetMax)
  = (λ out : gmap NodeId Qc, float64.Num <$> out)
    <$> normalizeMap m targetMin targetMax.
Proof.
  unfold float64.normalizeMap, normalizeMap.
  pose proof (float64_minMax_spec (map_to_list (float64.Num <$> m)).*2) as HF.
  pose proof (minMax_spec (map_to_list m).*2) as HQ.
  assert (Hvals : ∀ q, float64.Num q ∈ (map_to_list (float64.Num <$> m)).*2
                       ↔ q ∈ (map_to_list m).*2).
  { intros q. rewrite !map_values_elem. setoid_rewrite lookup_fmap. split.
    - intros [k Hk]. exists k. destruct (m !! k); simpl in *; congruence.
    - intros [k Hk]. exists k. by rewrite Hk. }
  destruct (minMax (map_to_list m).*2) as [[min max]|]; simpl.
  - destruct HQ as (Hmin & Hmax & Hall).
    destruct (float64.minMax _) as [[|a] [|b]]; try done.
    { apply Hvals in Hmin. by specialize (HF _ Hmin). }
    destruct HF as (Ha%Hvals & Hb%Hvals & HallF).
    assert (a = min) as ->.
    { apply Qcle_antisym; [by apply HallF, Hvals|by apply Hall]. }
    assert (b = max) as ->.
    { apply Qcle_antisym; [by apply Hall|by apply HallF, Hvals]. }
    simpl. case_bool_decide as Heq.
    + rewrite decide_True by done. simpl. f_equal.
      rewrite <- !map_fmap_compose. by apply map_fmap_ext.
    + rewrite decide_False by done. simpl. f_equal.
      rewrite <- !map_fmap_compose. by apply map_fmap_ext.
  - apply fmap_nil_inv, map_to_list_empty_iff in HQ. subst m.
    by rewrite fmap_empty, map_to_list_empty.
Qed.

(** A map whose only number stands beside a NaN: the number and the NaN
    both become the middle of the target range. A map of NaN alone makes
    [normalizeMap] panic. *)
Example normalizeMap_with_NaN :
  float64.normalizeMap
    (<[1%Z := float64.NaN]> (<[2%Z := float64.Num (Q2Qc 7)]> ∅))
    (float64.Num 0) (float64.Num 1)
  = Some (<[1%Z := float64.Num (Q2Qc (1 # 2))]>
            (<[2%Z := float64.Num (Q2Qc (1 # 2))]> ∅))
  ∧ float64.normalizeMap (<[1%Z := float64.NaN]> ∅)
      (float64.Num 0) (float64.Num 1) = None.
Proof. split; vm_compute; reflexivity. Qed.

Lemma highestNValues_facts (m : gmap NodeId Qc) (n : Z) :
  (highestNValues m n = None ↔ (n < 0)%Z)
  ∧ ∀ out, highestNValues m n = Some out →
      out ⊆ m
      ∧ size out = Z.to_nat (Z.min n (Z.of_nat (size m)))
      ∧ ((Z.of_nat (size m) <= n)%Z → out = m)
      ∧ ∀ k v k' v', out !! k = Some v → m !! k' = Some v' →
          out !! k' = None → v <= v'.
Proof.
  split.
  - unfold highestNValues.
    pose proof (len_nonneg (merge_sort byValue (map_to_list m))) as Hlen.
    split.
    + case_decide as Hn; [|done]. intros _. case_decide; lia.
    + intros Hn. rewrite decide_True; [done|]. case_decide; lia.
  - intros out Hout.
    destruct (highestNValues_keeps_lowest m out n Hout) as (Hsub & Hsize & Hlow).
    unfold len in Hsize. rewrite length_map_to_list in Hsize.
    assert (Hsubseteq : out ⊆ m).
    { apply map_subseteq_spec. exact Hsub. }
    split; [done|]. split; [done|]. split; [|done].
    intros Hle. apply map_subseteq_size_eq; [done|]. lia.
Qed.

(** X15. [highestNValues] panics exactly for a negative [n] (the slice
    expression [values[:n]]). Otherwise it returns a part of the map with
    [n] entries, or the whole map when it has no more than [n]; no entry
    kept has a value above that of an entry left out. *)
Theorem highestNValues_returns (m : gmap NodeId Qc) (n : Z) :
  (highestNValues m n = None ↔ (n < 0)%Z)
  ∧ ∀ out, highestNValues m n = Some out →
      out ⊆ m
      ∧ size out = Z.to_nat (Z.min n (Z.of_nat (size m)))
      ∧ ((Z.of_nat (size m) <= n)%Z → out = m)
      ∧ ∀ k v k' v', out !! k = Some v → m !! k' = Some v' →
          out !! k' = None → v <= v'.
Proof. intros. by apply highestNValues_facts. Qed.

#[local] Instance byLastAccessed_total' store : Total (byLastAccessed store).
Proof. intros a b. unfold byLastAccessed. lia. Qed.

#[local] Instance byLastAccessed_trans store : Transitive (byLastAccessed store).
Proof. intros a b c. unfold byLastAccessed. lia. Qed.

Lemma deleteIdle_spec store nodes kept :
  deleteIdle store nodes = Some kept →
  (∀ k, k ∈ nodes → is_Some (GetNode store k))
  ∧ ∀ k, k ∈ kept
      ↔ k ∈ nodes ∧ ∃ c, GetNode store k = Some c
                          ∧ Contains (EmbeddingKey c) "idle" = false.
Proof.
  revert kept. induction nodes as [|n nodes IH]; intros kept; simpl.
  { intros [= <-]. split; [by intros k ?%elem_of_nil|].
    intros k. split; [by intros ?%elem_of_nil|by intros [?%elem_of_nil _]]. }
  destruct (GetNode store n) as [c|] eqn:E; [|done]. simpl.
  destruct (deleteIdle store nodes) as [rest|]; [|done]. simpl.
  intros [= <-]. destruct (IH rest eq_refl) as [Hvalid Hrest]. split.
  { intros k [->|Hk]%elem_of_cons; [by rewrite E|by apply Hvalid]. }
  intros k. destruct (Contains (EmbeddingKey c) "idle") eqn:Hidle.
  - rewrite Hrest, elem_of_cons. split; [by intuition|].
    intros [[->|Hk] (c' & Hc' & Hno)]; [congruence|eauto].
  - rewrite !elem_of_cons, Hrest. split.
    + intros [->|[Hk Hc]]; [eauto|by intuition].
    + intros [[->|Hk] Hc]; [by left|by right].
Qed.

Lemma deleteIdle_None store nodes :
  deleteIdle store nodes = None ↔ ∃ k, k ∈ nodes ∧ GetNode store k = None.
Proof.
  induction nodes as [|n nodes IH]; simpl.
  { split; [done|]. by intros (k & ?%elem_of_nil & _). }
  destruct (GetNode store n) as [c|] eqn:E; simpl.
  - destruct (deleteIdle store nodes) as [rest|]; simpl.
    + split; [done|]. intros (k & [->|Hk]%elem_of_cons & Hnone); [congruence|].
      destruct IH as [_ IH]. discriminate IH. eauto.
    + split; [|done]. intros _. destruct IH as [IH _].
      destruct (IH eq_refl) as (k & Hk & Hnone). exists k. split; [by right|done].
  - split; [|done]. intros _. exists n. split; [by left|done].
Qed.

Lemma candidateNodes_facts (p : Persona) :
  match candidateNodes p with
  | Some nodes =>
      (∀ k, k ∈ nodes
            ↔ k ∈ latestIds (associativeMemory p)
              ∧ ∃ c, GetNode (associativeMemory p) k = Some c
                     ∧ Contains (EmbeddingKey c) "idle" = false)
      ∧ StronglySorted (byLastAccessed (associativeMemory p)) nodes
      ∧ ∀ k, k ∈ latestIds (associativeMemory p) →
             is_Some (GetNode (associativeMemory p) k)
  | None =>
      ∃ k, k ∈ latestIds (associativeMemory p)
           ∧ GetNode (associativeMemory p) k = None
  end.
Proof.
  unfold candidateNodes, latestIds.
  destruct (deleteIdle _ _) as [kept|] eqn:E; simpl.
  - destruct (deleteIdle_spec _ _ _ E) as [Hvalid Hkept]. split; [|split].
    + intros k. rewrite <- Hkept. by rewrite merge_sort_Permutation.
    + apply (StronglySorted_merge_sort _).
    + exact Hvalid.
  - by apply deleteIdle_None.
Qed.

(** X16. The candidate list of a retrieval: it is built exactly when every id
    of the latest-event and latest-thought lists is a node of the store,
    and then holds exactly the listed nodes whose embedding key does not
    contain "idle", in ascending order of [LastAccessed]. *)
Theorem candidateNodes_spec (p : Persona) :
  match candidateNodes p with
  | Some nodes =>
      (∀ k, k ∈ nodes
            ↔ k ∈ latestIds (associativeMemory p)
              ∧ ∃ c, GetNode (associativeMemory p) k = Some c
                     ∧ Contains (EmbeddingKey c) "idle" = false)
      ∧ StronglySorted (byLastAccessed (associativeMemory p)) nodes
      ∧ ∀ k, k ∈ latestIds (associativeMemory p) →
             is_Some (GetNode (associativeMemory p) k)
  | None =>
      ∃ k, k ∈ latestIds (associativeMemory p)
           ∧ GetNode (associativeMemory p) k = None
  end.
Proof. intros. by apply candidateNodes_facts. Qed.

Lemma extractRecencyFrom_dom decay nodes : ∀ i out k,
  is_Some (extractRecencyFrom decay i nodes out !! k)
  ↔ k ∈ nodes ∨ is_Some (out !! k).
Proof.
  induction nodes as [|n nodes IH]; intros i out k; simpl.
  { split; [by right|]. by intros [?%elem_of_nil|?]. }
  rewrite IH, elem_of_cons. destruct (decide (k = n)) as [->|Hne].
  - rewrite lookup_insert_eq. split; [by left; left|by right].
  - rewrite lookup_insert_ne by done. tauto.
Qed.

Lemma touchAll_spec now kept : ∀ store outNodes,
  (∀ k, k ∈ kept → is_Some (GetNode store k)) →
  ∃ store',
    touchAll store now kept outNodes = Some (store', (outNodes ++ kept)%list)
    ∧ (∀ id, GetNode store' id
             = if decide (id ∈ kept) then touch now <$> GetNode store id
               else GetNode store id)
    ∧ withNodes store' (nodes store) = store.
Proof.
  induction kept as [|k kept IH]; intros store outNodes Hvalid;
    cbn [touchAll].
  { exists store. rewrite app_nil_r. split; [done|]. split.
    - intros id. rewrite decide_False; [done|]. by intros ?%elem_of_nil.
    - by destruct store. }
  unfold UpdateNode. destruct (Hvalid k) as [c Hc]; [by left|].
  unfold GetNode in Hc. rewrite Hc. simpl. fold (touch now c).
  set (store1 := withNodes store (<[Z.to_nat k := touch now c]> (nodes store))).
  assert (Hget1 : ∀ id, GetNode store1 id
                        = if decide (id = k) then Some (touch now c)
                          else GetNode store id).
  { intros id. unfold GetNode. simpl. apply index_insert.
    by apply index_Some_lt in Hc. }
  destruct (IH store1 (outNodes ++ [k])%list) as (store' & -> & Hget & Hrest).
  { intros k' Hk'. rewrite Hget1. case_decide; [done|]. apply Hvalid. by right. }
  exists store'. split; [by rewrite <- app_assoc|]. split.
  - intros id. rewrite Hget, Hget1.
    destruct (decide (id = k)) as [->|Hne].
    + rewrite (decide_True (P := k ∈ k :: kept)) by (by left).
      unfold GetNode. rewrite Hc. simpl. by case_decide.
    + destruct (decide (id ∈ kept)) as [Hin|Hin].
      * by rewrite decide_True by (by right).
      * rewrite decide_False; [done|]. by intros [?|?]%elem_of_cons.
  - subst store1. destruct store, store'. unfold withNodes in *.
    simpl in *. injection Hrest as -> -> -> -> -> -> -> -> ->. done.
Qed.

End RetrievalHelpers.

Section RetrievalTurn.
Import agent.
Local Open Scope Qc_scope.

Variable sqrt : Qc → Qc.

Lemma cosine_sums_swap (a b : list Qc) : ∀ dot na nb,
  length a = length b →
  foldl (fun '(dot, na, nb) '(ai, bi) =>
           (dot + ai * bi, na + ai * ai, nb + bi * bi))
    (dot, nb, na) (zip b a)
  = let '(dot', na', nb') :=
      foldl (fun '(dot, na, nb) '(ai, bi) =>
               (dot + ai * bi, na + ai * ai, nb + bi * bi))
        (dot, na, nb) (zip a b) in
    (dot', nb', na').
Proof.
  revert b. induction a as [|ai a IH]; intros [|bi b] dot na nb Hlen;
    simpl in *; try done.
  rewrite (Qcmult_comm bi ai). apply IH. lia.
Qed.

Lemma cosine_sums_zero (a b : list Qc) : ∀ dot na nb,
  Forall (λ x, x = 0) a →
  (foldl (fun '(dot, na, nb) '(ai, bi) =>
            (dot + ai * bi, na + ai * ai, nb + bi * bi))
     (dot, na, nb) (zip a b)).1.2 = na.
Proof.
  revert b. induction a as [|ai a IH]; intros [|bi b] dot na nb Hall;
    simpl; try done.
  apply Forall_cons_1 in Hall as [-> Hall]. rewrite (IH b _ _ _ Hall). ring.
Qed.

(** X17. [cosineSimilarity] does not depend on the order of its two vectors. It
    panics on vectors of different lengths, on empty vectors and when one
    of the vectors is all zeros. *)
Theorem cosineSimilarity_sym (a b : list Qc) :
  cosineSimilarity sqrt a b = cosineSimilarity sqrt b a
  ∧ (length a ≠ length b ∨ a = [] ∨ Forall (λ x, x = 0) a
     ∨ Forall (λ x, x = 0) b →
     cosineSimilarity sqrt a b = None).
Proof.
  assert (Hsym : ∀ a b, cosineSimilarity sqrt a b = cosineSimilarity sqrt b a).
  { clear a b. intros a b. unfold cosineSimilarity.
    destruct (decide (length a ≠ length b)) as [Hne|Heq].
    { by rewrite decide_True by done. }
    apply dec_stable in Heq. rewrite (decide_False (P := length b ≠ length a))
      by (intros Hne; by apply Hne).
    rewrite <- Heq. case_decide as Hz; [done|].
    pose proof (cosine_sums_swap a b 0 0 0 Heq) as Hswap.
    destruct (foldl _ (0, 0, 0) (zip a b)) as [[dot na] nb].
    rewrite Hswap.
    destruct (decide (na = 0 ∨ nb = 0)) as [Hn|Hn].
    - rewrite decide_True; [done|tauto].
    - rewrite decide_False; [|tauto]. by rewrite (Qcmult_comm (sqrt nb)). }
  split; [apply Hsym|].
  assert (Hzero : ∀ a b, Forall (λ x, x = 0) a → cosineSimilarity sqrt a b = None).
  { clear a b. intros a b Hall. unfold cosineSimilarity.
    case_decide; [done|]. case_decide; [done|].
    pose proof (cosine_sums_zero a b 0 0 0 Hall) as Hna.
    destruct (foldl _ (0, 0, 0) (zip a b)) as [[dot na] nb]. simpl in Hna.
    rewrite decide_True; [done|by left]. }
  intros [Hne|[->|[Hall|Hall]]].
  - unfold cosineSimilarity. by rewrite decide_True.
  - unfold cosineSimilarity. case_decide; [done|]. by rewrite decide_True.
  - by apply Hzero.
  - rewrite Hsym. by apply Hzero.
Qed.

Lemma finalScores_spec (p p1 : Persona) (focalPoint : string)
    (scores : gmap NodeId Qc) :
  finalScores sqrt p focalPoint = Some (p1, scores) →
  ∃ nodes, candidateNodes p = Some nodes
    ∧ nodes ≠ []
    ∧ p1 = (personaGetEmbedding p focalPoint).1
    ∧ ∀ k, is_Some (scores !! k) ↔ k ∈ nodes.
Proof.
  unfold finalScores. destruct (candidateNodes p) as [nodes|]; [|done]. simpl.
  destruct (normalizeMap (extractRecency p nodes) 0 1) as [recency|] eqn:Hrec;
    [|done]. simpl.
  destruct (extractImportance p nodes) as [imp|]; [|done]. simpl.
  destruct (normalizeMap imp 0 1) as [imp'|]; [|done]. simpl.
  unfold extractRelevance.
  destruct (personaGetEmbedding p focalPoint) as [p' focalEmbedding] eqn:Hemb.
  destruct (relevanceOf sqrt (associativeMemory p') focalEmbedding nodes ∅)
    as [rel|]; [|done]. simpl.
  destruct (normalizeMap rel 0 1) as [rel'|]; [|done]. simpl.
  destruct (extractValence p' nodes) as [val|]; [|done]. simpl.
  destruct (normalizeMap (clampAndFlip val 0) 0 1) as [val'|]; [|done]. simpl.
  intros [= <- <-]. exists nodes. split; [done|].
  destruct (normalizeMap_facts (extractRecency p nodes) 0 1) as [Hnone Hsome].
  destruct (Hsome _ Hrec) as [Hdom _].
  split; [|split; [done|]].
  - intros ->. destruct Hnone as [_ Hnone]. by rewrite Hnone in Hrec.
  - intros k. rewrite map_lookup_imap.
    transitivity (is_Some (recency !! k)).
    { destruct (recency !! k); simpl; [|done]. by split; eauto. }
    rewrite Hdom. unfold extractRecency. rewrite extractRecencyFrom_dom.
    rewrite lookup_empty. split; [intros [?|[? ?]]; done|by left].
Qed.

Lemma personaGetEmbedding_keeps (p : Persona) (str : string) :
  let p' := (personaGetEmbedding p str).1 in
  state p' = state p
  ∧ withNodes (associativeMemory p') (nodes (associativeMemory p'))
    = withNodes (associativeMemory p') (nodes (associativeMemory p))
  ∧ nodes (associativeMemory p') = nodes (associativeMemory p)
  ∧ events (associativeMemory p') = events (associativeMemory p)
  ∧ thoughts (associativeMemory p') = thoughts (associativeMemory p).
Proof.
  unfold personaGetEmbedding.
  destruct (GetEmbedding (associativeMemory p) str); simpl; done.
Qed.

(** X18. One turn of the retrieval loop, when it returns: the ids it hands back
    are distinct candidates, as many as [config.count] or all candidates
    when there are fewer; in the store each of them has been touched
    ([LastAccessed] set to the persona's current time) and every other node
    reads as before; the persona's state is unchanged. *)
Theorem retrieveForFocalPoint_result (config : retrievalConfig)
    (p p' : Persona) (focalPoint : string) (outNodes : list NodeId) :
  retrieveForFocalPoint sqrt config p focalPoint = Some (p', outNodes) →
  ∃ nodes, candidateNodes p = Some nodes
    ∧ NoDup outNodes
    ∧ (∀ k, k ∈ outNodes → k ∈ nodes)
    ∧ length outNodes
      = Z.to_nat (Z.min (count config) (Z.of_nat (size (candidateSet nodes))))
    ∧ (∀ id, GetNode (associativeMemory p') id
             = if decide (id ∈ outNodes)
               then touch (CurrentTime (state p))
                    <$> GetNode (associativeMemory p) id
               else GetNode (associativeMemory p) id)
    ∧ state p' = state p.
Proof.
  unfold retrieveForFocalPoint.
  destruct (finalScores sqrt p focalPoint) as [[p1 scores]|] eqn:Hfinal;
    [|done]. simpl.
  destruct (finalScores_spec _ _ _ _ Hfinal) as (nodes & Hcand & _ & -> & Hdom).
  destruct (highestNValues scores (count config)) as [out|] eqn:Hout; [|done].
  simpl.
  destruct (highestNValues_facts scores (count config)) as [_ Hret].
  destruct (Hret out Hout) as (Hsub & Hsize & _).
  destruct (personaGetEmbedding_keeps p focalPoint) as (Hst & _ & Hns & _).
  set (p1 := (personaGetEmbedding p focalPoint).1) in *.
  assert (Hkeys : ∀ k, k ∈ (map_to_list out).*1 → k ∈ nodes).
  { intros k ([k' v] & -> & Hkv%elem_of_map_to_list)%list_elem_of_fmap.
    apply Hdom. exists v. by apply (lookup_weaken out scores). }
  pose proof (candidateNodes_facts p) as Hspec. rewrite Hcand in Hspec.
  destruct Hspec as [Hnodes _].
  destruct (touchAll_spec (CurrentTime (state p1)) (map_to_list out).*1
              (associativeMemory p1) []) as (store' & -> & Hget & _).
  { intros k Hk%Hkeys. apply Hnodes in Hk as (_ & c & Hc & _).
    unfold GetNode in *. rewrite Hns. by rewrite Hc. }
  simpl. intros [= <- <-]. exists nodes. split; [done|].
  split; [apply NoDup_fst_map_to_list|]. split; [done|]. split; [|split].
  - rewrite length_fmap, length_map_to_list, Hsize. do 3 f_equal.
    unfold candidateSet. rewrite <- (size_dom (D := gset NodeId)).
    apply set_size_proper. intros k.
    by rewrite elem_of_dom, elem_of_list_to_set.
  - intros id. rewrite Hget, Hst. unfold GetNode. by rewrite Hns.
  - done.
Qed.

(** X19. Retrieval needs a candidate: when every listed event and thought has
    "idle" in its embedding key (or there is none at all), the first focal
    point makes [retrieveForFocalPoints] panic, since [normalizeMap] finds
    no minimum in the empty recency map. With no focal point it returns the
    empty result and leaves the persona as it was. *)
Theorem retrieve_without_candidates_panics (p : Persona)
    (focalPoint : string) (focalPoints : list string)
    (retrievalOpts : list retrievalOpt) :
  (∀ k c, k ∈ latestIds (associativeMemory p) →
          GetNode (associativeMemory p) k = Some c →
          Contains (EmbeddingKey c) "idle" = true) →
  retrieveForFocalPoints sqrt p (focalPoint :: focalPoints) retrievalOpts
  = None
  ∧ retrieveForFocalPoints sqrt p [] retrievalOpts = Some (p, ∅).
Proof.
  intros Hidle. split; [|done].
  unfold retrieveForFocalPoints. cbn [retrieveLoop].
  unfold retrieveForFocalPoint.
  destruct (finalScores sqrt p focalPoint) as [[p1 scores]|] eqn:Hfinal;
    [|done].
  destruct (finalScores_spec _ _ _ _ Hfinal) as (nodes & Hcand & Hne & _).
  pose proof (candidateNodes_facts p) as Hspec. rewrite Hcand in Hspec.
  destruct Hspec as [Hnodes _]. destruct nodes as [|k nodes]; [done|].
  destruct (proj1 (Hnodes k)) as (Hk & c & Hc & Hno); [by left|].
  rewrite (Hidle k c Hk Hc) in Hno. done.
Qed.

End RetrievalTurn.

Lemma retrieve_without_candidates_panics_witness :
  (∀ k c, k ∈ latestIds (agent.associativeMemory idlePersona) →
          GetNode (agent.associativeMemory idlePersona) k = Some c →
          agent.Contains (EmbeddingKey c) "idle" = true)
  ∧ agent.retrieveForFocalPoints exactSqrt idlePersona ["chores"] [] = None
  ∧ agent.retrieveForFocalPoints exactSqrt idlePersona [] []
    = Some (idlePersona, ∅).
Proof.
  assert (Hidle : ∀ k c,
            k ∈ latestIds (agent.associativeMemory idlePersona) →
            GetNode (agent.associativeMemory idlePersona) k = Some c →
            agent.Contains (EmbeddingKey c) "idle" = true).
  { intros k c [->|[]%elem_of_nil]%elem_of_cons. by intros [= <-]. }
  split; [exact Hidle|].
  apply (retrieve_without_candidates_panics exactSqrt idlePersona "chores" []
           [] Hidle).
Defined.

Lemma retrieveForFocalPoint_result_witness :
  let p := choresPersona 3 in
  let config := agent.mkRetrievalConfig 2 in
  let r := default (p, []) (agent.retrieveForFocalPoint exactSqrt config p "chores") in
  agent.retrieveForFocalPoint exactSqrt config p "chores" = Some (r.1, r.2)
  ∧ ∃ nodes, agent.candidateNodes p = Some nodes
      ∧ NoDup r.2
      ∧ (∀ k, k ∈ r.2 → k ∈ nodes)
      ∧ length r.2
        = Z.to_nat (Z.min (agent.count config)
                      (Z.of_nat (size (candidateSet nodes))))
      ∧ (∀ id, GetNode (agent.associativeMemory r.1) id
               = if decide (id ∈ r.2)
                 then touch (agent.CurrentTime (agent.state p))
                      <$> GetNode (agent.associativeMemory p) id
                 else GetNode (agent.associativeMemory p) id)
      ∧ agent.state r.1 = agent.state p.
Proof.
  intros p config r.
  assert (Hr : agent.retrieveForFocalPoint exactSqrt config p "chores"
               = Some (r.1, r.2)).
  { assert (Hs : is_Some (agent.retrieveForFocalPoint exactSqrt config p
                            "chores"))
      by (vm_compute; eexists; reflexivity).
    exact (Some_default_pair _ (p, []) Hs). }
  split; [exact Hr|].
  apply (retrieveForFocalPoint_result exactSqrt config p r.1 "chores" r.2).
  exact Hr.
Defined.


(* --------------------------------------------------------------------- *)
(** ** Reaction planning: the spliced daily schedule *)

Section ReactionProperties.
Import agent llm.

Lemma wrap64_small z : - 2 ^ 63 <= z < 2 ^ 63 → wrap64 z = z.
Proof.
  intros Hz. unfold wrap64.
  rewrite Z.mod_small; lia.
Qed.

Lemma minutes_small d : 0 <= d <= 1440 → minutes d = d * Minute.
Proof.
  intros Hd. unfold minutes. apply wrap64_small.
  unfold Minute, Second. lia.
Qed.

Lemma totalDuration_app l1 l2 :
  totalDuration (l1 ++ l2) = totalDuration l1 + totalDuration l2.
Proof. induction l1 as [|p l1 IH]; simpl; [done|]. rewrite IH. lia. Qed.

Lemma totalDuration_nonneg l :
  Forall (λ plan, 0 <= Duration plan) l → 0 <= totalDuration l.
Proof. induction 1; simpl; lia. Qed.

Lemma Duration_le_total l :
  Forall (λ plan, 0 <= Duration plan) l →
  Forall (λ plan, 0 <= Duration plan <= totalDuration l) l.
Proof.
  induction 1 as [|p l Hp Hl IH]; simpl; constructor.
  - pose proof (totalDuration_nonneg l Hl). lia.
  - eapply Forall_impl; [exact IH|]. simpl. intros; lia.
Qed.

Lemma elapsedBefore_minutes l i :
  Forall (λ plan, 0 <= Duration plan <= 1440) l →
  elapsedBefore l i = totalDuration (take i l) * Minute.
Proof.
  unfold elapsedBefore. revert i.
  induction l as [|p l IH]; intros i Hl; destruct i; simpl; try done.
  apply Forall_cons in Hl as [Hp Hl].
  rewrite (IH i Hl), (minutes_small _ Hp). lia.
Qed.

Lemma findIndices_firstAtOrAfter schedule startTime endTime :
  ∀ i durSum startIndex endIndex, 0 <= i →
  findIndices schedule startTime endTime i durSum startIndex endIndex
  = (if decide (startIndex = -1)
     then firstAtOrAfter schedule startTime i durSum else startIndex,
     if decide (endIndex = -1)
     then firstAtOrAfter schedule endTime i durSum else endIndex).
Proof.
  induction schedule as [|plan rest IH]; intros i durSum sI eI Hi; simpl.
  { repeat case_decide; congruence. }
  rewrite IH by lia.
  repeat case_decide; try reflexivity; try lia; try tauto.
Qed.

Lemma firstAtOrAfter_aligned schedule t : ∀ i durSum,
  Forall (λ plan, 0 <= minutes (Duration plan)) schedule →
  (∃ j, (j < length schedule)%nat ∧ durSum + elapsedBefore schedule j = t) →
  ∃ j, firstAtOrAfter schedule t i durSum = i + Z.of_nat j
       ∧ (j < length schedule)%nat
       ∧ durSum + elapsedBefore schedule j = t.
Proof.
  unfold elapsedBefore.
  induction schedule as [|plan rest IH]; intros i durSum Hnn (j & Hj & Ht).
  { simpl in Hj. lia. }
  apply Forall_cons in Hnn as [Hp Hnn]. simpl.
  assert (Hge : ∀ l k, Forall (λ plan, 0 <= minutes (Duration plan)) l →
            0 <= foldr (λ plan sum, minutes (Duration plan) + sum) 0 (take k l)).
  { clear. induction l as [|q l IHl]; intros k Hl; destruct k; simpl; try lia.
    apply Forall_cons in Hl as [Hq Hl]. specialize (IHl k Hl). lia. }
  case_decide as Hlt.
  - exists 0%nat. split; [lia|]. split; [simpl; lia|]. simpl.
    pose proof (Hge (plan :: rest) j ltac:(by constructor)). lia.
  - destruct j as [|j].
    { simpl in Ht. lia. }
    simpl in Ht, Hj.
    destruct (IH (i + 1) (durSum + minutes (Duration plan)) Hnn) as (j' & Hf & Hj' & Ht').
    { exists j. split; [lia|]. lia. }
    exists (S j'). split; [rewrite Hf; lia|]. split; [simpl; lia|].
    simpl. lia.
Qed.

Lemma scheduledDuration_minutes schedule :
  Forall (λ plan, 0 <= Duration plan) schedule →
  totalDuration schedule <= 100000000 →
  scheduledDuration schedule = totalDuration schedule * Minute.
Proof.
  unfold scheduledDuration. intros Hnn Hle.
  assert (Hgen : ∀ l acc,
            Forall (λ plan, 0 <= Duration plan) l →
            0 <= acc → acc + totalDuration l <= 100000000 →
            foldl (λ sum plan, wrap64 (sum + minutes (Duration plan)))
              (acc * Minute) l
            = (acc + totalDuration l) * Minute).
  { clear. induction l as [|p l IH]; intros acc Hl Hacc Hle; simpl.
    { f_equal. lia. }
    apply Forall_cons in Hl as [Hp Hl].
    pose proof (totalDuration_nonneg l Hl) as Hl0. simpl in Hle.
    assert (minutes (Duration p) = Duration p * Minute) as ->.
    { unfold minutes. apply wrap64_small. unfold Minute, Second. lia. }
    rewrite wrap64_small by (unfold Minute, Second; lia).
    replace (acc * Minute + Duration p * Minute)
      with ((acc + Duration p) * Minute) by lia.
    rewrite IH by (done || lia). f_equal. lia. }
  specialize (Hgen schedule 0 Hnn ltac:(lia) ltac:(lia)).
  rewrite Z.add_0_l in Hgen. exact Hgen.
Qed.

(** Where the 1440 minutes come from: the schedule [determineActivity]
    leaves, when it does not panic, sums to 1440 minutes. *)
Lemma padToDay_total schedule padded :
  Forall (λ plan, 0 <= Duration plan) schedule →
  totalDuration schedule <= 100000000 →
  padToDay schedule = Some padded →
  totalDuration padded = 1440.
Proof.
  intros Hnn Hle. unfold padToDay.
  rewrite (scheduledDuration_minutes _ Hnn Hle).
  pose proof (totalDuration_nonneg _ Hnn) as H0.
  assert (Hq : wholeMinutes (totalDuration schedule * Minute)
               = totalDuration schedule).
  { unfold wholeMinutes. apply Z.quot_mul. unfold Minute, Second. lia. }
  assert (Hd : wholeMinutes Day = 1440) by reflexivity.
  repeat case_decide; intros [= <-].
  - rewrite totalDuration_app, Hq, Hd. simpl.
    rewrite wrap64_small; unfold Day, Hour, Minute, Second in *; lia.
  - unfold Day, Hour, Minute, Second in *. lia.
Qed.

(** When the splice does keep the day: [createReact] leaves a daily
    schedule of 1440 minutes when the schedule summed to 1440 minutes
    before, its durations are not negative, the replacement plans sum to
    the duration of the window, and an entry of the live schedule starts
    exactly at each end of the window. *)
Lemma createReact_keeps_day
    (GenerateReactionScheduleUpdate : Persona → Plan → Time → Time → list Plan)
    (p : Persona) (summary : string) (duration : Z) (address : Path)
    (spo : SPO) (actStartTime : Time) (pronunciato chattingWith : string)
    (chat : list Utterance) (chattingWithBuffer : gmap string Z)
    (chatEndTime startTime endTime : Time) :
  Forall (λ plan, 0 <= Duration plan) (DailySchedule (state p)) →
  totalDuration (DailySchedule (state p)) = 1440 →
  reactWindow p = Some (startTime, endTime) →
  totalDuration
    (GenerateReactionScheduleUpdate p (mkPlan summary duration) startTime endTime)
  = windowMinutes startTime endTime →
  startsAt (DailySchedule (state p)) (StartOfDay p) startTime →
  startsAt (DailySchedule (state p)) (StartOfDay p) endTime →
  ∃ p', createReact GenerateReactionScheduleUpdate p summary duration address
          spo actStartTime pronunciato chattingWith chat chattingWithBuffer
          chatEndTime = Some p'
        ∧ totalDuration (DailySchedule (state p')) = 1440.
Proof.
  intros Hnn Htotal Hwin Hnew Hstart Hend.
  set (schedule := DailySchedule (state p)) in *.
  assert (Hbound : Forall (λ plan, 0 <= Duration plan <= 1440) schedule).
  { rewrite <- Htotal. by apply Duration_le_total. }
  assert (Hmin : Forall (λ plan, 0 <= minutes (Duration plan)) schedule).
  { eapply Forall_impl; [exact Hbound|]. simpl. intros plan Hp.
    rewrite (minutes_small _ Hp). unfold Minute, Second. lia. }
  destruct (firstAtOrAfter_aligned schedule startTime 0 (StartOfDay p) Hmin Hstart)
    as (si & Hsi & Hsilt & Hsit).
  destruct (firstAtOrAfter_aligned schedule endTime 0 (StartOfDay p) Hmin Hend)
    as (ei & Hei & Heilt & Heit).
  rewrite (elapsedBefore_minutes _ _ Hbound) in Hsit.
  rewrite (elapsedBefore_minutes _ _ Hbound) in Heit.
  assert (Hsplit : ∀ k, totalDuration schedule
                        = totalDuration (take k schedule) + totalDuration (drop k schedule)).
  { intros k. by rewrite <- totalDuration_app, take_drop. }
  assert (Htake : ∀ k, 0 <= totalDuration (take k schedule) <= 1440).
  { intros k. pose proof (Hsplit k).
    pose proof (totalDuration_nonneg (take k schedule)
                  (Forall_take _ _ _ Hnn)).
    pose proof (totalDuration_nonneg (drop k schedule)
                  (Forall_drop _ _ _ Hnn)).
    lia. }
  assert (Hw : windowMinutes startTime endTime
               = totalDuration (take ei schedule) - totalDuration (take si schedule)).
  { unfold windowMinutes, wholeMinutes, Sub.
    pose proof (Htake si). pose proof (Htake ei).
    replace (endTime - startTime)
      with ((totalDuration (take ei schedule) - totalDuration (take si schedule))
            * Minute) by lia.
    rewrite Z.min_r, Z.max_r by (unfold Minute, Second; lia).
    apply Z.quot_mul. unfold Minute, Second. lia. }
  unfold createReact. rewrite Hwin. simpl.
  rewrite findIndices_firstAtOrAfter by lia.
  rewrite !decide_True by done.
  fold schedule. rewrite Hsi, Hei.
  unfold sliceTo, sliceFrom, len.
  rewrite !decide_True by lia. simpl.
  rewrite !Z.add_0_l, !Nat2Z.id.
  assert (Hsum : totalDuration
                   ((take si schedule
                     ++ GenerateReactionScheduleUpdate p (mkPlan summary duration)
                          startTime endTime)
                    ++ drop ei schedule) = 1440).
  { rewrite !totalDuration_app, Hnew, Hw.
    pose proof (Hsplit ei). lia. }
  case_decide; eexists; (split; [reflexivity|]); exact Hsum.
Qed.

Example createReact_keeps_day_aligned :
  let p := schedulePersona (390 * Minute) originalDay originalDay in
  ∃ p', createReact (fixedCognition twoHourPlans) p "waiting to start work" 10
          (mkPath "<waiting> X" " 3, Y" " 4" "")
          (mkSPO "bob" "waiting to start" "work") zeroTime "⌛" "" [] ∅ zeroTime
        = Some p'
        ∧ totalDuration (DailySchedule (state p')) = 1440.
Proof.
  intros p.
  apply (createReact_keeps_day (fixedCognition twoHourPlans) p
           "waiting to start work" 10 (mkPath "<waiting> X" " 3, Y" " 4" "")
           (mkSPO "bob" "waiting to start" "work") zeroTime "⌛" "" [] ∅ zeroTime
           (360 * Minute) (480 * Minute)).
  - repeat constructor; simpl; lia.
  - reflexivity.
  - vm_compute. reflexivity.
  - vm_compute. reflexivity.
  - exists 1%nat. split; [simpl; lia|vm_compute; reflexivity].
  - exists 3%nat. split; [simpl; lia|vm_compute; reflexivity].
Qed.

(** How the live schedule loses an hourly boundary. At 06:30 the window
    runs from 06:00 to 08:00; the replacement keeps the half hour of
    breakfast that is over and plans the remaining 90 minutes, and the
    schedule that results has no entry starting at 07:00. *)
Example createReact_first_splice :
  scheduleAfterWait
    (fixedCognition
       [mkPlan "breakfast" 30; mkPlan "chat" 45; mkPlan "work" 45])
    (schedulePersona (390 * Minute) originalDay originalDay) 10
  = Some dayAfterChat.
Proof. vm_compute. reflexivity. Qed.

(** C3 fails. The live schedule sums to 1440 minutes and, after the
    earlier splice, has entries starting at 06:30, 07:15 and 08:00 but none
    at 07:00. At 07:20 the window runs from 07:00 to 09:00; replacement
    plans of 120 minutes, the duration of the window, take the place of the
    entries from 07:15 to 09:00 only, and the schedule then sums to 1455
    minutes. *)
Theorem createReact_breaks_day :
  let p := schedulePersona (440 * Minute) dayAfterChat originalDay in
  totalDuration (DailySchedule (state p)) = 1440
  ∧ reactWindow p = Some (420 * Minute, 540 * Minute)
  ∧ totalDuration twoHourPlans = windowMinutes (420 * Minute) (540 * Minute)
  ∧ (totalDuration <$> scheduleAfterWait (fixedCognition twoHourPlans) p 10)
    = Some 1455.
Proof. repeat split; vm_compute; reflexivity. Qed.

(** A window that ends with the day finds no entry to end at, and the
    slice expression panics. *)
Example createReact_end_of_day_panics :
  reactWindow (schedulePersona (900 * Minute) originalDay originalDay)
  = Some (540 * Minute, 1440 * Minute)
  ∧ scheduleAfterWait (fixedCognition twoHourPlans)
      (schedulePersona (900 * Minute) originalDay originalDay) 10
    = None.
Proof. split; vm_compute; reflexivity. Qed.

End ReactionProperties.

(* --------------------------------------------------------------------- *)
(** ** The clock, the plan index and the waking time *)

Section ScheduleProperties.
Import agent llm.

Lemma clock_sum (t : Time) :
  clockHour t * Hour + clockMinute t * Minute + clockSecond t * Second
  + clockNanosecond t = t mod Day.
Proof.
  unfold clockHour, clockMinute, clockSecond, clockNanosecond.
  unfold Day, Hour, Minute, Second.
  Z.div_mod_to_equations. lia.
Qed.

(** The time of day that the plan index is looked up with is the time that
    has passed since [StartOfDay], a duration of less than a day. *)
Lemma timeElapsedToday_StartOfDay (p : Persona) :
  timeElapsedToday (state p) 0 = CurrentTime (state p) - StartOfDay p
  ∧ 0 <= timeElapsedToday (state p) 0 < Day.
Proof.
  unfold timeElapsedToday, StartOfDay. rewrite Z.add_0_r, clock_sum.
  assert (Hr : 0 <= CurrentTime (state p) mod Day < Day).
  { apply Z.mod_pos_bound. reflexivity. }
  rewrite wrap64_small; [lia|].
  unfold Day, Hour, Minute, Second in *. lia.
Qed.

Lemma elapsedBefore_S (plan : Plan) (schedule : list Plan) (i : nat) :
  elapsedBefore (plan :: schedule) (S i)
  = minutes (Duration plan) + elapsedBefore schedule i.
Proof. done. Qed.

Lemma elapsedBefore_bounds (schedule : list Plan) (i : nat) :
  Forall (λ plan, 0 <= Duration plan) schedule →
  totalDuration schedule <= 1440 →
  0 <= elapsedBefore schedule i <= totalDuration schedule * Minute
  ∧ ((length schedule <= i)%nat →
     elapsedBefore schedule i = totalDuration schedule * Minute).
Proof.
  intros Hnn Hle.
  assert (Hb : Forall (λ plan, 0 <= Duration plan <= 1440) schedule).
  { eapply Forall_impl; [by apply Duration_le_total|]. simpl. intros; lia. }
  rewrite (elapsedBefore_minutes _ _ Hb).
  pose proof (totalDuration_nonneg _ (Forall_take _ i _ Hnn)) as H1.
  pose proof (totalDuration_nonneg _ (Forall_drop _ i _ Hnn)) as H2.
  assert (Hs : totalDuration schedule
               = totalDuration (take i schedule)
                 + totalDuration (drop i schedule)).
  { by rewrite <- totalDuration_app, take_drop. }
  split; [unfold Minute, Second; lia|].
  intros Hi. by rewrite take_ge.
Qed.

Lemma planIndexFrom_spec (schedule : list Plan) (t : Z) :
  ∀ elapsed currIndex,
  Forall (λ plan, 0 <= Duration plan) schedule →
  0 <= elapsed →
  elapsed + totalDuration schedule * Minute <= 1440 * Minute →
  elapsed <= t →
  ∃ i : nat,
    planIndexFrom schedule t elapsed currIndex = currIndex + Z.of_nat i
    ∧ (i <= length schedule)%nat
    ∧ elapsed + elapsedBefore schedule i <= t
    ∧ ((i < length schedule)%nat →
       t < elapsed + elapsedBefore schedule (S i)).
Proof.
  induction schedule as [|plan schedule IH];
    intros elapsed currIndex Hnn Hel Hle Ht.
  { exists 0%nat. simpl. split; [lia|]. split; [lia|].
    split; [unfold elapsedBefore; simpl; lia|lia]. }
  apply Forall_cons in Hnn as [Hp Hnn]. simpl in Hle.
  pose proof (totalDuration_nonneg _ Hnn) as Hrest.
  assert (Hd : Duration plan <= 1440) by (unfold Minute, Second in *; lia).
  cbn [planIndexFrom].
  rewrite (minutes_small (Duration plan)) by lia.
  rewrite wrap64_small by (unfold Minute, Second in *; lia).
  case_decide as Hlt.
  - exists 0%nat. split; [lia|]. split; [simpl; lia|].
    split; [unfold elapsedBefore; simpl; lia|]. intros _.
    rewrite elapsedBefore_S.
    rewrite (minutes_small (Duration plan)) by lia.
    unfold elapsedBefore. simpl. lia.
  - destruct (IH (elapsed + Duration plan * Minute) (currIndex + 1))
      as (i & Hi & Hlen & Hlo & Hhi); try done;
      try (unfold Minute, Second in *; lia).
    exists (S i). split; [lia|]. split; [simpl; lia|].
    rewrite !elapsedBefore_S.
    rewrite (minutes_small (Duration plan)) by lia.
    split; [lia|]. intros Hlt'. simpl in Hlt'.
    specialize (Hhi ltac:(lia)). lia.
Qed.

Lemma planIndex_in_day (p : Persona) :
  Forall (λ plan, 0 <= Duration plan) (DailySchedule (state p)) →
  totalDuration (DailySchedule (state p)) = 1440 →
  ∃ i : nat,
    GetDailyPlanIndex (state p) = Z.of_nat i
    ∧ (i < length (DailySchedule (state p)))%nat
    ∧ StartOfDay p + elapsedBefore (DailySchedule (state p)) i
      <= CurrentTime (state p)
    ∧ CurrentTime (state p)
      < StartOfDay p + elapsedBefore (DailySchedule (state p)) (S i).
Proof.
  intros Hnn Htotal.
  destruct (timeElapsedToday_StartOfDay p) as [Ht Hrange].
  unfold GetDailyPlanIndex, GetDailyPlanIndexInMinutes.
  destruct (planIndexFrom_spec (DailySchedule (state p))
              (timeElapsedToday (state p) 0) 0 0 Hnn)
    as (i & Hi & Hlen & Hlo & Hhi); try lia.
  exists i. split; [lia|].
  assert (Hlt : (i < length (DailySchedule (state p)))%nat).
  { destruct (decide (i < length (DailySchedule (state p)))%nat); [done|].
    destruct (elapsedBefore_bounds (DailySchedule (state p)) i Hnn)
      as [_ Hfull]; [lia|].
    rewrite Hfull in Hlo by lia. rewrite Htotal in Hlo.
    unfold Day, Hour in Hrange. lia. }
  split; [done|]. specialize (Hhi Hlt). lia.
Qed.

(** X20. The plan index on a schedule of a full day: the index is in range and
    is that of the entry during which the current time falls, counted from
    the start of the day. *)
Theorem GetDailyPlanIndex_spec (p : Persona) :
  Forall (λ plan, 0 <= Duration plan) (DailySchedule (state p)) →
  totalDuration (DailySchedule (state p)) = 1440 →
  ∃ i : nat,
    GetDailyPlanIndex (state p) = Z.of_nat i
    ∧ (i < length (DailySchedule (state p)))%nat
    ∧ StartOfDay p + elapsedBefore (DailySchedule (state p)) i
      <= CurrentTime (state p)
    ∧ CurrentTime (state p)
      < StartOfDay p + elapsedBefore (DailySchedule (state p)) (S i).
Proof. intros. by apply planIndex_in_day. Qed.

Lemma GetDailyPlanIndex_spec_witness :
  let p := schedulePersona (440 * Minute) originalDay originalDay in
  Forall (λ plan, 0 <= Duration plan) (DailySchedule (state p))
  ∧ totalDuration (DailySchedule (state p)) = 1440
  ∧ ∃ i : nat,
      GetDailyPlanIndex (state p) = Z.of_nat i
      ∧ (i < length (DailySchedule (state p)))%nat
      ∧ StartOfDay p + elapsedBefore (DailySchedule (state p)) i
        <= CurrentTime (state p)
      ∧ CurrentTime (state p)
        < StartOfDay p + elapsedBefore (DailySchedule (state p)) (S i).
Proof.
  intros p.
  assert (Hnn : Forall (λ plan, 0 <= Duration plan) (DailySchedule (state p))).
  { repeat constructor; simpl; lia. }
  assert (Htotal : totalDuration (DailySchedule (state p)) = 1440)
    by reflexivity.
  split; [exact Hnn|]. split; [exact Htotal|].
  exact (GetDailyPlanIndex_spec p Hnn Htotal).
Defined.

Lemma foldl_wrap_total (l : list Plan) : ∀ acc,
  Forall (λ plan, 0 <= Duration plan) l →
  0 <= acc → acc + totalDuration l <= 1440 →
  foldl (λ sum plan, wrap64 (sum + Duration plan)) acc l
  = acc + totalDuration l.
Proof.
  induction l as [|plan l IH]; intros acc Hnn Hacc Hle; simpl; [lia|].
  apply Forall_cons in Hnn as [Hp Hnn]. simpl in Hle.
  pose proof (totalDuration_nonneg _ Hnn) as Hrest.
  rewrite wrap64_small by lia. rewrite IH by (done || lia). lia.
Qed.

Lemma take_totalDuration_le (schedule : list Plan) (i : nat) :
  Forall (λ plan, 0 <= Duration plan) schedule →
  0 <= totalDuration (take i schedule) <= totalDuration schedule.
Proof.
  intros Hnn.
  pose proof (totalDuration_nonneg _ (Forall_take _ i _ Hnn)) as H1.
  pose proof (totalDuration_nonneg _ (Forall_drop _ i _ Hnn)) as H2.
  assert (Hs : totalDuration schedule
               = totalDuration (take i schedule)
                 + totalDuration (drop i schedule)).
  { by rewrite <- totalDuration_app, take_drop. }
  lia.
Qed.

(** X21. [WakeUpTime] on a schedule of a full day never panics. When the
    current entry is a "sleeping" one it is the end of that entry, which
    lies after the current time; otherwise it is the zero time. *)
Theorem WakeUpTime_spec (p : Persona) :
  Forall (λ plan, 0 <= Duration plan) (DailySchedule (state p)) →
  totalDuration (DailySchedule (state p)) = 1440 →
  ∃ (i : nat) (plan : Plan) (t : Time),
    GetDailyPlanIndex (state p) = Z.of_nat i
    ∧ DailySchedule (state p) !! i = Some plan
    ∧ WakeUpTime p = Some t
    ∧ (Contains (Activity plan) "sleeping" = true →
       t = StartOfDay p + elapsedBefore (DailySchedule (state p)) (S i)
       ∧ CurrentTime (state p) < t)
    ∧ (Contains (Activity plan) "sleeping" = false → t = zeroTime).
Proof.
  intros Hnn Htotal.
  destruct (planIndex_in_day p Hnn Htotal) as (i & Hi & Hlt & Hlo & Hhi).
  destruct (lookup_lt_is_Some_2 _ _ Hlt) as [plan Hplan].
  unfold WakeUpTime. rewrite Hi. unfold index.
  rewrite decide_True by lia. rewrite Nat2Z.id, Hplan. simpl.
  assert (Hb : Forall (λ plan, 0 <= Duration plan <= 1440)
                 (DailySchedule (state p))).
  { rewrite <- Htotal. by apply Duration_le_total. }
  destruct (Contains (Activity plan) "sleeping") eqn:Hs; simpl.
  - eexists i, plan, _. split; [done|]. split; [done|]. split; [done|].
    split; [|intros ?; congruence]. intros _.
    replace (Z.to_nat (Z.of_nat i + 1)) with (S i) by lia.
    pose proof (take_totalDuration_le _ (S i) Hnn) as Hle.
    rewrite foldl_wrap_total by (lia || by apply Forall_take).
    rewrite Z.add_0_l, minutes_small by lia.
    rewrite <- (elapsedBefore_minutes _ _ Hb). split; [done|lia].
  - eexists i, plan, _. split; [done|]. split; [done|]. split; [done|].
    split; [intros ?; congruence|]. done.
Qed.

Lemma WakeUpTime_spec_witness :
  let p := schedulePersona (200 * Minute) originalDay originalDay in
  Forall (λ plan, 0 <= Duration plan) (DailySchedule (state p))
  ∧ totalDuration (DailySchedule (state p)) = 1440
  ∧ ∃ (i : nat) (plan : Plan) (t : Time),
      GetDailyPlanIndex (state p) = Z.of_nat i
      ∧ DailySchedule (state p) !! i = Some plan
      ∧ WakeUpTime p = Some t
      ∧ (Contains (Activity plan) "sleeping" = true →
         t = StartOfDay p + elapsedBefore (DailySchedule (state p)) (S i)
         ∧ CurrentTime (state p) < t)
      ∧ (Contains (Activity plan) "sleeping" = false → t = zeroTime).
Proof.
  intros p.
  assert (Hnn : Forall (λ plan, 0 <= Duration plan) (DailySchedule (state p))).
  { repeat constructor; simpl; lia. }
  assert (Htotal : totalDuration (DailySchedule (state p)) = 1440)
    by reflexivity.
  split; [exact Hnn|]. split; [exact Htotal|].
  exact (WakeUpTime_spec p Hnn Htotal).
Defined.

(** At 03:20 of the hourly day the persona sleeps until 06:00. *)
Example WakeUpTime_at_night :
  WakeUpTime (schedulePersona (200 * Minute) originalDay originalDay)
  = Some (360 * Minute).
Proof. vm_compute. reflexivity. Qed.

Lemma Contains_unfold (s substr : string) :
  Contains s substr
  = String.prefix substr s
    || match s with
       | EmptyString => false
       | String _ rest => Contains rest substr
       end.
Proof. by destruct s. Qed.

Lemma prefix_shorter (a b s : string) :
  String.prefix (a ++ b) s = true → String.prefix a s = true.
Proof.
  revert s. induction a as [|c a IH]; intros s; [by destruct s|].
  rewrite append_String. destruct s as [|c' s]; simpl; [done|].
  destruct (ascii_dec c c'); [apply IH|done].
Qed.

Lemma Contains_longer (s a b : string) :
  Contains s (a ++ b) = true → Contains s a = true.
Proof.
  induction s as [|c s IH].
  - rewrite (Contains_unfold "" (a ++ b)), (Contains_unfold "" a).
    rewrite !orb_false_r. apply prefix_shorter.
  - rewrite (Contains_unfold (String c s) (a ++ b)),
      (Contains_unfold (String c s) a).
    intros [H|H]%orb_true_iff; apply orb_true_iff.
    + left. by apply prefix_shorter in H.
    + right. by apply IH.
Qed.

Lemma Contains_later (s : string) (c : ascii) (a : string) :
  Contains s (String c a) = true → Contains s a = true.
Proof.
  induction s as [|c' s IH]; rewrite (Contains_unfold _ (String c a)).
  - simpl. done.
  - intros [H|H]%orb_true_iff.
    + simpl in H. destruct (ascii_dec c c'); [|done].
      rewrite (Contains_unfold (String c' s)). apply orb_true_iff. right.
      rewrite Contains_unfold. by rewrite H.
    + rewrite (Contains_unfold (String c' s)). apply orb_true_iff. right.
      by apply IH.
Qed.

Lemma Contains_in_bed (desc : string) :
  Contains "bed" desc = true →
  desc ∈ [""; "b"; "e"; "d"; "be"; "ed"; "bed"].
Proof.
  assert (Hp : ∀ (c : ascii) (t s : string),
            String.prefix s (String c t) = true →
            s = "" ∨ ∃ s', s = String c s' ∧ String.prefix s' t = true).
  { intros c t [|a s']; simpl; [by left|].
    destruct (ascii_dec a c) as [->|]; [|done]. right. eauto. }
  assert (He : ∀ s, String.prefix s "" = true → s = "").
  { by intros [|a s']. }
  rewrite Contains_unfold. intros [H|H]%orb_true_iff.
  { apply Hp in H as [->|(s1 & -> & H)]; [set_solver|].
    apply Hp in H as [->|(s2 & -> & H)]; [set_solver|].
    apply Hp in H as [->|(s3 & -> & H)]; [set_solver|].
    apply He in H as ->. set_solver. }
  rewrite Contains_unfold in H. apply orb_true_iff in H as [H|H].
  { apply Hp in H as [->|(s1 & -> & H)]; [set_solver|].
    apply Hp in H as [->|(s2 & -> & H)]; [set_solver|].
    apply He in H as ->. set_solver. }
  rewrite Contains_unfold in H. apply orb_true_iff in H as [H|H].
  { apply Hp in H as [->|(s1 & -> & H)]; [set_solver|].
    apply He in H as ->. set_solver. }
  rewrite Contains_unfold, orb_false_r in H. apply He in H as ->. set_solver.
Qed.

(** X22. When an activity is kept whole. [shouldDecomposeActivity] refuses to
    decompose exactly the descriptions that contain "sleeping" or
    "asleep", those that contain "sleep" and also "in bed" or last more
    than an hour, and the description "bed" itself when it lasts more than
    an hour. The first test asks whether "bed" contains the description,
    not the reverse, so an activity that mentions a bed without the word
    sleep, such as "going to bed", is decomposed whatever its duration. *)
Theorem shouldDecomposeActivity_spec (desc : string) (dur : Z) :
  shouldDecomposeActivity desc dur = false
  ↔ Contains desc "sleeping" = true
    ∨ Contains desc "asleep" = true
    ∨ (Contains desc "sleep" = true
       ∧ (Contains desc "in bed" = true ∨ dur > 60))
    ∨ (desc = "bed" ∧ dur > 60).
Proof.
  assert (F1 : Contains desc "sleeping" = true → Contains desc "sleep" = true).
  { apply (Contains_longer desc "sleep" "ing"). }
  assert (F2 : Contains desc "asleep" = true → Contains desc "sleep" = true).
  { apply Contains_later. }
  assert (F3 : Contains "bed" desc = true →
               Contains desc "in bed" = false
               ∧ Contains desc "sleep" = false
               ∧ (Contains desc "bed" = true → desc = "bed")).
  { intros Hin%Contains_in_bed.
    repeat (apply elem_of_cons in Hin as [->|Hin]; [by vm_compute|]).
    by apply elem_of_nil in Hin. }
  assert (F4 : desc = "bed" → Contains "bed" desc = true) by (by intros ->).
  unfold shouldDecomposeActivity.
  destruct (Contains desc "sleep") eqn:Hsleep;
    destruct (Contains "bed" desc) eqn:Hbed;
    destruct (Contains desc "sleeping") eqn:Hsleeping;
    destruct (Contains desc "asleep") eqn:Hasleep;
    destruct (Contains desc "in bed") eqn:Hinbed;
    destruct (Contains desc "bed") eqn:Hhasbed;
    simpl; try case_decide;
    try (specialize (F1 eq_refl)); try (specialize (F2 eq_refl));
    try (destruct (F3 eq_refl) as (F3a & F3b & F3c));
    try discriminate;
    (split; [intros ?; try discriminate; try tauto
            |intros [?|[?|[[? [?|?]]|[? ?]]]]; try discriminate; try done;
             try lia]);
    try (right; right; left; split; [done|]; tauto);
    try (right; right; right; split; [by apply F3c|done]);
    try (specialize (F4 ltac:(done)); congruence).
Qed.

(** "going to bed" for eight hours is decomposed; "sleeping" is not. *)
Example shouldDecomposeActivity_going_to_bed :
  shouldDecomposeActivity "going to bed" 480 = true
  ∧ shouldDecomposeActivity "sleeping" 480 = false.
Proof. split; reflexivity. Qed.

Lemma firstAtOrAfter_none (schedule : list Plan) (t : Time) : ∀ i durSum,
  (∀ j, (j < length schedule)%nat → durSum + elapsedBefore schedule j < t) →
  firstAtOrAfter schedule t i durSum = -1.
Proof.
  induction schedule as [|plan schedule IH]; intros i durSum Hall; [done|].
  simpl. rewrite decide_False.
  - apply IH. intros j Hj. specialize (Hall (S j) ltac:(simpl; lia)).
    rewrite elapsedBefore_S in Hall. lia.
  - specialize (Hall 0%nat ltac:(simpl; lia)). unfold elapsedBefore in Hall.
    simpl in Hall. lia.
Qed.

(** X23. A reaction whose window ends after the start of every entry of the
    live schedule makes [createReact] panic: the search for the entry to
    end at finds none, and the slice expression with index -1 is out of
    range. A window that ends with the day is such a window. *)
Theorem createReact_late_window_panics
    (GenerateReactionScheduleUpdate : Persona → Plan → Time → Time → list Plan)
    (p : Persona) (summary : string) (duration : Z) (address : Path)
    (spo : SPO) (actStartTime : Time) (pronunciato chattingWith : string)
    (chat : list Utterance) (chattingWithBuffer : gmap string Z)
    (chatEndTime startTime endTime : Time) :
  reactWindow p = Some (startTime, endTime) →
  (∀ j, (j < length (DailySchedule (state p)))%nat →
        StartOfDay p + elapsedBefore (DailySchedule (state p)) j < endTime) →
  createReact GenerateReactionScheduleUpdate p summary duration address spo
    actStartTime pronunciato chattingWith chat chattingWithBuffer chatEndTime
  = None.
Proof.
  intros Hwin Hlate. unfold createReact. rewrite Hwin. simpl.
  rewrite findIndices_firstAtOrAfter by lia.
  rewrite !decide_True by done.
  rewrite (firstAtOrAfter_none _ endTime 0 (StartOfDay p) Hlate).
  destruct (sliceTo _ _); simpl; done.
Qed.

Lemma createReact_late_window_panics_witness :
  let p := schedulePersona (900 * Minute) originalDay originalDay in
  reactWindow p = Some (540 * Minute, 1440 * Minute)
  ∧ (∀ j, (j < length (DailySchedule (state p)))%nat →
          StartOfDay p + elapsedBefore (DailySchedule (state p)) j
          < 1440 * Minute)
  ∧ createReact (fixedCognition twoHourPlans) p "waiting to start work" 10
      (mkPath "<waiting> X" " 3, Y" " 4" "")
      (mkSPO "bob" "waiting to start" "work") zeroTime "⌛" "" [] ∅ zeroTime
    = None.
Proof.
  intros p.
  assert (Hwin : reactWindow p = Some (540 * Minute, 1440 * Minute))
    by (vm_compute; reflexivity).
  assert (Hlate : ∀ j, (j < length (DailySchedule (state p)))%nat →
            StartOfDay p + elapsedBefore (DailySchedule (state p)) j
            < 1440 * Minute).
  { intros j Hj.
    do 5 (destruct j as [|j]; [vm_compute; reflexivity|]).
    simpl in Hj. lia. }
  split; [exact Hwin|]. split; [exact Hlate|].
  exact (createReact_late_window_panics (fixedCognition twoHourPlans) p
           "waiting to start work" 10 (mkPath "<waiting> X" " 3, Y" " 4" "")
           (mkSPO "bob" "waiting to start" "work") zeroTime "⌛" "" [] ∅
           zeroTime (540 * Minute) (1440 * Minute) Hwin Hlate).
Defined.

(** Right after [SetActivity] the activity counts as finished exactly when
    its address is empty or its duration is not positive; after
    [SetChatActivity] with a chat partner, exactly when the address is
    empty or the chat's end time is not after the current time. *)
Theorem IsActivityFinished_after_Set (s : State) (activityAddress : Path)
    (duration : Z) (activityDescription activityPronunciato : string)
    (activitySPO : SPO)
    (activityObjectDescription activityObjectPronunciato : string)
    (activityObjectSPO : SPO) (chattingWith : string) (chat : list Utterance)
    (chattingWithBuffer : gmap string Z) (chatEndTime : Time) :
  (IsActivityFinished
     (SetActivity s activityAddress duration activityDescription
        activityPronunciato activitySPO activityObjectDescription
        activityObjectPronunciato activityObjectSPO) = true
   ↔ IsEmpty activityAddress = true ∨ duration <= 0)
  ∧ (chattingWith ≠ "" →
     (IsActivityFinished
        (SetChatActivity s activityAddress duration activityDescription
           activityPronunciato activitySPO chattingWith chat
           chattingWithBuffer chatEndTime) = true
      ↔ IsEmpty activityAddress = true ∨ chatEndTime <= CurrentTime s)).
Proof.
  unfold IsActivityFinished, SetActivity, SetChatActivity.
  cbn [ActivityAddress ChattingWith ChatEndTime ActivityStartTime
       ActivityDuration CurrentTime].
  split.
  - destruct (IsEmpty activityAddress); [by split; [left|]|].
    rewrite decide_False by (by intros H; apply H).
    rewrite bool_decide_eq_true. split; [intros; right; lia|].
    intros [?|?]; [done|lia].
  - intros Hchat. destruct (IsEmpty activityAddress); [by split; [left|]|].
    rewrite decide_True by done.
    rewrite bool_decide_eq_true. split; [intros; right; lia|].
    intros [?|?]; [done|lia].
Qed.

Lemma planIndexFrom_ge (schedule : list Plan) (t : Z) : ∀ elapsed currIndex,
  currIndex <= planIndexFrom schedule t elapsed currIndex.
Proof.
  induction schedule as [|plan schedule IH]; intros elapsed currIndex; simpl;
    [lia|].
  case_decide; [lia|]. specialize (IH (wrap64 (elapsed + minutes (Duration plan)))
                                    (currIndex + 1)). lia.
Qed.

Section DetermineSchedule.

Variable GeneratePlanDecomposition : Persona → Plan → list Plan.

(** What the cognition's own validation checks of a decomposition, that
    its durations add up to that of the plan, and that no duration is
    negative. *)
Hypothesis decomposition_total : ∀ p plan,
  60 <= Duration plan →
  totalDuration (GeneratePlanDecomposition p plan) = Duration plan
  ∧ Forall (λ plan, 0 <= Duration plan) (GeneratePlanDecomposition p plan).

Lemma decomposeAt_keeps (p : Persona) (i : Z) (n : nat) :
  Forall (λ plan, 0 <= Duration plan) (DailySchedule (state p)) →
  totalDuration (DailySchedule (state p)) = 1440 →
  (n <= length (DailySchedule (state p)))%nat →
  0 <= i < len (DailySchedule (state p)) →
  ∃ p', decomposeAt GeneratePlanDecomposition p i = Some p'
    ∧ Forall (λ plan, 0 <= Duration plan) (DailySchedule (state p'))
    ∧ totalDuration (DailySchedule (state p')) = 1440
    ∧ (n <= length (DailySchedule (state p')))%nat
    ∧ CurrentTime (state p') = CurrentTime (state p).
Proof.
  intros Hnn Htotal Hn Hi. unfold decomposeAt.
  destruct (proj2 (index_is_Some (DailySchedule (state p)) i) Hi)
    as [plan Hplan].
  rewrite Hplan. simpl.
  destruct (bool_decide (Duration plan >= 60)
            && shouldDecomposeActivity (Activity plan) (Duration plan))
    eqn:Hdec; [|by exists p].
  apply andb_true_iff in Hdec as [Hdur%bool_decide_eq_true _].
  destruct (decomposition_total p plan ltac:(lia)) as [Hsum Hpieces].
  unfold sliceTo, sliceFrom. rewrite !decide_True by lia. simpl.
  eexists. split; [reflexivity|]. simpl.
  set (schedule := DailySchedule (state p)) in *.
  set (pieces := GeneratePlanDecomposition p plan) in *.
  assert (Hsplit : schedule
                   = (take (Z.to_nat i) schedule
                      ++ plan :: drop (Z.to_nat (i + 1)) schedule)%list).
  { unfold index in Hplan. rewrite decide_True in Hplan by lia.
    replace (Z.to_nat (i + 1)) with (S (Z.to_nat i)) by lia.
    rewrite <- (take_drop_middle _ _ _ Hplan) at 1. done. }
  assert (Hpos : (1 <= length pieces)%nat).
  { destruct pieces; simpl in *; lia. }
  split; [|split; [|split; [|done]]].
  - rewrite Hsplit in Hnn. apply Forall_app in Hnn as [H1 H2].
    apply Forall_cons in H2 as [_ H2].
    apply Forall_app. split; [apply Forall_app; by split|done].
  - rewrite Hsplit in Htotal. rewrite totalDuration_app in Htotal.
    simpl in Htotal. rewrite !totalDuration_app, Hsum. lia.
  - rewrite Hsplit in Hn. rewrite !length_app in *. simpl in Hn. lia.
Qed.

(** X24. The schedule that [determineActivity] settles. On a daily schedule
    of 1440 minutes without negative durations, and with a cognition whose
    decompositions add up to the plan they replace, the scheduling part
    never panics: the schedule it leaves still sums to 1440 minutes and
    has no negative duration, and the current plan is the entry of the new
    schedule at the index that was computed on the old one. *)
Theorem determineSchedule_keeps_day (p : Persona) :
  Forall (λ plan, 0 <= Duration plan) (DailySchedule (state p)) →
  totalDuration (DailySchedule (state p)) = 1440 →
  ∃ p' currPlan,
    determineSchedule GeneratePlanDecomposition p = Some (p', currPlan)
    ∧ totalDuration (DailySchedule (state p')) = 1440
    ∧ Forall (λ plan, 0 <= Duration plan) (DailySchedule (state p'))
    ∧ index (DailySchedule (state p')) (GetDailyPlanIndex (state p))
      = Some currPlan
    ∧ CurrentTime (state p') = CurrentTime (state p).
Proof.
  intros Hnn Htotal.
  destruct (planIndex_in_day p Hnn Htotal) as (ci & Hci & Hcilt & _).
  pose proof (planIndexFrom_ge (DailySchedule (state p))
                (timeElapsedToday (state p) 60) 0 0) as Hhour.
  fold (GetDailyPlanIndexInMinutes (state p) 60) in Hhour.
  unfold determineSchedule.
  set (hi := GetDailyPlanIndexInMinutes (state p) 60) in *.
  rewrite Hci.
  set (n := length (DailySchedule (state p))).
  (* the first block *)
  assert (H1 : ∃ p1,
            (if decide (Z.of_nat ci = 0) then
               p1 ← decomposeAt GeneratePlanDecomposition p (Z.of_nat ci);
               if decide (hi + 1 < len (DailySchedule (state p1)))
               then decomposeAt GeneratePlanDecomposition p1 (hi + 1)
               else Some p1
             else Some p) = Some p1
            ∧ Forall (λ plan, 0 <= Duration plan) (DailySchedule (state p1))
            ∧ totalDuration (DailySchedule (state p1)) = 1440
            ∧ (n <= length (DailySchedule (state p1)))%nat
            ∧ CurrentTime (state p1) = CurrentTime (state p)).
  { case_decide as Hzero; [|by exists p].
    destruct (decomposeAt_keeps p (Z.of_nat ci) n Hnn Htotal)
      as (pa & -> & Hnna & Htotala & Hna & Hta); [done|unfold len; lia|].
    simpl. case_decide as Hnext; [|by exists pa].
    destruct (decomposeAt_keeps pa (hi + 1) n Hnna Htotala Hna)
      as (pb & -> & Hnnb & Htotalb & Hnb & Htb); [lia|].
    exists pb. repeat split; try done. congruence. }
  destruct H1 as (p1 & -> & Hnn1 & Htotal1 & Hn1 & Ht1). simpl.
  assert (H2 : ∃ p2,
            (if decide (hi < len (DailySchedule (state p1))) then
               if decide (clockHour (CurrentTime (state p1)) < 23)
               then decomposeAt GeneratePlanDecomposition p1 hi
               else Some p1
             else Some p1) = Some p2
            ∧ Forall (λ plan, 0 <= Duration plan) (DailySchedule (state p2))
            ∧ totalDuration (DailySchedule (state p2)) = 1440
            ∧ (n <= length (DailySchedule (state p2)))%nat
            ∧ CurrentTime (state p2) = CurrentTime (state p)).
  { case_decide as Hin; [|by exists p1].
    case_decide as Hlate; [|by exists p1].
    destruct (decomposeAt_keeps p1 hi n Hnn1 Htotal1 Hn1)
      as (pc & -> & Hnnc & Htotalc & Hnc & Htc); [lia|].
    exists pc. repeat split; try done. congruence. }
  destruct H2 as (p2 & -> & Hnn2 & Htotal2 & Hn2 & Ht2). simpl.
  assert (Hpad : padToDay (DailySchedule (state p2))
                 = Some (DailySchedule (state p2))).
  { unfold padToDay.
    rewrite (scheduledDuration_minutes _ Hnn2) by lia. rewrite Htotal2.
    rewrite decide_False by (unfold Day, Hour; lia).
    by rewrite decide_False by (unfold Day, Hour; lia). }
  rewrite Hpad. simpl.
  destruct (proj2 (index_is_Some (DailySchedule (state p2)) (Z.of_nat ci)))
    as [plan Hplan]; [unfold len; subst n; lia|].
  rewrite Hplan. simpl. eexists _, plan. split; [reflexivity|]. simpl.
  done.
Qed.

End DetermineSchedule.

Lemma determineSchedule_keeps_day_witness :
  let p := schedulePersona (440 * Minute) originalDay originalDay in
  (∀ p plan,
     60 <= Duration plan →
     totalDuration (halfHourFirst p plan) = Duration plan
     ∧ Forall (λ plan, 0 <= Duration plan) (halfHourFirst p plan))
  ∧ Forall (λ plan, 0 <= Duration plan) (DailySchedule (state p))
  ∧ totalDuration (DailySchedule (state p)) = 1440
  ∧ ∃ p' currPlan,
      determineSchedule halfHourFirst p = Some (p', currPlan)
      ∧ totalDuration (DailySchedule (state p')) = 1440
      ∧ Forall (λ plan, 0 <= Duration plan) (DailySchedule (state p'))
      ∧ index (DailySchedule (state p')) (GetDailyPlanIndex (state p))
        = Some currPlan
      ∧ CurrentTime (state p') = CurrentTime (state p).
Proof.
  intros p.
  assert (Hdec : ∀ p plan,
            60 <= Duration plan →
            totalDuration (halfHourFirst p plan) = Duration plan
            ∧ Forall (λ plan, 0 <= Duration plan) (halfHourFirst p plan)).
  { intros q plan Hdur. unfold halfHourFirst. simpl. split; [lia|].
    repeat constructor; simpl; lia. }
  assert (Hnn : Forall (λ plan, 0 <= Duration plan) (DailySchedule (state p))).
  { repeat constructor; simpl; lia. }
  assert (Htotal : totalDuration (DailySchedule (state p)) = 1440)
    by reflexivity.
  split; [exact Hdec|]. split; [exact Hnn|]. split; [exact Htotal|].
  exact (determineSchedule_keeps_day halfHourFirst Hdec p Hnn Htotal).
Defined.

(** At 07:20 of the hourly day the lunch that starts at 08:00 is
    decomposed, and the current plan is the hour of work. *)
Example determineSchedule_at_breakfast :
  (λ r, (DailySchedule (state r.1), r.2))
    <$> determineSchedule halfHourFirst
          (schedulePersona (440 * Minute) originalDay originalDay)
  = Some ([mkPlan "sleeping" 360; mkPlan "breakfast" 60; mkPlan "work" 60;
           mkPlan "lunch" 30; mkPlan "carrying on" 30; mkPlan "rest" 900],
          mkPlan "work" 60).
Proof. vm_compute. reflexivity. Qed.

End ScheduleProperties.

(* --------------------------------------------------------------------- *)
(** ** Validated answers of the language model *)

Section OpenaiProperties.
Import agent llm openai.

(** The attempts before [attempt], from [first] on, were all decoded and
    failed the validation: the only answers after which the loop goes on. *)
Lemma retryLoop_outcome {Out} (doRequest : nat → Response Out)
    (valid : Out → bool) :
  ∀ attempts first,
  ∃ attempt, (first <= attempt <= first + attempts)%nat
    ∧ (∀ earlier, (first <= earlier < attempt)%nat →
         ∃ o, doRequest earlier = Decoded o ∧ valid o = false)
    ∧ match retryLoop doRequest (Some valid) attempts first with
      | Accepted out =>
          (attempt < first + attempts)%nat
          ∧ doRequest attempt = Decoded out ∧ valid out = true
      | Panicked =>
          (attempt < first + attempts)%nat
          ∧ doRequest attempt = UnmarshalError
      | Failed =>
          attempt = (first + attempts)%nat
          ∨ doRequest attempt = OtherError
      end.
Proof.
  induction attempts as [|attempts IH]; intros first; simpl.
  { exists first. split; [lia|]. split; [intros; lia|]. left. lia. }
  destruct (doRequest first) as [o| |] eqn:Hfirst.
  - destruct (valid o) eqn:Hvalid.
    + exists first. split; [lia|]. split; [intros; lia|]. split; [lia|done].
    + destruct (IH (S first)) as (attempt & Hr & Hall & Hres).
      exists attempt. split; [lia|]. split.
      * intros earlier He.
        destruct (decide (earlier = first)) as [->|]; [by exists o|].
        apply Hall. lia.
      * destruct (retryLoop _ _ _ _) as [out| |].
        -- split; [lia|]. apply Hres.
        -- destruct Hres as [->|Hres]; [left; lia|by right].
        -- split; [lia|]. apply Hres.
  - exists first. split; [lia|]. split; [intros; lia|]. split; [lia|done].
  - exists first. split; [lia|]. split; [intros; lia|]. by right.
Qed.

(** The first attempt that does not fail the validation decides. *)
Lemma retry_first_decides {Out} (doRequest : nat → Response Out)
    (valid : Out → bool) (a b : nat) :
  (∀ earlier, (earlier < a)%nat →
     ∃ o, doRequest earlier = Decoded o ∧ valid o = false) →
  (∀ earlier, (earlier < b)%nat →
     ∃ o, doRequest earlier = Decoded o ∧ valid o = false) →
  (∀ o, doRequest a = Decoded o → valid o = true) →
  (∀ o, doRequest b = Decoded o → valid o = true) →
  a = b.
Proof.
  intros Ha Hb Hda Hdb.
  destruct (lt_eq_lt_dec a b) as [[Hlt| ->]|Hlt]; [|done|].
  - destruct (Hb a Hlt) as (o & Ho & Hv). specialize (Hda o Ho). congruence.
  - destruct (Ha b Hlt) as (o & Ho & Hv). specialize (Hdb o Ho). congruence.
Qed.

Lemma retry_accepts {Out} (doRequest : nat → Response Out)
    (templateOk : bool) (maxRetries : Z) (valid : Out → bool) (out : Out) :
  doRequestWithRetry doRequest templateOk maxRetries (Some valid)
  = Accepted out
  ↔ templateOk = true
    ∧ ∃ attempt : nat, Z.of_nat attempt < maxRetries
        ∧ doRequest attempt = Decoded out
        ∧ valid out = true
        ∧ ∀ earlier, (earlier < attempt)%nat →
            ∃ o, doRequest earlier = Decoded o ∧ valid o = false.
Proof.
  unfold doRequestWithRetry. destruct templateOk; [|split; [done|by intros [? _]]].
  destruct (retryLoop_outcome doRequest valid (Z.to_nat maxRetries) 0)
    as (attempt & Hr & Hall & Hres).
  split.
  - intros Hacc. rewrite Hacc in Hres. destruct Hres as (Hlt & Hd & Hv).
    split; [done|]. exists attempt. split; [lia|]. split; [done|].
    split; [done|]. intros earlier He. apply Hall. lia.
  - intros (_ & b & Hb & Hd & Hv & Hbefore).
    assert (Hall' : ∀ earlier, (earlier < attempt)%nat →
              ∃ o, doRequest earlier = Decoded o ∧ valid o = false).
    { intros earlier He. apply Hall. lia. }
    assert (Hdb : ∀ o, doRequest b = Decoded o → valid o = true)
      by (intros o Ho; congruence).
    destruct (retryLoop _ _ _ _) as [out'| |].
    + destruct Hres as (_ & Hd' & Hv').
      assert (attempt = b) as ->.
      { apply (retry_first_decides doRequest valid); try done.
        intros o Ho. congruence. }
      congruence.
    + exfalso. destruct Hres as [->|Hother].
      * destruct (Hall b) as (o & Ho & Hvo); [lia|].
        specialize (Hdb o Ho). congruence.
      * assert (attempt = b) as ->; [|congruence].
        apply (retry_first_decides doRequest valid); try done.
        intros o Ho. congruence.
    + exfalso. destruct Hres as (_ & Hd').
      assert (attempt = b) as ->; [|congruence].
      apply (retry_first_decides doRequest valid); try done.
      intros o Ho. congruence.
Qed.

Lemma retry_panics {Out} (doRequest : nat → Response Out)
    (templateOk : bool) (maxRetries : Z) (valid : Out → bool) :
  doRequestWithRetry doRequest templateOk maxRetries (Some valid) = Panicked
  ↔ templateOk = true
    ∧ ∃ attempt : nat, Z.of_nat attempt < maxRetries
        ∧ doRequest attempt = UnmarshalError
        ∧ ∀ earlier, (earlier < attempt)%nat →
            ∃ o, doRequest earlier = Decoded o ∧ valid o = false.
Proof.
  unfold doRequestWithRetry. destruct templateOk; [|split; [done|by intros [? _]]].
  destruct (retryLoop_outcome doRequest valid (Z.to_nat maxRetries) 0)
    as (attempt & Hr & Hall & Hres).
  split.
  - intros Hp. rewrite Hp in Hres. destruct Hres as (Hlt & Hd).
    split; [done|]. exists attempt. split; [lia|]. split; [done|].
    intros earlier He. apply Hall. lia.
  - intros (_ & b & Hb & Hd & Hbefore).
    assert (Hall' : ∀ earlier, (earlier < attempt)%nat →
              ∃ o, doRequest earlier = Decoded o ∧ valid o = false).
    { intros earlier He. apply Hall. lia. }
    assert (Hdb : ∀ o, doRequest b = Decoded o → valid o = true)
      by (intros o Ho; congruence).
    destruct (retryLoop _ _ _ _) as [out'| |]; [exfalso|exfalso|done].
    + destruct Hres as (_ & Hd' & Hv').
      assert (attempt = b) as ->; [|congruence].
      apply (retry_first_decides doRequest valid); try done.
      intros o Ho. congruence.
    + destruct Hres as [->|Hother].
      * destruct (Hall b) as (o & Ho & Hvo); [lia|]. congruence.
      * assert (attempt = b) as ->; [|congruence].
        apply (retry_first_decides doRequest valid); try done.
        intros o Ho. congruence.
Qed.

(** X25. [doRequestWithRetry] returns without error exactly when the prompt
    template executes and one of the first [maxRetries] attempts is decoded
    and passes the validation while every attempt before it was decoded and
    failed the validation; the answer left in [output] is that of this
    attempt, so an answer that a caller gets to see has passed the caller's
    validation. A decoder error is not retried: the call panics exactly when
    the first attempt that is not a decoded answer failing the validation
    is a decoder error. *)
Theorem doRequestWithRetry_accepts {Out} (doRequest : nat → Response Out)
    (templateOk : bool) (maxRetries : Z) (valid : Out → bool) :
  (∀ out,
     doRequestWithRetry doRequest templateOk maxRetries (Some valid)
     = Accepted out
     ↔ templateOk = true
       ∧ ∃ attempt : nat, Z.of_nat attempt < maxRetries
           ∧ doRequest attempt = Decoded out
           ∧ valid out = true
           ∧ ∀ earlier, (earlier < attempt)%nat →
               ∃ o, doRequest earlier = Decoded o ∧ valid o = false)
  ∧ (doRequestWithRetry doRequest templateOk maxRetries (Some valid)
     = Panicked
     ↔ templateOk = true
       ∧ ∃ attempt : nat, Z.of_nat attempt < maxRetries
           ∧ doRequest attempt = UnmarshalError
           ∧ ∀ earlier, (earlier < attempt)%nat →
               ∃ o, doRequest earlier = Decoded o ∧ valid o = false).
Proof. split; [intros out; apply retry_accepts|apply retry_panics]. Qed.

(** One decoder error ends the call, whatever the later attempts would
    answer. *)
Example doRequestWithRetry_decoder_error :
  doRequestWithRetry
    (λ attempt, match attempt with
                | O => UnmarshalError
                | _ => Decoded 7
                end) true 5 (Some (λ _ : Z, true)) = Panicked.
Proof. reflexivity. Qed.

Lemma mergeHours_snoc (schedule : list HourlyEntry) (p : HourlyEntry) :
  mergeHours (schedule ++ [p])
  = match last (mergeHours schedule) with
    | Some lastPlan =>
        if decide (Activity lastPlan = HourlyActivity p) then
          alter (λ plan, mkPlan (Activity plan)
                           (agent.wrap64 (Duration plan + 60)))
            (length (mergeHours schedule) - 1)%nat (mergeHours schedule)
        else (mergeHours schedule ++ [mkPlan (HourlyActivity p) 60])%list
    | None => (mergeHours schedule ++ [mkPlan (HourlyActivity p) 60])%list
    end.
Proof. unfold mergeHours. by rewrite foldl_app. Qed.

Lemma adjacentDistinct_snoc (plans : list Plan) (a b : Plan) :
  adjacentDistinct (plans ++ [a]) → Activity a ≠ Activity b →
  adjacentDistinct ((plans ++ [a]) ++ [b]).
Proof.
  intros Hadj Hne i x y Hx Hy.
  destruct (decide (S i < length (plans ++ [a]))%nat) as [Hlt|Hge].
  - rewrite lookup_app_l in Hx by lia. rewrite lookup_app_l in Hy by lia.
    by apply (Hadj i).
  - assert (S i = length (plans ++ [a])) as Hi.
    { apply lookup_lt_Some in Hy. rewrite length_app in Hy. simpl in Hy. lia. }
    rewrite length_app in Hi. simpl in Hi.
    rewrite lookup_app_l in Hx by (rewrite length_app; simpl; lia).
    rewrite lookup_app_r in Hx by lia.
    rewrite lookup_app_r in Hy by (rewrite length_app; simpl; lia).
    rewrite length_app in Hy. simpl in Hy.
    replace (i - length plans)%nat with 0%nat in Hx by lia.
    replace (S i - (length plans + 1))%nat with 0%nat in Hy by lia.
    simpl in Hx, Hy. congruence.
Qed.

Lemma adjacentDistinct_last (plans : list Plan) (a a' : Plan) :
  adjacentDistinct (plans ++ [a]) → Activity a' = Activity a →
  adjacentDistinct (plans ++ [a']).
Proof.
  intros Hadj Hsame i x y Hx Hy.
  assert (Hi : (S i < length plans + 1)%nat).
  { apply lookup_lt_Some in Hy. rewrite length_app in Hy. simpl in Hy. lia. }
  rewrite lookup_app_l in Hx by lia.
  destruct (decide (S i < length plans)%nat) as [Hlt|Hge].
  - rewrite lookup_app_l in Hy by lia.
    apply (Hadj i); by rewrite lookup_app_l by lia.
  - rewrite lookup_app_r in Hy by lia.
    replace (S i - length plans)%nat with 0%nat in Hy by lia.
    simpl in Hy. injection Hy as <-. rewrite Hsame.
    apply (Hadj i x a); [by rewrite lookup_app_l by lia|].
    rewrite lookup_app_r by lia.
    by replace (S i - length plans)%nat with 0%nat by lia.
Qed.

Lemma mergeHours_spec (schedule : list HourlyEntry) :
  (length schedule <= 1000)%nat →
  totalDuration (mergeHours schedule) = 60 * Z.of_nat (length schedule)
  ∧ Forall (λ plan, 60 <= Duration plan ∧ Duration plan mod 60 = 0)
      (mergeHours schedule)
  ∧ adjacentDistinct (mergeHours schedule)
  ∧ (length (mergeHours schedule) <= length schedule)%nat.
Proof.
  induction schedule as [|p schedule IH] using rev_ind; intros Hlen.
  { split; [done|]. split; [constructor|]. split; [by intros i a b ?|done]. }
  rewrite length_app in Hlen. simpl in Hlen.
  destruct IH as (Htotal & Hall & Hadj & Hshort); [lia|].
  rewrite mergeHours_snoc, length_app. simpl.
  destruct (last (mergeHours schedule)) as [lastPlan|] eqn:Hlast.
  - apply last_Some in Hlast as [plans Hplans]. rewrite Hplans in *.
    rewrite totalDuration_app in Htotal. simpl in Htotal.
    apply Forall_app in Hall as [Hall Hl].
    apply Forall_cons in Hl as [[Hl60 Hlmod] _].
    rewrite length_app in *. simpl in *.
    case_decide as Hsame.
    + replace (length plans + 1 - 1)%nat with (length plans + 0)%nat by lia.
      rewrite alter_app_r. simpl.
      assert (Hplans0 : 0 <= totalDuration plans).
      { apply totalDuration_nonneg. eapply Forall_impl; [exact Hall|].
        simpl. intros; lia. }
      rewrite wrap64_small by lia.
      split; [rewrite totalDuration_app; simpl; lia|].
      split; [|split].
      * apply Forall_app. split; [done|]. constructor; [|constructor]. simpl.
        split; [lia|]. rewrite <- Z.add_mod_idemp_l, Hlmod by lia. done.
      * by apply (adjacentDistinct_last plans lastPlan).
      * rewrite length_app. simpl. lia.
    + split; [rewrite !totalDuration_app in *; simpl; lia|].
      split; [|split].
      * apply Forall_app. split; [apply Forall_app; split; [done|]|].
        -- by constructor.
        -- constructor; [|constructor]. simpl. done.
      * by apply adjacentDistinct_snoc.
      * rewrite !length_app. simpl. lia.
  - apply last_None in Hlast. rewrite Hlast in *. simpl in *.
    split; [lia|]. split; [by repeat constructor|].
    split; [|lia]. intros i a b Ha Hb. by destruct i.
Qed.

(** X26. The hourly schedule of a day. When [GenerateHourlySchedule] returns,
    the answer had 24 entries, and the schedule built from it sums to 1440
    minutes; every entry lasts a whole number of hours, at least one; no
    two neighbours carry the same activity. *)
Theorem GenerateHourlySchedule_day
    (doRequest : nat → Response (list HourlyEntry))
    (templateOk : bool) (maxRetries : Z) (schedule : list Plan) :
  GenerateHourlySchedule doRequest templateOk maxRetries = Some schedule →
  totalDuration schedule = 1440
  ∧ Forall (λ plan, 60 <= Duration plan ∧ Duration plan mod 60 = 0) schedule
  ∧ adjacentDistinct schedule
  ∧ (1 <= length schedule <= 24)%nat.
Proof.
  unfold GenerateHourlySchedule.
  destruct (doRequestWithRetry _ _ _ _) as [out| |] eqn:Hret; simpl;
    [|done|done].
  intros [= <-].
  apply retry_accepts in Hret as (_ & attempt & _ & _ & Hvalid & _).
  unfold validHourly in Hvalid. case_decide as Hlen; [done|].
  unfold len in Hlen.
  destruct (mergeHours_spec out) as (Htotal & Hall & Hadj & Hshort); [lia|].
  split; [lia|]. split; [done|]. split; [done|]. split; [|lia].
  destruct (mergeHours out); simpl in *; lia.
Qed.

Lemma GenerateHourlySchedule_day_witness :
  let schedule := [mkPlan "sleeping" 480; mkPlan "working" 960] in
  GenerateHourlySchedule sleepThenWork true 5 = Some schedule
  ∧ totalDuration schedule = 1440
  ∧ Forall (λ plan, 60 <= Duration plan ∧ Duration plan mod 60 = 0) schedule
  ∧ adjacentDistinct schedule
  ∧ (1 <= length schedule <= 24)%nat.
Proof.
  intros schedule.
  assert (Hret : GenerateHourlySchedule sleepThenWork true 5
                 = Some schedule) by (vm_compute; reflexivity).
  split; [exact Hret|].
  exact (GenerateHourlySchedule_day sleepThenWork true 5 schedule Hret).
Defined.

Lemma countdown_total (schedule : list Task) :
  ∀ totalTime left,
  Forall (λ task, Z.abs (DurationMinutes task) <= 2 ^ 31) schedule →
  Z.abs totalTime + 2 ^ 31 * Z.of_nat (length schedule) < 2 ^ 63 →
  foldl (λ acc task,
           totalTime ← acc;
           let totalTime := agent.wrap64 (totalTime - DurationMinutes task) in
           if decide (totalTime ≠ MinutesLeft task) then None
           else Some totalTime) (Some totalTime) schedule = Some left →
  left = totalTime - foldr (λ task sum, DurationMinutes task + sum) 0 schedule.
Proof.
  induction schedule as [|task schedule IH]; intros totalTime left Hall Hb;
    simpl.
  { intros [= <-]. lia. }
  apply Forall_cons in Hall as [Ht Hall]. simpl in Hb.
  rewrite wrap64_small by lia.
  case_decide as Hleft.
  - assert (Hnone : ∀ l : list Task,
              foldl (λ acc task,
                       totalTime ← acc;
                       let totalTime :=
                         agent.wrap64 (totalTime - DurationMinutes task) in
                       if decide (totalTime ≠ MinutesLeft task) then None
                       else Some totalTime) None l = None).
    { induction l; simpl; done. }
    by rewrite Hnone.
  - intros Hfold. apply IH in Hfold; [lia|done|lia].
Qed.

(** X27. The decomposition of a plan. When [GeneratePlanDecomposition]
    returns, the tasks it returns add up to the duration of the plan
    (durations up to 2^31 minutes and up to 2^31 tasks, so that the count
    of the minutes left cannot overflow). *)
Theorem GeneratePlanDecomposition_total
    (doRequest : nat → Response (list Task))
    (templateOk : bool) (maxRetries : Z) (plan : Plan) (tasks : list Plan) :
  GeneratePlanDecomposition doRequest templateOk maxRetries plan
  = Some tasks →
  Z.abs (Duration plan) <= 2 ^ 31 →
  Forall (λ task, Z.abs (Duration task) <= 2 ^ 31) tasks →
  len tasks < 2 ^ 31 →
  totalDuration tasks = Duration plan.
Proof.
  unfold GeneratePlanDecomposition.
  destruct (doRequestWithRetry _ _ _ _) as [out| |] eqn:Hret; simpl;
    [|done|done].
  intros [= <-] Hplan Hall Hlen.
  apply retry_accepts in Hret as (_ & attempt & _ & _ & Hvalid & _).
  unfold validDecomposition in Hvalid.
  destruct (foldl _ _ out) as [left|] eqn:Hfold; [|done].
  apply bool_decide_eq_true in Hvalid. apply dec_stable in Hvalid. subst left.
  unfold len in Hlen. rewrite length_map in Hlen.
  assert (Hall' : Forall (λ task, Z.abs (DurationMinutes task) <= 2 ^ 31) out).
  { clear -Hall. induction out as [|t out IH]; [constructor|].
    simpl in Hall. apply Forall_cons in Hall as [Ht Hall].
    constructor; [done|by apply IH]. }
  apply countdown_total in Hfold; [|done|].
  - assert (Hsum : totalDuration
                     (map (λ task, mkPlan (TaskName task) (DurationMinutes task))
                        out)
                   = foldr (λ task sum, DurationMinutes task + sum) 0 out).
    { clear. induction out as [|t out IH]; simpl; [done|]. by rewrite IH. }
    rewrite Hsum. lia.
  - lia.
Qed.

Lemma GeneratePlanDecomposition_total_witness :
  let plan := mkPlan "studying" 60 in
  let tasks := [mkPlan "reading" 30; mkPlan "writing" 30] in
  GeneratePlanDecomposition twoAnswers true 5 plan = Some tasks
  ∧ Z.abs (Duration plan) <= 2 ^ 31
  ∧ Forall (λ task, Z.abs (Duration task) <= 2 ^ 31) tasks
  ∧ len tasks < 2 ^ 31
  ∧ totalDuration tasks = Duration plan.
Proof.
  intros plan tasks.
  assert (Hret : GeneratePlanDecomposition twoAnswers true 5 plan
                 = Some tasks) by (vm_compute; reflexivity).
  assert (Hplan : Z.abs (Duration plan) <= 2 ^ 31) by (simpl; lia).
  assert (Hall : Forall (λ task, Z.abs (Duration task) <= 2 ^ 31) tasks).
  { repeat constructor; simpl; lia. }
  assert (Hlen : len tasks < 2 ^ 31) by (unfold len; simpl; lia).
  split; [exact Hret|]. split; [exact Hplan|]. split; [exact Hall|].
  split; [exact Hlen|].
  exact (GeneratePlanDecomposition_total twoAnswers true 5 plan tasks
           Hret Hplan Hall Hlen).
Defined.

End OpenaiProperties.
